(** * Warehouse Management: the tabular import reconciler

    A shallow embedding of the spreadsheet-import code of the dashboard
    (settings, spare-parts and inventory pages, and the upload API route)
    together with the properties the specification states about it.

    Conventions of the embedding.
    - A JavaScript string is a [string]: a sequence of 8-bit characters.
      Case mapping acts on the letters A-Z / a-z and the white-space class
      of [trim] and of the regular expression [\s] is TAB, LF, VT, FF, CR
      and SPACE; characters outside ASCII are carried along unchanged.
    - A plain object used as a record or dictionary is a [gmap string JsVal];
      reading a key that is not there gives [VUndef], as in JavaScript.
    - [null] and [undefined] are distinct values; an own property may hold
      [undefined], which differs from the property being absent.
    - The keys looked up in a dictionary are taken not to be names that
      [Object.prototype] defines ([constructor] and the like); where a
      function is called with any name, the lookup through the prototype
      is modelled apart ([findHeaderForField_call]).
    - Calls to the database client, the clock and the random generator are
      calls to an environment that the functions thread explicitly. *)

From Stdlib Require Import Ascii NArith ZArith Lia.
From stdpp Require Import base strings list gmap fin_maps.

Local Open Scope N_scope.

(** ** JavaScript primitives *)
Module Js.

(** *** Characters *)

Definition code (c : ascii) : N := N_of_ascii c.

Definition in_range (lo hi : N) (c : ascii) : bool :=
  (lo <=? code c) && (code c <=? hi).

Definition is_upper (c : ascii) : bool := in_range 65 90 c.
Definition is_lower (c : ascii) : bool := in_range 97 122 c.
Definition is_digit (c : ascii) : bool := in_range 48 57 c.

(** The class [\s], also the characters [trim] removes. *)
Definition is_space (c : ascii) : bool :=
  in_range 9 13 c || (code c =? 32).

Definition char_lower (c : ascii) : ascii :=
  if is_upper c then ascii_of_N (code c + 32) else c.

Definition char_upper (c : ascii) : ascii :=
  if is_lower c then ascii_of_N (code c - 32) else c.

(** *** Strings *)

Fixpoint smap (f : ascii → ascii) (s : string) : string :=
  match s with
  | EmptyString => EmptyString
  | String c s' => String (f c) (smap f s')
  end.

(** [s.replace(/[^C]/g, '')] for a character class [C]: keep the members
    of [C], in order. *)
Fixpoint sfilter (p : ascii → bool) (s : string) : string :=
  match s with
  | EmptyString => EmptyString
  | String c s' => if p c then String c (sfilter p s') else sfilter p s'
  end.

Fixpoint sforall (p : ascii → bool) (s : string) : bool :=
  match s with
  | EmptyString => true
  | String c s' => p c && sforall p s'
  end.

Definition toLowerCase : string → string := smap char_lower.
Definition toUpperCase : string → string := smap char_upper.

Fixpoint trimStart (s : string) : string :=
  match s with
  | EmptyString => EmptyString
  | String c s' => if is_space c then trimStart s' else s
  end.

Fixpoint trimEnd (s : string) : string :=
  match s with
  | EmptyString => EmptyString
  | String c s' =>
      match trimEnd s' with
      | EmptyString => if is_space c then EmptyString else String c EmptyString
      | r => String c r
      end
  end.

Definition trim (s : string) : string := trimEnd (trimStart s).

Fixpoint startsWith (s frag : string) : bool :=
  match frag, s with
  | EmptyString, _ => true
  | String _ _, EmptyString => false
  | String a frag', String b s' => bool_decide (a = b) && startsWith s' frag'
  end.

(** [s.includes(frag)]: [frag] occurs in [s] as a contiguous substring. *)
Fixpoint includes (s frag : string) : bool :=
  startsWith s frag ||
  match s with
  | EmptyString => false
  | String _ s' => includes s' frag
  end.

(** *** Numbers

    A number is [NaN], an infinity, or a finite value designated by a
    decimal numeral: [Dec neg m k] designates the binary64 value nearest to
    (-1)^neg * m * 10^(-k).  Only the tests the importers perform on numbers
    are defined: whether the value is finite and whether it is zero. *)

Inductive JsNum :=
| NaN
| Infinity (neg : bool)
| Dec (neg : bool) (mant : N) (scale : N).

Global Instance JsNum_eq_dec : EqDecision JsNum.
Proof. solve_decision. Defined.

Definition zero : JsNum := Dec false 0 0.

(** Numerals at or above 2^1024 - 2^970 round to an infinity. *)
Definition overflows (mant scale : N) : bool :=
  (2 ^ 1024 - 2 ^ 970) * 10 ^ scale <=? mant.

(** Numerals at or below 2^-1075 round to zero. *)
Definition rounds_to_zero (mant scale : N) : bool :=
  mant * 2 ^ 1075 <=? 10 ^ scale.

Definition isFinite (n : JsNum) : bool :=
  match n with
  | Dec _ m k => negb (overflows m k)
  | _ => false
  end.

Definition num_truthy (n : JsNum) : bool :=
  match n with
  | NaN => false
  | Infinity _ => true
  | Dec _ m k => negb (rounds_to_zero m k)
  end.

Fixpoint digits_to_N (acc : N) (s : string) : N :=
  match s with
  | EmptyString => acc
  | String c s' => digits_to_N (10 * acc + (code c - 48)) s'
  end.

Fixpoint split_dot (s : string) : string * option string :=
  match s with
  | EmptyString => (EmptyString, None)
  | String c s' =>
      if bool_decide (c = "."%char) then (EmptyString, Some s')
      else let '(a, b) := split_dot s' in (String c a, b)
  end.

(** [Number(s)] for a text [s] made of the characters 0-9, '.' and '-',
    the only texts the importers hand to [Number]: the empty text is 0, an
    optional '-' followed by digits with at most one '.', and at least one
    digit, is that decimal, anything else is NaN.  (The other numeric
    literal forms of JavaScript need a character outside this alphabet.) *)
Definition Number_of_numeric_text (s : string) : JsNum :=
  match s with
  | EmptyString => zero
  | String c r =>
      let neg := bool_decide (c = "-"%char) in
      let '(ip, fp) := split_dot (if neg then r else s) in
      let fp := default EmptyString fp in
      let ds := ip +:+ fp in
      if sforall is_digit ds && negb (bool_decide (ds = EmptyString)) then
        let m := digits_to_N 0 ds in
        let k := N.of_nat (String.length fp) in
        if overflows m k then Infinity neg else Dec neg m k
      else NaN
  end.

(** *** Values and objects *)

Inductive JsVal :=
| VUndef
| VNull
| VBool (b : bool)
| VNum (n : JsNum)
| VStr (s : string).

Global Instance JsVal_eq_dec : EqDecision JsVal.
Proof. solve_decision. Defined.

Global Instance JsVal_inhabited : Inhabited JsVal := populate VUndef.

Definition truthy (v : JsVal) : bool :=
  match v with
  | VUndef | VNull => false
  | VBool b => b
  | VNum n => num_truthy n
  | VStr s => negb (bool_decide (s = EmptyString))
  end.

Definition nullish (v : JsVal) : bool :=
  match v with
  | VUndef | VNull => true
  | _ => false
  end.

(** [a ?? b] and [a || b] when evaluating [b] has no effect. *)
Definition coalesce (a b : JsVal) : JsVal := if nullish a then b else a.
Definition or_else (a b : JsVal) : JsVal := if truthy a then a else b.

Abbreviation Obj := (gmap string JsVal).

(** [o[k]] *)
Definition get (o : Obj) (k : string) : JsVal := default VUndef (o !! k).

(** [{ ...a, ...b }]: the own properties of [a], then those of [b] on top. *)
Definition spread (a b : Obj) : Obj := b ∪ a.

(** A row of [sheet_to_json]: the column labels with their cells, in the
    order [Object.keys] lists them. *)
Definition RawRow : Type := list (string * JsVal).

(** The double quote character, as a text. *)
Definition dq : string := String (ascii_of_N 34) EmptyString.

(** *** Map: a dictionary that iterates in insertion order *)

Definition JsMap (V : Type) : Type := list (string * V).

Fixpoint Map_get {V} (k : string) (m : JsMap V) : option V :=
  match m with
  | [] => None
  | (k', v) :: m' => if decide (k = k') then Some v else Map_get k m'
  end.

(** [m.set(k, v)]: an existing key keeps its position, a new one goes last. *)
Fixpoint Map_set {V} (k : string) (v : V) (m : JsMap V) : JsMap V :=
  match m with
  | [] => [(k, v)]
  | (k', v') :: m' =>
      if decide (k = k') then (k, v) :: m' else (k', v') :: Map_set k v m'
  end.

(** [new Map(entries)] *)
Definition Map_new {V} (entries : list (string * V)) : JsMap V :=
  foldl (λ m e, Map_set e.1 e.2 m) [] entries.

(** [Array.from(m.values())] *)
Definition Map_values {V} (m : JsMap V) : list V := m.*2.

(** [n.toString(radix)] for a natural number [n]. *)
Definition digit_char (d : N) : ascii :=
  if d <? 10 then ascii_of_N (48 + d) else ascii_of_N (87 + d).

Fixpoint to_radix (fuel : nat) (radix n : N) (acc : string) : string :=
  match fuel with
  | O => acc
  | S fuel' =>
      let acc' := String (digit_char (n mod radix)) acc in
      if n / radix =? 0 then acc' else to_radix fuel' radix (n / radix) acc'
  end.

Definition N_toString (radix n : N) : string :=
  to_radix (S (N.to_nat (N.log2 n))) radix n EmptyString.

(** The number a text of digits denotes in a radix, read after [v]. *)
Definition digit_value (c : ascii) : N :=
  if is_digit c then code c - 48 else code c - 87.

Fixpoint radix_value (radix v : N) (s : string) : N :=
  match s with
  | EmptyString => v
  | String c s' => radix_value radix (v * radix + digit_value c) s'
  end.

(** *** The environment

    What the pages and the route obtain from outside: the replies of the
    database client, the clock, the random generator, and the renderings of
    numbers, dates and error objects as text. *)

(** [PostgrestError]: the fields the code reads. *)
Record PgError := { message : string; details : string }.

Global Instance PgError_eq_dec : EqDecision PgError.
Proof. solve_decision. Defined.

Inductive Data :=
| DNull
| DRow (o : Obj)
| DRows (rows : list Obj).

(** The reply of an awaited query: [{ data, error }]. *)
Record Response := { data : Data; error : option PgError }.

(** The queries the modelled functions build. *)
Inductive Request :=
| Insert (table : string) (rows : list Obj)
| InsertOne (table : string) (row : Obj)
| InsertOneSelectSingle (table : string) (row : Obj) (columns : string)
| Upsert (table : string) (rows : list Obj) (onConflict : string)
| Select (table columns : string) (order : option string)
| SelectEqMaybeSingle (table columns column : string) (value : JsVal)
| UpdateEq (table : string) (patch : Obj) (column : string) (value : JsVal).

Class Host := {
  Env : Type;
  (** [await supabase.from(..)...]: the client resolves with a reply, it
      reports failures in [error] rather than by rejecting. *)
  exec : Env → Request → Env * Response;
  (** [Date.now()], in milliseconds *)
  date_now : Env → Env * N;
  (** [Math.floor(Math.random() * 1e6)] *)
  random_1e6 : Env → Env * N;
  (** [String(n)] for a number *)
  number_to_string : JsNum → string;
  (** [new Date(ms).toISOString()] *)
  toISOString : N → string;
  (** [JSON.stringify(error)] *)
  stringify_error : PgError → string;
  parseInt : JsVal → JsNum;
  parseFloat : JsVal → JsNum
}.

(** [String(v)], also the conversion a template literal applies. *)
Definition show_val (show : JsNum → string) (v : JsVal) : string :=
  match v with
  | VUndef => "undefined"
  | VNull => "null"
  | VBool true => "true"
  | VBool false => "false"
  | VNum n => show n
  | VStr s => s
  end.

Definition to_string `{Host} : JsVal → string := show_val number_to_string.

(** The state a function runs in: the environment and the queries issued
    so far, each with its reply, oldest first. *)
Record World `{Host} := { env : Env; trace : list (Request * Response) }.

Definition M `{Host} (A : Type) : Type := World → World * A.

Definition ret `{Host} {A} (a : A) : M A := λ w, (w, a).

Definition bind `{Host} {A B} (m : M A) (k : A → M B) : M B :=
  λ w, let '(w', a) := m w in k a w'.

(** [await q]: one round trip; the next statement runs on the reply. *)
Definition await `{Host} (q : Request) : M Response :=
  λ w, let '(e, r) := exec (env w) q in
       ({| env := e; trace := trace w ++ [(q, r)] |}, r).

(** The queries [qs] issued one after the other, each in the environment
    the reply to the one before has left. *)
Fixpoint replay `{Host} (e : Env) (qs : list Request)
  : Env * list (Request * Response) :=
  match qs with
  | [] => (e, [])
  | q :: qs' =>
      let '(e1, r) := exec e q in
      let '(e2, tr) := replay e1 qs' in
      (e2, (q, r) :: tr)
  end.

(** [issues w w' qs]: going from [w] to [w'] exactly the queries [qs] were
    issued, in this order, none before the reply to the one before it. *)
Definition issues `{Host} (w w' : World) (qs : list Request) : Prop :=
  env w' = (replay (env w) qs).1
  ∧ trace w' = trace w ++ (replay (env w) qs).2.

Definition Date_now `{Host} : M N :=
  λ w, let '(e, t) := date_now (env w) in
       ({| env := e; trace := trace w |}, t).

Definition Math_random_1e6 `{Host} : M N :=
  λ w, let '(e, r) := random_1e6 (env w) in
       ({| env := e; trace := trace w |}, r).

End Js.

Notation "x <- m ;; k" := (Js.bind m (λ x, k))
  (at level 100, m at next level, right associativity).

(** ** settings/page.tsx: the workbook uploader *)
Module Settings.
Import Js.

Definition is_lower_alnum (c : ascii) : bool := is_lower c || is_digit c.

(** [const tolerant = (k) => k?.toLowerCase().replace(/\s+/g, '')
                                 .replace(/[^a-z0-9]/g, '')] *)
Definition tolerant (k : string) : string :=
  sfilter is_lower_alnum (sfilter (λ c, negb (is_space c)) (toLowerCase k)).

(** The key of the staging map:
    [`${e.sku}::${e.warehouseId||''}`]. *)
Definition compKey `{Host} (e : Obj) : string :=
  to_string (get e "sku") +:+ "::"
    +:+ to_string (or_else (get e "warehouseId") (VStr EmptyString)).

(** One turn of the loop over the imported items:
    [[
      const k = `${it.sku}::${it.warehouseId||''}`;
      const prev = byKey.get(k);
      if (prev) byKey.set(k, { ...prev, ...it });
      else byKey.set(k, it);
    ]] *)
Definition handleFile_mergeItem `{Host} (byKey : JsMap Obj) (it : Obj) : JsMap Obj :=
  let k := compKey it in
  match Map_get k byKey with
  | Some prev => Map_set k (spread prev it) byKey
  | None => Map_set k it byKey
  end.

(** The inventory branch of [handleFile]: [existing] is what [read] gave
    back from the browser storage, [inventory] the items mapped from the
    workbook; the result is the array handed to [write]. *)
Definition handleFile_inventory `{Host} (existing inventory : list Obj) : list Obj :=
  let byKey := Map_new ((λ e, (compKey e, e)) <$> existing) in
  Map_values (foldl handleFile_mergeItem byKey inventory).

(** The merge as the specification words it: a field that is neither
    null nor undefined in [B] is taken from [B], any other from [A]. *)
Definition merged_as_claimed (A B merged : Obj) : Prop :=
  ∀ f : string,
    (nullish (get B f) = false → get merged f = get B f)
    ∧ (nullish (get B f) = true → get merged f = get A f).

(** *** Notions used to state properties of the loop *)

(** What the loop over the imported items leaves under a key: the record
    staged under it, if any, overlaid in turn with the imported items of
    that key. *)
Definition merge_chain (prev : option Obj) (items : list Obj) : option Obj :=
  foldl (λ acc it, Some (match acc with
                         | Some p => spread p it
                         | None => it
                         end)) prev items.

(** The record of the browser storage that [new Map(...)] keeps under a
    key: the last one that has it. *)
Definition staged_under `{Host} (k : string) (existing : list Obj) : option Obj :=
  last (filter (λ e, compKey e = k) existing).

End Settings.

(** ** settings/page.tsx: the warehouses page

    The page the workbook uploader belongs to.  It keeps warehouses,
    inventory, racks and spare parts as four arrays in the storage of the
    browser and tells the other tabs about every change. *)
Module Warehouses.
Import Js Settings.

Definition KEY_WAREHOUSES : string := "wms:warehouses:v1".
Definition KEY_INVENTORY : string := "wms:inventory:v1".
Definition KEY_RACKS : string := "wms:racks:v1".
Definition KEY_SPAREPARTS : string := "wms:spareparts:v1".

Inductive Entity := EWarehouse | EInventory | ERack | ESpare.

(** [ChannelMessage]; the payload of [imported] is the four counts. *)
Inductive ChannelMessage :=
| Reload
| Imported (warehouses inventory racks spareParts : nat)
| Added (entity : Entity) (id : string)
| Deleted (entity : Entity) (id : string).

(** What the page keeps outside itself: the storage of the browser, each
    key with the array [JSON.parse] reads from its text, and the messages
    posted on the broadcast channel, oldest first.  The storage is taken to
    accept every write and to hold arrays of flat records under the four
    keys, which is all the page ever writes there. *)
Record Browser := {
  localStorage : gmap string (list Obj);
  posted : list ChannelMessage
}.

(** What [JSON.stringify] followed by [JSON.parse] leaves of a property:
    nothing of an undefined one, [null] of a number that is not finite,
    0 of the negative zero, the value itself otherwise. *)
Definition json_val (v : JsVal) : option JsVal :=
  match v with
  | VUndef => None
  | VNum n =>
      if isFinite n then
        match n with
        | Dec true m k => if rounds_to_zero m k then Some (VNum (Dec false m k))
                          else Some v
        | _ => Some v
        end
      else Some VNull
  | _ => Some v
  end.

Definition json_row (o : Obj) : Obj := omap json_val o.

(** [[
      const raw = localStorage.getItem(key);
      if (!raw) return [];
      return JSON.parse(raw) as T[];
    ]] *)
Definition read (key : string) (b : Browser) : list Obj :=
  default [] (localStorage b !! key).

(** [broadcaster?.post(m)] *)
Definition post (m : ChannelMessage) (b : Browser) : Browser :=
  {| localStorage := localStorage b; posted := posted b ++ [m] |}.

(** [[
      localStorage.setItem(key, JSON.stringify(rows));
      broadcaster?.post({ type: 'reload' });
    ]] *)
Definition write (key : string) (rows : list Obj) (b : Browser) : Browser :=
  post Reload {| localStorage := <[key := json_row <$> rows]> (localStorage b);
                 posted := posted b |}.

(** [`${prefix}-${Date.now().toString(36)}-${Math.floor(Math.random() * 1e6).toString(36)}`] *)
Definition uid `{Host} (prefix : string) : M string :=
  t <- Date_now ;;
  r <- Math_random_1e6 ;;
  ret (prefix +:+ "-" +:+ N_toString 36 t +:+ "-" +:+ N_toString 36 r).

(** [new Date().toISOString()] *)
Definition now_iso `{Host} : M JsVal :=
  t <- Date_now ;;
  ret (VStr (toISOString t)).

(** *** The rows of a workbook *)

(** [Number(v)] for a cell of any kind; the page leaves the reading of the
    cell to the language, and so does the model. *)
Class Conversions := { Number : JsVal → JsNum }.

(** [n || 0] *)
Definition or_zero (n : JsNum) : JsNum := if num_truthy n then n else zero.

(** [for (const k of Object.keys(row)) mapped[tolerant(k)] = row[k];] *)
Definition mapped_of (row : RawRow) : Obj :=
  foldl (λ mapped kv, <[tolerant kv.1 := kv.2]> mapped) ∅ row.

(** [(v || uid(prefix)).toString()]; [uid] is called only for a falsy [v]. *)
Definition text_or_uid `{Host} (v : JsVal) (prefix : string) : M string :=
  if truthy v then ret (to_string v) else uid prefix.

(** [(v || '').toString()] *)
Definition text_of `{Host} (v : JsVal) : string :=
  to_string (or_else v (VStr EmptyString)).

(** [(v || '').toString() || undefined] *)
Definition text_or_undefined `{Host} (v : JsVal) : JsVal :=
  let s := text_of v in
  if bool_decide (s = EmptyString) then VUndef else VStr s.

(** The rupee sign, as the bytes of its UTF-8 encoding. *)
Definition rupee : string :=
  String (ascii_of_N 226) (String (ascii_of_N 130)
    (String (ascii_of_N 185) EmptyString)).

Definition mapWarehouseRow `{Host} (row : RawRow) : M Obj :=
  let mapped := mapped_of row in
  id <- text_or_uid (or_else (get mapped "warehouseid") (get mapped "id")) "W" ;;
  createdAt <- now_iso ;;
  ret (<["createdAt" := createdAt]>
      (<["contact_phone" :=
           VStr (text_of (or_else (get mapped "contact_phone") (get mapped "phone")))]>
      (<["manager" := VStr (text_of (get mapped "manager"))]>
      (<["address" := VStr (text_of (get mapped "address"))]>
      (<["district" :=
           VStr (text_of (or_else (get mapped "location") (get mapped "district")))]>
      (<["name" :=
           VStr (text_of (or_else (or_else (get mapped "warehousename")
                                           (get mapped "name"))
                                  (get mapped "warehouse")))]>
      (<["id" := VStr id]> ∅))))))).

Definition mapInventoryRow `{Host} `{Conversions} (row : RawRow) : M Obj :=
  let mapped := mapped_of row in
  let qty :=
    or_zero (Number (coalesce (get mapped "stockonhand")
                       (coalesce (get mapped "qty")
                          (coalesce (get mapped "quantity") (VNum zero))))) in
  let unitPrice :=
    or_zero (Number (coalesce (get mapped "unitcost")
                       (coalesce (get mapped "rate")
                          (coalesce (get mapped "unitprice") (VNum zero))))) in
  sku <- text_or_uid (or_else (or_else (get mapped "item_id") (get mapped "itemid"))
                              (get mapped "sku")) "sku" ;;
  ret (<["unitPrice" := VNum unitPrice]>
      (<["reorderThreshold" :=
           VNum (or_zero (Number (coalesce (get mapped "reorderlevel")
                                    (coalesce (get mapped "reorder_threshold")
                                       (VNum zero)))))]>
      (<["qty" := VNum qty]>
      (<["rackId" :=
           text_or_undefined (or_else (or_else (get mapped "rackid")
                                               (get mapped "rack_id"))
                                      (get mapped "rack"))]>
      (<["warehouseId" :=
           text_or_undefined (or_else (or_else (get mapped "warehouseid")
                                               (get mapped "warehouse_id"))
                                      (get mapped "warehouse"))]>
      (<["category" := VStr (text_of (get mapped "category"))]>
      (<["name" :=
           VStr (text_of (or_else (or_else (get mapped "item_name")
                                           (get mapped "name"))
                                  (get mapped "itemname")))]>
      (<["sku" := VStr sku]> ∅)))))))).

Definition mapRackRow `{Host} `{Conversions} (row : RawRow) : M Obj :=
  let mapped := mapped_of row in
  id <- text_or_uid (or_else (or_else (get mapped "rackid") (get mapped "rack_id"))
                             (get mapped "id")) "rack" ;;
  let capacity := Number (coalesce (get mapped "capacity") (VNum zero)) in
  ret (<["capacity" := if num_truthy capacity then VNum capacity else VUndef]>
      (<["itemName" :=
           VStr (text_of (or_else (get mapped "itemname") (get mapped "item_name")))]>
      (<["name" :=
           VStr (text_of (or_else (get mapped "rackname") (get mapped "name")))]>
      (<["warehouseId" :=
           text_or_undefined (or_else (or_else (get mapped "warehouseid")
                                               (get mapped "warehouse_id"))
                                      (get mapped "warehouse"))]>
      (<["id" := VStr id]> ∅))))).

Definition mapSpareRow `{Host} `{Conversions} (row : RawRow) : M Obj :=
  let mapped := mapped_of row in
  let rate :=
    or_zero (Number (or_else (or_else (or_else (get mapped "rate")
                                               (get mapped ("rate" +:+ rupee)))
                                      (get mapped "rateinr"))
                             (VNum zero))) in
  let mrp :=
    or_zero (Number (or_else (or_else (get mapped "mrp")
                                      (get mapped ("mrp" +:+ rupee)))
                             (VNum zero))) in
  id <- text_or_uid (or_else (get mapped "spareparts_id") (get mapped "id")) "sp" ;;
  ret (<["warehouseId" :=
           text_or_undefined (or_else (get mapped "warehouseid")
                                      (get mapped "warehouse_id"))]>
      (<["mrp" := VNum mrp]>
      (<["rate" := VNum rate]>
      (<["description" := VStr (text_of (get mapped "description"))]>
      (<["name" :=
           VStr (text_of (or_else (get mapped "item_name") (get mapped "name")))]>
      (<["id" := VStr id]> ∅)))))).

(** Which of the four lists the rows of a sheet go to: by the name of the
    sheet, else by the columns of its first row; [None] when the sheet is
    skipped. *)
Inductive SheetKind := KWarehouses | KInventory | KRacks | KSpareParts.

Definition classify (sheetName : string) (json : list RawRow) : option SheetKind :=
  let key := toLowerCase (trim sheetName) in
  if includes key "warehouse" then Some KWarehouses
  else if includes key "inventory" then Some KInventory
  else if includes key "rack" then Some KRacks
  else if includes key "spare" then Some KSpareParts
  else
    let cols := tolerant <$> (default [] (head json)).*1 in
    if bool_decide ("warehouseid" ∈ cols) && bool_decide ("warehousename" ∈ cols)
    then Some KWarehouses
    else if bool_decide ("stockonhand" ∈ cols) || bool_decide ("unitcost" ∈ cols)
    then Some KInventory
    else if bool_decide ("rackid" ∈ cols) then Some KRacks
    else if bool_decide ("spareparts_id" ∈ cols) || bool_decide ("rate" ∈ cols)
    then Some KSpareParts
    else None.

(** *** Adding a warehouse *)

(** The state [form] of the modal; its fields carry the prefix [form_],
    the plain names being those of the reply and error records. *)
Record WarehouseForm := {
  form_name : string;
  form_district : string;
  form_address : string;
  form_manager : string;
  form_contact_phone : string
}.

Definition blank_form : WarehouseForm :=
  {| form_name := EmptyString; form_district := EmptyString;
     form_address := EmptyString; form_manager := EmptyString;
     form_contact_phone := EmptyString |}.

(** The state of [AddWarehouseModal]: [open], [form] and [error]. *)
Record AddWarehouseModal := {
  modal_open : bool;
  modal_form : WarehouseForm;
  modal_error : option string
}.

(** [s || undefined] *)
Definition text_if_any (s : string) : JsVal :=
  if bool_decide (s = EmptyString) then VUndef else VStr s.

(** [submit]: the record goes first in the array of warehouses. *)
Definition submit `{Host} (m : AddWarehouseModal) (b : Browser)
  : M (Browser * AddWarehouseModal) :=
  let form := modal_form m in
  if bool_decide (form_name form = EmptyString)
     || bool_decide (form_district form = EmptyString)
  then ret (b, {| modal_open := modal_open m; modal_form := form;
                  modal_error := Some "Name and district are required" |})
  else
    id <- uid "W" ;;
    createdAt <- now_iso ;;
    let newWh : Obj :=
      <["createdAt" := createdAt]>
      (<["contact_phone" := text_if_any (form_contact_phone form)]>
      (<["manager" := text_if_any (form_manager form)]>
      (<["address" := text_if_any (form_address form)]>
      (<["district" := VStr (form_district form)]>
      (<["name" := VStr (form_name form)]>
      (<["id" := VStr id]> ∅)))))) in
    let existing := read KEY_WAREHOUSES b in
    let b := write KEY_WAREHOUSES (newWh :: existing) b in
    let b := post (Added EWarehouse id) b in
    ret (b, {| modal_open := false; modal_form := blank_form;
               modal_error := None |}).

(** *** The page *)

(** The lists the page shows and the text of its search box. *)
Record Page := {
  warehouses : list Obj;
  inventory : list Obj;
  racks : list Obj;
  spareparts : list Obj;
  search : string
}.

Definition loadAll (b : Browser) (p : Page) : Page :=
  {| warehouses := read KEY_WAREHOUSES b;
     inventory := read KEY_INVENTORY b;
     racks := read KEY_RACKS b;
     spareparts := read KEY_SPAREPARTS b;
     search := search p |}.

(** [write(key, read(key).filter((r) => r[column] !== id))] *)
Definition remove_where (key column id : string) (b : Browser) : Browser :=
  write key (filter (λ r, get r column ≠ VStr id) (read key b)) b.

(** The delete helpers; [confirmed] is the answer to [confirm(...)]. *)
Definition deleteWarehouse (confirmed : bool) (id : string)
    (st : Browser * Page) : Browser * Page :=
  if confirmed then
    let b := remove_where KEY_WAREHOUSES "id" id st.1 in
    let b := remove_where KEY_INVENTORY "warehouseId" id b in
    let b := remove_where KEY_RACKS "warehouseId" id b in
    let b := remove_where KEY_SPAREPARTS "warehouseId" id b in
    let b := post (Deleted EWarehouse id) b in
    (b, loadAll b st.2)
  else st.

Definition deleteInventoryItem (confirmed : bool) (sku : string)
    (st : Browser * Page) : Browser * Page :=
  if confirmed then
    let b := remove_where KEY_INVENTORY "sku" sku st.1 in
    let b := post (Deleted EInventory sku) b in
    (b, loadAll b st.2)
  else st.

Definition deleteRack (confirmed : bool) (id : string)
    (st : Browser * Page) : Browser * Page :=
  if confirmed then
    let b := remove_where KEY_RACKS "id" id st.1 in
    let b := post (Deleted ERack id) b in
    (b, loadAll b st.2)
  else st.

Definition deleteSpare (confirmed : bool) (id : string)
    (st : Browser * Page) : Browser * Page :=
  if confirmed then
    let b := remove_where KEY_SPAREPARTS "id" id st.1 in
    let b := post (Deleted ESpare id) b in
    (b, loadAll b st.2)
  else st.

Definition clearAll (confirmed : bool) (st : Browser * Page) : Browser * Page :=
  if confirmed then
    let b := write KEY_WAREHOUSES [] st.1 in
    let b := write KEY_INVENTORY [] b in
    let b := write KEY_RACKS [] b in
    let b := write KEY_SPAREPARTS [] b in
    let b := post Reload b in
    (b, loadAll b st.2)
  else st.

(** The text of a warehouse the search box is matched against:
    [(w.name + ' ' + (w.district || '') + ' ' + (w.address || '')).toLowerCase()] *)
Definition search_text `{Host} (w : Obj) : string :=
  toLowerCase (to_string (get w "name") +:+ " "
               +:+ to_string (or_else (get w "district") (VStr EmptyString)) +:+ " "
               +:+ to_string (or_else (get w "address") (VStr EmptyString))).

Definition filtered `{Host} (p : Page) : list Obj :=
  List.filter (λ w, includes (search_text w) (toLowerCase (search p)))
    (warehouses p).

(** *** Notions used to state properties of the page *)

(** The characters of ASCII, on which the case mapping of JavaScript acts
    letter by letter. *)
Definition is_ascii (c : ascii) : bool := code c <? 128.

(** The array of each key and the property of its records that names a
    warehouse. *)
Definition warehouse_references : list (string * string) :=
  [(KEY_WAREHOUSES, "id"); (KEY_INVENTORY, "warehouseId");
   (KEY_RACKS, "warehouseId"); (KEY_SPAREPARTS, "warehouseId")].

End Warehouses.

(** ** spare-parts/page.tsx *)
Module SpareParts.
Import Js.

Definition keys (r : RawRow) : list string := r.*1.
Definition cell (r : RawRow) (h : string) : JsVal := get (list_to_map r) h.

Definition expectedHeaders_entries : list (string * list string) :=
  [("part_number", ["part_number"; "part no"; "partno"; "part no."; "sku"; "partno."]);
   ("name", ["name"; "part name"; "item_name"; "item name"]);
   ("description", ["description"; "desc"; "details"]);
   ("category", ["category"; "cat"]);
   ("compatibility", ["compatibility"; "compatible"; "fits"]);
   ("reorder_threshold",
    ["reorder_level"; "reorder_threshold"; "reorder"; "reorder level";
     "reorder_threshold"])].

Definition expectedHeaders : gmap string (list string) :=
  list_to_map expectedHeaders_entries.

(** [expectedHeaders[field] || []] *)
Definition candidates_of (field : string) : list string :=
  default [] (expectedHeaders !! field).

(** [arr.indexOf(x)]: the first index holding [x], or -1. *)
Fixpoint indexOf_from (i : Z) (arr : list string) (x : string) : Z :=
  match arr with
  | [] => (-1)%Z
  | y :: arr' => if decide (x = y) then i else indexOf_from (i + 1)%Z arr' x
  end.

Definition indexOf (arr : list string) (x : string) : Z := indexOf_from 0 arr x.

(** [field.replace(/_/g, ' ')] *)
Definition underscores_to_spaces (s : string) : string :=
  smap (λ c, if bool_decide (c = "_"%char) then " "%char else c) s.

(** [[
      for (const cand of candidates) {
        const idx = lower.indexOf(cand.toLowerCase());
        if (idx >= 0) return headers[idx];
      }
    ]]
    [None] stands for falling out of the loop. *)
Fixpoint scan_candidates (headers lower candidates : list string)
  : option (option string) :=
  match candidates with
  | [] => None
  | cand :: rest =>
      let idx := indexOf lower (toLowerCase cand) in
      if (0 <=? idx)%Z then Some (headers !! Z.to_nat idx)
      else scan_candidates headers lower rest
  end.

(** [[
      for (let i = 0; i < lower.length; i++) {
        if (lower[i].includes(frag)) return headers[i];
      }
    ]] *)
Fixpoint scan_substring (headers : list string) (frag : string)
    (i : nat) (lower_from_i : list string) : option (option string) :=
  match lower_from_i with
  | [] => None
  | l :: rest =>
      if includes l frag then Some (headers !! i)
      else scan_substring headers frag (S i) rest
  end.

(** The result is a header label, or [None] for [null].  (An index past the
    end of [headers] would read [undefined], which every caller treats as
    [null]; both loops only use indices inside the array.) *)
Definition findHeaderForField (headers : list string) (field : string)
  : option string :=
  let candidates := candidates_of field in
  let lower := (λ h, trim (toLowerCase h)) <$> headers in
  match scan_candidates headers lower candidates with
  | Some r => r
  | None =>
      if bool_decide (field ∈ headers) then Some field
      else
        match scan_substring headers (underscores_to_spaces field) 0 lower with
        | Some r => r
        | None => None
        end
  end.

(** *** A call with any field name

    [expectedHeaders] is an object literal, so [expectedHeaders[field]]
    also finds what [Object.prototype] holds under [field] when the table
    has no such key of its own: a function, or for "__proto__" the
    prototype itself.  Such a value is truthy, so it becomes [candidates],
    and [for (const cand of candidates)] throws a TypeError, since it
    cannot be iterated.  The import calls the function with the six keys
    of the table only; [findHeaderForField] above is what a call returns
    for every field that is not such a name. *)
Definition Object_prototype_names : list string :=
  ["constructor"; "hasOwnProperty"; "isPrototypeOf"; "propertyIsEnumerable";
   "toLocaleString"; "toString"; "valueOf"; "__proto__";
   "__defineGetter__"; "__defineSetter__"; "__lookupGetter__";
   "__lookupSetter__"].

(** What [expectedHeaders[field]] evaluates to: an array of the table, a
    member of the prototype, or [undefined]. *)
Inductive Looked :=
| Own (aliases : list string)
| Inherited
| Absent.

Definition expectedHeaders_at (field : string) : Looked :=
  match expectedHeaders !! field with
  | Some aliases => Own aliases
  | None =>
      if bool_decide (field ∈ Object_prototype_names) then Inherited else Absent
  end.

(** How a call ends. *)
Inductive Completion (A : Type) :=
| Returns (a : A)
| ThrowsTypeError.
Global Arguments Returns {A} a.
Global Arguments ThrowsTypeError {A}.

Definition findHeaderForField_call (headers : list string) (field : string)
  : Completion (option string) :=
  match expectedHeaders_at field with
  | Inherited => ThrowsTypeError
  | Own _ | Absent => Returns (findHeaderForField headers field)
  end.

(** *** The resolution as the specification words it

    Three steps, the first that matches wins; [norm] is the form of a
    header the aliases and the field name are compared with. *)
Fixpoint first_alias_match (norm : string → string)
    (headers aliases : list string) : option string :=
  match aliases with
  | [] => None
  | a :: rest =>
      match find (λ h, bool_decide (norm h = a)) headers with
      | Some h => Some h
      | None => first_alias_match norm headers rest
      end
  end.

Definition resolve_with (norm : string → string)
    (headers : list string) (field : string) : option string :=
  match first_alias_match norm headers (candidates_of field) with
  | Some h => Some h
  | None =>
      if bool_decide (field ∈ headers) then Some field
      else find (λ h, includes (norm h) (underscores_to_spaces field)) headers
  end.

(** As claimed: against the lower-cased header. *)
Definition resolve_as_claimed : list string → string → option string :=
  resolve_with toLowerCase.

(** As the code has it: against the lower-cased and trimmed header. *)
Definition resolve_lower_trimmed : list string → string → option string :=
  resolve_with (λ h, trim (toLowerCase h)).

(** *** Missing-column recovery *)

(** [s.replace(/[A-Z]/g, letter => `_${letter.toLowerCase()}`)] *)
Fixpoint camelToSnake (s : string) : string :=
  match s with
  | EmptyString => EmptyString
  | String c s' =>
      if is_upper c then String "_" (String (char_lower c) (camelToSnake s'))
      else String c (camelToSnake s')
  end.

(** [s.replace(/_([a-z])/g, (_, g) => g.toUpperCase())] *)
Fixpoint snakeToCamel (s : string) : string :=
  match s with
  | EmptyString => EmptyString
  | String c s' =>
      match s' with
      | String d s'' =>
          if bool_decide (c = "_"%char) && is_lower d
          then String (char_upper d) (snakeToCamel s'')
          else String c (snakeToCamel s')
      | EmptyString => String c EmptyString
      end
  end.

(** A backtracking matcher for the regular expressions of the page:
    character classes, sequence, greedy [?] and [+], one capturing group. *)
Inductive Re :=
| Eps
| Chr (p : ascii → bool)
| Seq (r1 r2 : Re)
| Opt (r : Re)
| Plus (p : ascii → bool)
| Group (r : Re).

(** The part of [s] consumed when [rest] is what remains of it. *)
Definition consumed (s rest : string) : string :=
  String.substring 0 (String.length s - String.length rest) s.

(** [rmatch r s cap k]: match [r] at the start of [s], then continue with
    [k] on the rest; a failure of [k] makes a greedy operator give back. *)
Fixpoint rmatch {R} (r : Re) (s : string) (cap : option string)
    (k : string → option string → option R) : option R :=
  match r with
  | Eps => k s cap
  | Chr p =>
      match s with
      | String c s' => if p c then k s' cap else None
      | EmptyString => None
      end
  | Seq r1 r2 => rmatch r1 s cap (λ s' cap', rmatch r2 s' cap' k)
  | Opt r1 =>
      match rmatch r1 s cap k with
      | Some x => Some x
      | None => k s cap
      end
  | Plus p =>
      (fix more (s : string) : option R :=
         match s with
         | String c s' =>
             if p c then
               match more s' with
               | Some x => Some x
               | None => k s' cap
               end
             else None
         | EmptyString => None
         end) s
  | Group r1 => rmatch r1 s cap (λ s' _, k s' (Some (consumed s s')))
  end.

(** [s.match(r)] without the [g] flag: the leftmost match; the result is
    the text of group 1. *)
Fixpoint rsearch (r : Re) (s : string) : option (option string) :=
  match rmatch r s None (λ _ cap, Some cap) with
  | Some cap => Some cap
  | None =>
      match s with
      | String _ s' => rsearch r s'
      | EmptyString => None
      end
  end.

(** A literal under the [i] flag. *)
Fixpoint lit_i (s : string) : Re :=
  match s with
  | EmptyString => Eps
  | String c s' => Seq (Chr (λ x, bool_decide (char_upper x = char_upper c))) (lit_i s')
  end.

Definition is_quote (c : ascii) : bool := code c =? 34.

(** The pattern [/column\s+Q?([^Q\s]+)Q?\s+of\s+relation/i], writing Q for
    the double quote character. *)
Definition missing_column_re : Re :=
  Seq (lit_i "column")
  (Seq (Plus is_space)
  (Seq (Opt (Chr is_quote))
  (Seq (Group (Plus (λ c, negb (is_quote c || is_space c))))
  (Seq (Opt (Chr is_quote))
  (Seq (Plus is_space)
  (Seq (lit_i "of")
  (Seq (Plus is_space)
       (lit_i "relation")))))))).

(** [missingMatch && missingMatch[1]] as an option: the column name. *)
Definition missingColumn (msg : string) : option string :=
  match rsearch missing_column_re msg with
  | Some (Some col) => if bool_decide (col = EmptyString) then None else Some col
  | _ => None
  end.

(** The copy of a row without [missingCol] and its two spellings. *)
Definition without_column (missingCol : string) (r : Obj) : Obj :=
  delete (snakeToCamel missingCol)
    (delete (camelToSnake missingCol) (delete missingCol r)).

Definition tryInsertWithMissingColumnRecovery `{Host}
    (table : string) (batch : list Obj) : M Response :=
  resp <- await (Insert table batch) ;;
  match error resp with
  | None => ret resp
  | Some err =>
      match missingColumn (message err) with
      | Some missingCol =>
          let cleaned := without_column missingCol <$> batch in
          resp2 <- await (Insert table cleaned) ;;
          ret resp2
      | None => ret resp
      end
  end.

(** What one call of the recovery routine issues for a batch. *)
Definition attempts_of (b : list Obj) (g : list Request) : Prop :=
  g = [Insert "spare_parts" b]
  ∨ ∃ col : string,
      g = [Insert "spare_parts" b;
           Insert "spare_parts" (without_column col <$> b)].

(** *** The import of the selected sheet *)

(** The state of the page the import reads and sets. *)
Record SparePartsPage := {
  categoriesCache : Obj;
  importError : option string;
  importModalOpen : bool;
  alerts : list string
}.

Definition setImportError (msg : option string) (p : SparePartsPage) : SparePartsPage :=
  {| categoriesCache := categoriesCache p; importError := msg;
     importModalOpen := importModalOpen p; alerts := alerts p |}.

Definition setCategoriesCache (c : Obj) (p : SparePartsPage) : SparePartsPage :=
  {| categoriesCache := c; importError := importError p;
     importModalOpen := importModalOpen p; alerts := alerts p |}.

Definition setImportModalOpen (b : bool) (p : SparePartsPage) : SparePartsPage :=
  {| categoriesCache := categoriesCache p; importError := importError p;
     importModalOpen := b; alerts := alerts p |}.

Definition alert (msg : string) (p : SparePartsPage) : SparePartsPage :=
  {| categoriesCache := categoriesCache p; importError := importError p;
     importModalOpen := importModalOpen p; alerts := alerts p ++ [msg] |}.

(** The cache built from the rows of [categories]; [None] when a row has
    a name that is not a string, on which [toLowerCase] throws.
    [[
      (data || []).forEach((c) => {
        if (c.name && c.id) cache[c.name.toLowerCase()] = c.id;
      });
    ]] *)
Definition cache_of_rows (rows : list Obj) : option Obj :=
  foldl (λ acc c,
           cache ← acc;
           if truthy (get c "name") && truthy (get c "id") then
             match get c "name" with
             | VStr n => Some (<[toLowerCase n := get c "id"]> cache)
             | _ => None
             end
           else Some cache)
        (Some ∅) rows.

Definition fetchCategoriesCache `{Host} (p : SparePartsPage) : M SparePartsPage :=
  resp <- await (Select "categories" "id, name" None) ;;
  match error resp with
  | Some _ => ret p
  | None =>
      let rows := match data resp with
                  | DRows rows => Some rows
                  | DNull => Some []
                  | DRow _ => None
                  end in
      match rows ≫= cache_of_rows with
      | Some cache => ret (setCategoriesCache cache p)
      | None => ret p
      end
  end.

(** Only the queries of [fetchSpareParts] are modelled, not the list of
    parts it stores for display. *)
Definition fetchSpareParts `{Host} : M unit :=
  primary <- await (Select "spare_parts" "*, category:categories(name)" (Some "name")) ;;
  match error primary with
  | None => ret tt
  | Some _ =>
      alt <- await (Select "spare_parts" "*, categories:categories(name)" (Some "name")) ;;
      ret tt
  end.

Definition mapHeader (headers : list string) (field : string) : option string :=
  let fallback :=
    let frag := toLowerCase (underscores_to_spaces field) in
    find (λ hh, includes (toLowerCase hh) frag) headers in
  match findHeaderForField headers field with
  | Some h => if bool_decide (h = EmptyString) then fallback else Some h
  | None => fallback
  end.

(** [const get = (f) => { const h = mapHeader(f); return h ? (r[h] ?? null) : null; }] *)
Definition get_field (headers : list string) (r : RawRow) (f : string) : JsVal :=
  match mapHeader headers f with
  | Some h =>
      if bool_decide (h = EmptyString) then VNull else coalesce (cell r h) VNull
  | None => VNull
  end.

(** The class [[0-9.-]]. *)
Definition numeric_char (c : ascii) : bool :=
  is_digit c || bool_decide (c = "."%char) || bool_decide (c = "-"%char).

(** [[
      const v = (get('reorder_threshold') ?? r['reorder_threshold']
                 ?? r['Reorder Level'] ?? null);
      if (v === null || v === '') return null;
      const n = Number(String(v).replace(/[^0-9.-]/g, ''));
      return Number.isFinite(n) ? n : null;
    ]] as a function of [v]. *)
Definition reorder_threshold_of `{Host} (v : JsVal) : JsVal :=
  if bool_decide (v = VNull) || bool_decide (v = VStr EmptyString) then VNull
  else
    let n := Number_of_numeric_text (sfilter numeric_char (to_string v)) in
    if isFinite n then VNum n else VNull.

(** [(get(f) ?? r[f] ?? null) || null] *)
Definition text_field (headers : list string) (r : RawRow) (f : string) : JsVal :=
  or_else (coalesce (coalesce (get_field headers r f) (cell r f)) VNull) VNull.

Definition rowObj_of `{Host} (headers : list string) (r : RawRow) : Obj :=
  <["reorder_threshold" :=
      reorder_threshold_of
        (coalesce (coalesce (coalesce (get_field headers r "reorder_threshold")
                                      (cell r "reorder_threshold"))
                            (cell r "Reorder Level")) VNull)]>
  (<["compatibility" := text_field headers r "compatibility"]>
  (<["description" := text_field headers r "description"]>
  (<["name" := text_field headers r "name"]>
  (<["part_number" := text_field headers r "part_number"]> ∅)))).

(** [String(categoryRaw).trim()], or [None] for [null]. *)
Definition categoryName_of `{Host} (headers : list string) (r : RawRow)
  : option string :=
  let categoryRaw :=
    coalesce (coalesce (coalesce (get_field headers r "category")
                                 (cell r "category"))
                       (cell r "Category")) VNull in
  if nullish categoryRaw then None else Some (trim (to_string categoryRaw)).

(** One turn of the loop over [rawRows]: the payload of the row, with its
    category looked up in the cache or created. *)
Definition prepareRow `{Host} (headers : list string) (r : RawRow)
    (cache : Obj) : M (Obj * Obj) :=
  let rowObj := rowObj_of headers r in
  match categoryName_of headers r with
  | Some categoryName =>
      if bool_decide (categoryName = EmptyString) then ret (cache, rowObj)
      else
        let key := toLowerCase categoryName in
        let catId := get cache key in
        if truthy catId then ret (cache, <["category_id" := catId]> rowObj)
        else
          created <- await (InsertOneSelectSingle "categories"
                              {["name" := VStr categoryName]} "id") ;;
          let catId :=
            match error created, data created with
            | None, DRow createdCat =>
                if truthy (get createdCat "id") then get createdCat "id" else catId
            | _, _ => catId
            end in
          if truthy catId
          then ret (<[key := catId]> cache, <["category_id" := catId]> rowObj)
          else ret (cache, rowObj)
  | None => ret (cache, rowObj)
  end.

Fixpoint prepareRows `{Host} (headers : list string) (rawRows : list RawRow)
    (cache : Obj) (toInsert : list Obj) : M (Obj * list Obj) :=
  match rawRows with
  | [] => ret (cache, toInsert)
  | r :: rest =>
      cr <- prepareRow headers r cache ;;
      prepareRows headers rest cr.1 (toInsert ++ [cr.2])
  end.

(** [arr.slice(i, i + n)] *)
Definition slice {A} (i n : nat) (arr : list A) : list A := take n (drop i arr).

Definition BATCH_SIZE : nat := 200.

(** [[
      for (let i = 0; i < toInsert.length; i += BATCH_SIZE) {
        const batch = toInsert.slice(i, i + BATCH_SIZE);
        const resp = await tryInsertWithMissingColumnRecovery('spare_parts', batch);
        if (resp.error) { ...; setImportError(...); return; }
      }
    ]]
    The result is the error that ended the loop, if any.  [turns] bounds
    the number of turns; the length of [toInsert] is enough, since [i]
    grows in every turn. *)
Fixpoint insertBatches `{Host} (turns : nat) (i : nat) (toInsert : list Obj)
  : M (option PgError) :=
  match turns with
  | O => ret None
  | S turns' =>
      if (i <? length toInsert)%nat then
        let batch := slice i BATCH_SIZE toInsert in
        resp <- tryInsertWithMissingColumnRecovery "spare_parts" batch ;;
        match error resp with
        | Some err => ret (Some err)
        | None => insertBatches turns' (i + BATCH_SIZE) toInsert
        end
      else ret None
  end.

Definition insert_failed_message `{Host} (err : PgError) : string :=
  let errMsg := if bool_decide (message err = EmptyString)
                then stringify_error err else message err in
  let errDetails := details err in
  "Supabase insert failed: " +:+ errMsg +:+ " " +:+ errDetails.

(** [doImportSelectedSheet], from the point where the selected sheet has
    been read into [rawRows]. *)
Definition doImportSelectedSheet `{Host} (rawRows : list RawRow) (p : SparePartsPage)
  : M SparePartsPage :=
  let p := setImportError None p in
  match rawRows with
  | [] => ret (setImportError (Some "Selected sheet is empty.") p)
  | first :: _ =>
      let headers := keys first in
      if bool_decide (headers = []) then
        ret (setImportError
               (Some "Could not detect headers in the selected sheet.") p)
      else
        ct <- prepareRows headers rawRows (categoriesCache p) [] ;;
        let p := setCategoriesCache ct.1 p in
        let toInsert := ct.2 in
        if bool_decide (toInsert = []) then
          ret (setImportError (Some "No valid rows prepared for insert.") p)
        else
          failed <- insertBatches (length toInsert) 0 toInsert ;;
          match failed with
          | Some err => ret (setImportError (Some (insert_failed_message err)) p)
          | None =>
              p <- fetchCategoriesCache p ;;
              _ <- fetchSpareParts ;;
              ret (alert ("Imported "
                          +:+ N_toString 10 (N.of_nat (length toInsert))
                          +:+ " rows successfully.")
                     (setImportModalOpen false p))
          end
  end.

(** *** The import from its first statement *)

(** The workbook kept in [workbookRef]: for each sheet what
    [XLSX.utils.sheet_to_json(workbook.Sheets[name], { defval: null, raw: false })]
    gives; for a name the workbook has no sheet of, the library gives the
    empty array. *)
Definition Workbook : Type := gmap string (list RawRow).

(** [doImportSelectedSheet] with the guards that come before the sheet is
    read; [selectedSheet] and [workbook] are [None] for [null].  The error
    thrown for a missing workbook ends in the [catch], which shows its
    message.  The module [xlsx] is taken to load. *)
Definition doImportSelectedSheet_entry `{Host}
    (selectedSheet : option string) (workbook : option Workbook)
    (p : SparePartsPage) : M SparePartsPage :=
  let p := setImportError None p in
  match selectedSheet with
  | None => ret (setImportError (Some "No sheet selected.") p)
  | Some name =>
      if bool_decide (name = EmptyString)
      then ret (setImportError (Some "No sheet selected.") p)
      else
        match workbook with
        | None =>
            ret (setImportError
                   (Some "Workbook not available (possibly due to hot reload). Please re-upload the file and try again.")
                   p)
        | Some wb => doImportSelectedSheet (default [] (wb !! name)) p
        end
  end.

(** *** Notions used to state properties of the page *)

(** [rows] cut into consecutive batches of [n] rows, the last one shorter
    when [n] does not divide the number of rows. *)
Fixpoint chunks_fuel {A} (fuel n : nat) (rows : list A) : list (list A) :=
  match fuel with
  | O => []
  | S fuel' =>
      match rows with
      | [] => []
      | _ => take n rows :: chunks_fuel fuel' n (drop n rows)
      end
  end.

Definition chunks {A} (n : nat) (rows : list A) : list (list A) :=
  chunks_fuel (length rows) n rows.

(** What the recovery routine leaves in the trace for the batch [b], and
    the reply it returns: one insert, whose reply is returned when it has
    no error or names no column; or that insert and, for the column its
    error names, the insert of the rows without the column, whose reply is
    returned. *)
Definition batch_trace (b : list Obj) (tr : list (Request * Response))
    (final : Response) : Prop :=
  (tr = [(Insert "spare_parts" b, final)]
   ∧ (error final = None
      ∨ ∃ e, error final = Some e ∧ missingColumn (message e) = None))
  ∨ (∃ (first : Response) (e : PgError) (col : string),
       tr = [(Insert "spare_parts" b, first);
             (Insert "spare_parts" (without_column col <$> b), final)]
       ∧ error first = Some e
       ∧ missingColumn (message e) = Some col).

(** No underscore of [s] stands directly before a lower-case letter. *)
Fixpoint no_snake_pair (s : string) : bool :=
  match s with
  | EmptyString => true
  | String c s' =>
      match s' with
      | String d _ =>
          negb (bool_decide (c = "_"%char) && is_lower d) && no_snake_pair s'
      | EmptyString => true
      end
  end.

(** The characters a column name is made of in [missing_column_re]: any
    but the double quote and white space. *)
Definition column_char (c : ascii) : bool := negb (is_quote c || is_space c).

(** [r] has no capturing group. *)
Fixpoint groupless (r : Re) : bool :=
  match r with
  | Eps | Chr _ | Plus _ => true
  | Seq r1 r2 => groupless r1 && groupless r2
  | Opt r1 => groupless r1
  | Group _ => false
  end.

(** [t] is empty or starts with a character outside the class [p]: a
    greedy [p+] cannot go on into [t]. *)
Definition stops (p : ascii → bool) (t : string) : bool :=
  match t with String c _ => negb (p c) | EmptyString => true end.

(** The fields of a prepared row that hold text. *)
Definition text_fields : list string :=
  ["part_number"; "name"; "description"; "compatibility"].

(** [o] is what the loop over [rawRows] pushes for the raw row [r]: the
    prepared row, with a category id added when one was found or created. *)
Definition payload_for `{Host} (headers : list string) (r : RawRow) (o : Obj) : Prop :=
  o = rowObj_of headers r
  ∨ ∃ id, truthy id = true ∧ o = <["category_id" := id]> (rowObj_of headers r).


(** The cache key of the category a traced query has created: the query
    inserts one category and its reply carries a truthy id. *)
Definition created_category (qr : Request * Response) : option string :=
  match qr.1, error qr.2, data qr.2 with
  | InsertOneSelectSingle table row _, None, DRow created =>
      if bool_decide (table = "categories") && truthy (get created "id") then
        match get row "name" with
        | VStr n => Some (toLowerCase n)
        | _ => None
        end
      else None
  | _, _, _ => None
  end.

End SpareParts.

(** ** inventory/page.tsx *)
Module Inventory.
Import Js.

(** [[
      const safeNum = (v) => {
        const n = Number(String(v ?? '').replace(/[^0-9.\-]/g, ''));
        return Number.isFinite(n) ? n : 0;
      };
    ]] *)
Definition safeNum `{Host} (v : JsVal) : JsNum :=
  let n := Number_of_numeric_text
             (sfilter SpareParts.numeric_char
                (to_string (coalesce v (VStr EmptyString)))) in
  if isFinite n then n else zero.

(** [`sku-${Date.now().toString(36)}-${Math.floor(Math.random() * 1e6).toString(36)}`] *)
Definition uuidLike `{Host} : M string :=
  t <- Date_now ;;
  r <- Math_random_1e6 ;;
  ret ("sku-" +:+ N_toString 36 t +:+ "-" +:+ N_toString 36 r).

(** [for (const k of Object.keys(r)) norm[k.trim().toLowerCase()] = r[k];] *)
Definition norm_of (r : RawRow) : Obj :=
  foldl (λ norm kv, <[toLowerCase (trim kv.1) := kv.2]> norm) ∅ r.

(** [a ?? b ?? c ?? ...] over a list of keys of [norm]. *)
Definition first_of (norm : Obj) (ks : list string) (last : JsVal) : JsVal :=
  foldr (λ k rest, coalesce (get norm k) rest) last ks.

(** [String(v).trim() || null] *)
Definition trimmed_or_null `{Host} (v : JsVal) : JsVal :=
  let s := trim (to_string v) in
  if bool_decide (s = EmptyString) then VNull else VStr s.

(** The body of [json.map((r) => ...)]. *)
Definition payload_of `{Host} (r : RawRow) : M Obj :=
  let norm := norm_of r in
  let id := first_of norm ["item_id"; "itemid"; "item id"] VUndef in
  sku <- (if nullish id then uuidLike else ret (to_string id)) ;;
  let name := to_string (first_of norm ["item_name"; "itemname"; "item name"; "name"]
                           (VStr EmptyString)) in
  let category := trimmed_or_null (first_of norm ["category"] (VStr EmptyString)) in
  let warehouse_id :=
    trimmed_or_null (first_of norm ["warehouse_id"; "warehouseid"; "warehouse id"; "warehouse"]
                       (VStr EmptyString)) in
  let rack_id :=
    trimmed_or_null (first_of norm ["rack_id"; "rackid"; "rack id"; "rack"]
                       (VStr EmptyString)) in
  let qty := safeNum (first_of norm ["stock_on_hand"; "stock_onhand"; "stock on hand"; "qty"]
                        (VNum zero)) in
  let reorder_threshold :=
    safeNum (first_of norm ["reorder_level"; "reorderlevel"; "reorder level"] (VNum zero)) in
  let unit_price :=
    safeNum (first_of norm ["unit_cost"; "unitcost"; "unit cost"; "unitprice"] (VNum zero)) in
  ret (<["reorder_threshold" := VNum reorder_threshold]>
      (<["unit_price" := VNum unit_price]>
      (<["qty" := VNum qty]>
      (<["rack_id" := rack_id]>
      (<["warehouse_id" := warehouse_id]>
      (<["category" := category]>
      (<["name" := VStr name]>
      (<["sku" := VStr sku]> ∅)))))))).

Fixpoint payloads_of `{Host} (json : list RawRow) : M (list Obj) :=
  match json with
  | [] => ret []
  | r :: rest =>
      o <- payload_of r ;;
      os <- payloads_of rest ;;
      ret (o :: os)
  end.

Definition batchSize : nat := 300.

(** [[
      for (let i = 0; i < payloads.length; i += batchSize) {
        const chunk = payloads.slice(i, i + batchSize);
        const { error } = await supabase.from('inventory_items')
                                 .upsert(chunk, { onConflict: 'sku,warehouse_id' });
        if (!error) upserted += chunk.length;
      }
    ]]
    The result is the final value of [upserted]. *)
Fixpoint upsertChunks `{Host} (turns : nat) (i : nat) (payloads : list Obj)
    (upserted : nat) : M nat :=
  match turns with
  | O => ret upserted
  | S turns' =>
      if (i <? length payloads)%nat then
        let chunk := SpareParts.slice i batchSize payloads in
        resp <- await (Upsert "inventory_items" chunk "sku,warehouse_id") ;;
        let upserted := match error resp with
                        | None => (upserted + length chunk)%nat
                        | Some _ => upserted
                        end in
        upsertChunks turns' (i + batchSize) payloads upserted
      else ret upserted
  end.

(** What the import sets on the page. *)
Record InventoryPage := { importMessage : option string; importError : option string }.

(** Only the query of [loadInventory] is modelled, not the list of items
    it stores for display. *)
Definition loadInventory `{Host} : M unit :=
  _ <- await (Select "inventory_items"
                "sku, name, category, warehouse_id, rack_id, qty, unit_price, reorder_threshold"
                (Some "name")) ;;
  ret tt.

(** [importSelectedSheet], from the point where the selected sheet has been
    read into [json]. *)
Definition importSelectedSheet `{Host} (selectedSheet : string)
    (json : list RawRow) : M InventoryPage :=
  match json with
  | [] => ret {| importMessage := None;
                 importError := Some "Selected sheet is empty." |}
  | _ =>
      payloads <- payloads_of json ;;
      upserted <- upsertChunks (length payloads) 0 payloads 0 ;;
      _ <- loadInventory ;;
      ret {| importMessage :=
               Some ("Imported " +:+ N_toString 10 (N.of_nat upserted)
                     +:+ " rows from " +:+ dq +:+ selectedSheet +:+ dq +:+ ".");
             importError := None |}
  end.

(** *** Adding a single item *)

(** The fields of [form], all of them texts, with the prefix [add_]. *)
Record AddForm := {
  add_sku : string;
  add_name : string;
  add_category : string;
  add_warehouse_id : string;
  add_rack_id : string;
  add_qty : string;
  add_unit_price : string;
  add_reorder_threshold : string
}.

Definition blank_add_form : AddForm :=
  {| add_sku := EmptyString; add_name := EmptyString; add_category := EmptyString;
     add_warehouse_id := EmptyString; add_rack_id := EmptyString;
     add_qty := EmptyString; add_unit_price := EmptyString;
     add_reorder_threshold := EmptyString |}.

(** What [submitAdd] reads and sets on the page. *)
Record AddItem := { adding : bool; form : AddForm; addError : option string }.

(** [s || null] *)
Definition text_or_null (s : string) : JsVal :=
  if bool_decide (s = EmptyString) then VNull else VStr s.

Definition add_payload `{Host} (f : AddForm) : Obj :=
  <["reorder_threshold" := VNum (safeNum (VStr (add_reorder_threshold f)))]>
  (<["unit_price" := VNum (safeNum (VStr (add_unit_price f)))]>
  (<["qty" := VNum (safeNum (VStr (add_qty f)))]>
  (<["rack_id" := text_or_null (add_rack_id f)]>
  (<["warehouse_id" := text_or_null (add_warehouse_id f)]>
  (<["category" := text_or_null (add_category f)]>
  (<["name" := VStr (add_name f)]>
  (<["sku" := VStr (add_sku f)]> ∅))))))).

(** [submitAdd]: a failed upsert is thrown and ends in the [catch], which
    shows its message; the inventory is reloaded after a success only. *)
Definition submitAdd `{Host} (st : AddItem) : M AddItem :=
  let f := form st in
  if bool_decide (add_sku f = EmptyString) || bool_decide (add_name f = EmptyString)
  then ret {| adding := adding st; form := f;
              addError := Some "SKU and name required" |}
  else
    resp <- await (Upsert "inventory_items" [add_payload f] "sku,warehouse_id") ;;
    match error resp with
    | Some err =>
        ret {| adding := adding st; form := f;
               addError := Some (Js.message err) |}
    | None =>
        _ <- loadInventory ;;
        ret {| adding := false; form := blank_add_form; addError := None |}
    end.

(** *** Notions used to state properties of the page *)

(** The rows the database has accepted among the upserts of a trace. *)
Definition accepted_rows (tr : list (Request * Response)) : nat :=
  sum_list_with (λ qr : Request * Response,
                   match qr.1, error qr.2 with
                   | Upsert _ rows _, None => length rows
                   | _, _ => 0%nat
                   end) tr.

(** Two sheet rows that differ only in the case of their column labels and
    in the white space around them. *)
Definition same_columns (r r' : RawRow) : Prop :=
  Forall2 (λ kv kv' : string * JsVal,
             toLowerCase (trim kv.1) = toLowerCase (trim kv'.1) ∧ kv.2 = kv'.2)
          r r'.

End Inventory.

(** ** api/upload/route.ts *)
Module Upload.
Import Js.

(** An element of [data]: an object, or [None] for a JSON [null], on which
    reading a property throws. *)
Definition Row : Type := option Obj.

(** Modelled from the spec: the declaration of [UploadRequest] in
    [@/types] is not among the sources; the route takes a scope and the
    rows to import from the body of the request. *)
Record UploadRequest := { scope : string; data : list Row }.

(** Modelled from the spec: the declaration of [UploadResponse] in
    [@/types] is not among the sources; the import result has the counts of
    inserted and updated records and an ordered list of per-row errors (row
    index, field, message), which is what the route fills in. *)
Record RowError := { row : nat; field : string; message : string }.

Record UploadResponse := {
  inserted : nat;
  updated : nat;
  errors : list RowError
}.

(** [Json500] is the reply of the outer [catch], for a request whose body
    does not parse or whose [data] is not an array. *)
Inductive HttpReply :=
| Json200 (body : UploadResponse)
| Json400 (error : string)
| Json500 (error : string).

(** How the [try] block of one row ends: at [updated++], at [inserted++],
    or in the [catch] with the message of what was thrown. *)
Inductive Outcome :=
| Updated
| Inserted
| Thrown (msg : string).

(** The message of the TypeError for [row.prop] on a [null] row. *)
Definition null_read (prop : string) : string :=
  "Cannot read properties of null (reading '" +:+ prop +:+ "')".

(** [data] of a [maybeSingle] reply, when it is truthy: the object found
    (an array, which has no [id], reads as the empty object). *)
Definition existing_of (r : Response) : option Obj :=
  match Js.data r with
  | DNull => None
  | DRow o => Some o
  | DRows _ => Some ∅
  end.

(** [if (error) throw error; counter++] *)
Definition finish (r : Response) (counted : Outcome) : Outcome :=
  match Js.error r with
  | Some err => Thrown (Js.message err)
  | None => counted
  end.

(** [new Date().toISOString()] *)
Definition now_iso `{Host} : M JsVal :=
  t <- Date_now ;;
  ret (VStr (toISOString t)).

(** [parse(x) || d] *)
Definition num_or (n : JsNum) (d : N) : JsVal :=
  if num_truthy n then VNum n else VNum (Dec false d 0).

Definition fields_of (row : Obj) (names : list string) : Obj :=
  list_to_map ((λ k, (k, get row k)) <$> names).

Definition warehouses_row `{Host} (r : Row) : M Outcome :=
  match r with
  | None => ret (Thrown (null_read "name"))
  | Some row =>
      sel <- await (SelectEqMaybeSingle "warehouses" "id" "name" (get row "name")) ;;
      match existing_of sel with
      | Some existing =>
          now <- now_iso ;;
          upd <- await (UpdateEq "warehouses"
                          (<["updated_at" := now]>
                             (fields_of row ["district"; "address"; "manager";
                                             "contact_email"; "contact_phone"]))
                          "id" (get existing "id")) ;;
          ret (finish upd Updated)
      | None =>
          ins <- await (InsertOne "warehouses"
                          (fields_of row ["name"; "district"; "address"; "manager";
                                          "contact_email"; "contact_phone"])) ;;
          ret (finish ins Inserted)
      end
  end.

Definition inventory_numbers `{Host} (row : Obj) (o : Obj) : Obj :=
  <["reorder_threshold" := num_or (parseInt (get row "reorder_threshold")) 10]>
  (<["unit_price" := num_or (parseFloat (get row "unit_price")) 0]>
  (<["qty" := num_or (parseInt (get row "qty")) 0]> o)).

Definition inventory_row `{Host} (r : Row) : M Outcome :=
  match r with
  | None => ret (Thrown (null_read "sku"))
  | Some row =>
      if negb (truthy (get row "sku")) || negb (truthy (get row "name"))
         || negb (truthy (get row "warehouse_id"))
      then ret (Thrown "Missing required fields: sku, name, warehouse_id")
      else
        sel <- await (SelectEqMaybeSingle "inventory_items" "sku" "sku" (get row "sku")) ;;
        match existing_of sel with
        | Some existing =>
            let patch := inventory_numbers row
                           (fields_of row ["name"; "category_id"; "warehouse_id"]) in
            now <- now_iso ;;
            upd <- await (UpdateEq "inventory_items" (<["updated_at" := now]> patch)
                            "sku" (get row "sku")) ;;
            ret (finish upd Updated)
        | None =>
            ins <- await (InsertOne "inventory_items"
                            (inventory_numbers row
                               (fields_of row ["sku"; "name"; "category_id";
                                               "warehouse_id"]))) ;;
            ret (finish ins Inserted)
        end
  end.

Definition transactions_row `{Host} (r : Row) : M Outcome :=
  match r with
  | None => ret (Thrown (null_read "warehouse_id"))
  | Some row =>
      if negb (truthy (get row "warehouse_id")) || negb (truthy (get row "type"))
         || negb (truthy (get row "source_destination"))
         || negb (truthy (get row "qty"))
      then ret (Thrown "Missing required fields")
      else
        date <- (if truthy (get row "date") then ret (get row "date") else now_iso) ;;
        ins <- await (InsertOne "transactions"
                        (<["notes" := get row "notes"]>
                        (<["status" := or_else (get row "status") (VStr "Pending")]>
                        (<["qty" := VNum (parseInt (get row "qty"))]>
                        (<["date" := date]>
                           (fields_of row ["warehouse_id"; "type";
                                           "source_destination"; "sku"])))))) ;;
        ret (finish ins Inserted)
  end.

Definition spare_parts_row `{Host} (r : Row) : M Outcome :=
  match r with
  | None => ret (Thrown (null_read "part_number"))
  | Some row =>
      sel <- await (SelectEqMaybeSingle "spare_parts" "id" "part_number"
                      (get row "part_number")) ;;
      let numbers o :=
        <["reorder_threshold" := num_or (parseInt (get row "reorder_threshold")) 5]> o in
      match existing_of sel with
      | Some existing =>
          let patch := numbers (fields_of row ["name"; "description"; "category_id";
                                               "compatibility"]) in
          now <- now_iso ;;
          upd <- await (UpdateEq "spare_parts" (<["updated_at" := now]> patch)
                          "id" (get existing "id")) ;;
          ret (finish upd Updated)
      | None =>
          ins <- await (InsertOne "spare_parts"
                          (numbers (fields_of row ["part_number"; "name"; "description";
                                                   "category_id"; "compatibility"]))) ;;
          ret (finish ins Inserted)
      end
  end.

Definition tasks_row `{Host} (r : Row) : M Outcome :=
  match r with
  | None => ret (Thrown (null_read "title"))
  | Some row =>
      ins <- await (InsertOne "tasks"
                      (<["priority" := or_else (get row "priority") (VStr "Medium")]>
                      (<["status" := or_else (get row "status") (VStr "Pending")]>
                         (fields_of row ["title"; "description"; "assignee";
                                         "due_date"])))) ;;
      ret (finish ins Inserted)
  end.

(** What the end of the [try] block of row [i] does to the counters. *)
Definition tally (i : nat) (o : Outcome) (acc : UploadResponse) : UploadResponse :=
  match o with
  | Updated =>
      {| inserted := inserted acc; updated := S (updated acc); errors := errors acc |}
  | Inserted =>
      {| inserted := S (inserted acc); updated := updated acc; errors := errors acc |}
  | Thrown msg =>
      {| inserted := inserted acc; updated := updated acc;
         errors := errors acc ++ [{| row := i + 1; field := "general"; message := msg |}] |}
  end.

(** [for (let i = 0; i < data.length; i++) { const row = data[i]; try ... }],
    from index [i] on. *)
Fixpoint each_row `{Host} (body : Row → M Outcome) (i : nat) (rows : list Row)
    (acc : UploadResponse) : M UploadResponse :=
  match rows with
  | [] => ret acc
  | r :: rest =>
      o <- body r ;;
      each_row body (S i) rest (tally i o acc)
  end.

(** The [switch (scope)]: the body of the loop of a recognized scope. *)
Definition row_handler `{Host} (scope : string) : option (Row → M Outcome) :=
  if bool_decide (scope = "warehouses") then Some warehouses_row
  else if bool_decide (scope = "inventory") then Some inventory_row
  else if bool_decide (scope = "transactions") then Some transactions_row
  else if bool_decide (scope = "spare_parts") then Some spare_parts_row
  else if bool_decide (scope = "tasks") then Some tasks_row
  else None.

Definition recognized_scopes : list string :=
  ["warehouses"; "inventory"; "transactions"; "spare_parts"; "tasks"].

Definition POST `{Host} (body : UploadRequest) : M HttpReply :=
  match row_handler (scope body) with
  | Some handler =>
      result <- each_row handler 0 (data body)
                  {| inserted := 0; updated := 0; errors := [] |} ;;
      ret (Json200 result)
  | None => ret (Json400 "Invalid scope")
  end.

(** *** The accounting of the rows

    The outcomes of the rows of a request, the rows handled one after the
    other, and the counters and the error list they add up to. *)
Fixpoint outcomes_of `{Host} (body : Row → M Outcome) (rows : list Row)
  : M (list Outcome) :=
  match rows with
  | [] => ret []
  | r :: rest =>
      o <- body r ;;
      os <- outcomes_of body rest ;;
      ret (o :: os)
  end.

Global Instance Outcome_eq_dec : EqDecision Outcome.
Proof. solve_decision. Defined.

Definition count_of (o : Outcome) (os : list Outcome) : nat :=
  length (filter (λ o', o' = o) os).

(** One entry for every row that ended in the [catch], with the 1-based
    index of the row; [i] is the index of the first outcome. *)
Fixpoint errors_from (i : nat) (os : list Outcome) : list RowError :=
  match os with
  | [] => []
  | Thrown msg :: rest =>
      {| row := i + 1; field := "general"; message := msg |}
        :: errors_from (S i) rest
  | _ :: rest => errors_from (S i) rest
  end.

(** *** Notions used to state properties of the route *)

(** The row a query writes, for the two kinds of write of the route. *)
Definition written_row (q : Request) : option Obj :=
  match q with
  | InsertOne _ row => Some row
  | UpdateEq _ patch _ _ => Some patch
  | _ => None
  end.

(** The property [f] of every row written in [tr] is a number other than
    0 and NaN. *)
Definition writes_truthy_number (f : string) (tr : list (Request * Response)) : Prop :=
  Forall (λ qr : Request * Response,
            ∀ o, written_row qr.1 = Some o →
                 ∃ n, get o f = VNum n ∧ num_truthy n = true) tr.

(** Every row inserted in [tr] holds a truthy value in each of the
    properties [fs]. *)
Definition inserts_hold (fs : list string) (tr : list (Request * Response)) : Prop :=
  Forall (λ qr : Request * Response,
            match qr.1 with
            | InsertOne _ row => Forall (λ f, truthy (get row f) = true) fs
            | _ => True
            end) tr.

(** The default the route gives the reorder threshold, by scope. *)
Definition threshold_defaults : list (string * N) :=
  [("inventory", 10); ("spare_parts", 5)].

(** What the query [qr] writes comes from the row [r] of the request: it
    has the name of that row, and its reorder threshold is the one
    [parseInt] reads from that row, or the default [d] when that is 0 or
    NaN. *)
Definition threshold_of_row `{Host} (d : N) (r : Row)
    (qr : Request * Response) : Prop :=
  ∀ o, written_row qr.1 = Some o →
       ∃ row, r = Some row
         ∧ get o "name" = get row "name"
         ∧ get o "reorder_threshold"
           = (let n := parseInt (get row "reorder_threshold") in
              if num_truthy n then VNum n else VNum (Dec false d 0)).

(** Every row written in [tr] comes from a row of the request with the
    same name, and its reorder threshold is the one [parseInt] reads from
    that row, or the default [d] when that is 0 or NaN. *)
Definition writes_threshold_or_default `{Host} (d : N) (rows : list Row)
    (tr : list (Request * Response)) : Prop :=
  Forall (λ qr : Request * Response,
            ∀ o, written_row qr.1 = Some o →
                 ∃ row, Some row ∈ rows
                   ∧ get o "name" = get row "name"
                   ∧ get o "reorder_threshold"
                     = (let n := parseInt (get row "reorder_threshold") in
                        if num_truthy n then VNum n else VNum (Dec false d 0))) tr.

(** The fields whose absence makes the route reject a row before it
    queries, by scope, among those it copies into the row it inserts. *)
Definition required_fields : list (string * list string) :=
  [("inventory", ["sku"; "name"; "warehouse_id"]);
   ("transactions", ["warehouse_id"; "type"; "source_destination"])].

End Upload.

(** ** A scripted environment for the scenarios

    The database answers the queries with a prepared list of replies, in
    order, and with success once the list is used up; the clock advances by
    one millisecond per reading; the random generator deals prepared
    numbers; dates and error objects are rendered in a simplified form. *)
Module Scenario.
Import Js.

Record Script := { replies : list Response; clock : N; dice : list N }.

Definition ok : Response := {| data := DNull; error := None |}.

Definition failure (msg : string) : Response :=
  {| data := DNull; error := Some {| message := msg; details := EmptyString |} |}.

Definition scripted_exec (e : Script) (q : Request) : Script * Response :=
  match replies e with
  | [] => (e, ok)
  | r :: rs => ({| replies := rs; clock := clock e; dice := dice e |}, r)
  end.

Definition scripted_now (e : Script) : Script * N :=
  ({| replies := replies e; clock := clock e + 1; dice := dice e |}, clock e).

Definition scripted_random (e : Script) : Script * N :=
  match dice e with
  | [] => (e, 0)
  | d :: ds => ({| replies := replies e; clock := clock e; dice := ds |}, d)
  end.

(** Numbers are printed in plain decimal notation, which is what JavaScript
    prints for the magnitudes the scenarios use. *)
Fixpoint strip_zeros (fuel : nat) (m k : N) : N * N :=
  match fuel with
  | O => (m, k)
  | S fuel' =>
      if (0 <? k) && (m mod 10 =? 0) then strip_zeros fuel' (m / 10) (k - 1)
      else (m, k)
  end.

Definition show_num (n : JsNum) : string :=
  match n with
  | NaN => "NaN"
  | Infinity neg => if neg then "-Infinity" else "Infinity"
  | Dec neg m k =>
      let '(m, k) := strip_zeros (N.to_nat k) m k in
      let frac := N_toString 10 (m mod 10 ^ k) in
      (if neg && negb (m =? 0) then "-" else EmptyString)
        +:+ N_toString 10 (m / 10 ^ k)
        +:+ (if k =? 0 then EmptyString
             else "." +:+ Nat.iter (N.to_nat k - String.length frac)
                                   (String "0") frac)
  end.

(** The digits at the start of a text. *)
Fixpoint leading_digits (s : string) : string :=
  match s with
  | String c s' => if is_digit c then String c (leading_digits s') else EmptyString
  | EmptyString => EmptyString
  end.

(** [parseFloat] and [parseInt] of a text in plain decimal notation: white
    space, an optional '-', digits and, for [parseFloat], a fraction; what
    follows is ignored. *)
Definition parse_decimal (fraction : bool) (s : string) : JsNum :=
  let s := trimStart s in
  let neg := match s with String "-" _ => true | _ => false end in
  let s := if neg then String.substring 1 (String.length s) s else s in
  let ip := leading_digits s in
  let rest := String.substring (String.length ip) (String.length s) s in
  let fp := match rest with
            | String "." r => if fraction then leading_digits r else EmptyString
            | _ => EmptyString
            end in
  if bool_decide (ip +:+ fp = EmptyString) then NaN
  else Number_of_numeric_text
         ((if neg then "-" else EmptyString) +:+ ip +:+ "." +:+ fp).

Global Instance scripted : Host := {|
  Env := Script;
  exec := scripted_exec;
  date_now := scripted_now;
  random_1e6 := scripted_random;
  number_to_string := show_num;
  toISOString := λ ms, "ms " +:+ N_toString 10 ms;
  stringify_error := λ e, "{message: " +:+ message e +:+ "}";
  parseInt := λ v, parse_decimal false (show_val show_num v);
  parseFloat := λ v, parse_decimal true (show_val show_num v)
|}.

(** The message PostgreSQL gives for a column the table does not have. *)
Definition rack_id_missing : string :=
  "column " +:+ dq +:+ "rack_id" +:+ dq +:+ " of relation " +:+ dq
    +:+ "spare_parts" +:+ dq +:+ " does not exist".

Definition duplicate_key : string :=
  "duplicate key value violates unique constraint".

Definition world (rs : list Response) (t : N) (ds : list N) : World :=
  {| env := {| replies := rs; clock := t; dice := ds |}; trace := [] |}.

Definition obj (fields : list (string * JsVal)) : Obj := list_to_map fields.

(** An item already in the browser storage, and the item [mapInventoryRow]
    produces for a later row with Item_ID "SKU-1", Warehouse_ID "W1",
    Stock_On_Hand 5 and the rack, category and cost cells left blank. *)
Definition staged_item : Obj :=
  obj [("sku", VStr "SKU-1"); ("name", VStr "Bolt"); ("category", VStr "Fasteners");
       ("warehouseId", VStr "W1"); ("rackId", VStr "R1");
       ("qty", VNum (Dec false 10 0)); ("reorderThreshold", VNum (Dec false 3 0));
       ("unitPrice", VNum (Dec false 250 2))].

Definition incoming_item : Obj :=
  obj [("sku", VStr "SKU-1"); ("name", VStr "Bolt"); ("category", VStr EmptyString);
       ("warehouseId", VStr "W1"); ("rackId", VUndef);
       ("qty", VNum (Dec false 5 0)); ("reorderThreshold", VNum zero);
       ("unitPrice", VNum zero)].

(** A row of an inventory sheet; 301 of them make two chunks. *)
Definition stock_row : RawRow :=
  [("Item_ID", VStr "SKU-1"); ("Item_Name", VStr "Bolt");
   ("Warehouse_ID", VStr "W1"); ("Stock_On_Hand", VStr "12 units")].

(** What a traced query was, how many rows it carried and the error
    message of its reply. *)
Definition summary (qr : Request * Response) : string * nat * option string :=
  match qr.1 with
  | Upsert t rows _ => ("upsert " +:+ t, length rows, message <$> error qr.2)
  | Insert t rows => ("insert " +:+ t, length rows, message <$> error qr.2)
  | Select t _ _ => ("select " +:+ t, 0%nat, message <$> error qr.2)
  | _ => ("other", 0%nat, message <$> error qr.2)
  end.

End Scenario.

(** * Properties *)

Section StringFacts.
Import Js.

Lemma sfilter_sforall p s : sforall p (sfilter p s) = true.
Proof.
  induction s as [|c s IH]; simpl; [done|].
  destruct (p c) eqn:E; simpl; [by rewrite E|done].
Qed.

Lemma sfilter_id p s : sforall p s = true → sfilter p s = s.
Proof.
  induction s as [|c s IH]; simpl; [done|].
  intros [Hc Hs]%andb_prop. rewrite Hc. by rewrite IH.
Qed.

Lemma smap_id f p s :
  (∀ c, p c = true → f c = c) → sforall p s = true → smap f s = s.
Proof.
  intros Hf. induction s as [|c s IH]; simpl; [done|].
  intros [Hc Hs]%andb_prop. by rewrite Hf, IH.
Qed.

Lemma sforall_impl (p q : ascii → bool) s :
  (∀ c, p c = true → q c = true) → sforall p s = true → sforall q s = true.
Proof.
  intros Hpq. induction s as [|c s IH]; simpl; [done|].
  intros [Hc Hs]%andb_prop. by rewrite Hpq, IH.
Qed.

Lemma char_lower_alnum c : Settings.is_lower_alnum c = true → char_lower c = c.
Proof. destruct c as [[] [] [] [] [] [] [] []]; vm_compute; congruence. Qed.

Lemma alnum_not_space c :
  Settings.is_lower_alnum c = true → negb (is_space c) = true.
Proof. destruct c as [[] [] [] [] [] [] [] []]; vm_compute; congruence. Qed.

End StringFacts.

Section Numerals.
Import Js.

Lemma digit_value_char (d : N) : d < 36 → digit_value (digit_char d) = d.
Proof.
  intros Hd. unfold digit_value, digit_char, is_digit, in_range, code.
  destruct (N.ltb_spec d 10) as [Hlt|Hge];
    rewrite N_ascii_embedding by lia.
  - rewrite (proj2 (N.leb_le _ _)), (proj2 (N.leb_le _ _)) by lia. simpl. lia.
  - rewrite (proj2 (N.leb_le 48 _)) by lia.
    rewrite (proj2 (N.leb_gt _ 57)) by lia. simpl. lia.
Qed.

Lemma radix_value_shift (radix v : N) (s : string) :
  radix_value radix v s
  = v * radix ^ N.of_nat (String.length s) + radix_value radix 0 s.
Proof.
  revert v. induction s as [|c s IH]; intros v.
  - simpl. lia.
  - cbn [radix_value String.length]. rewrite IH, (IH (0 * radix + _)).
    rewrite Nat2N.inj_succ, N.pow_succ_r'. lia.
Qed.

Lemma to_radix_value (radix : N) :
  1 < radix → radix ≤ 36 →
  ∀ (fuel : nat) (n : N) (acc : string),
    n < 2 ^ N.of_nat fuel →
    radix_value radix 0 (to_radix fuel radix n acc)
    = n * radix ^ N.of_nat (String.length acc) + radix_value radix 0 acc.
Proof.
  intros Hlo Hhi. induction fuel as [|fuel IH]; intros n acc Hn.
  - simpl in *. assert (n = 0) as -> by lia. lia.
  - cbn [to_radix].
    assert (Hd : n mod radix < 36)
      by (pose proof (N.mod_lt n radix); lia).
    pose proof (N.div_mod n radix ltac:(lia)) as Hdiv.
    destruct (N.eqb_spec (n / radix) 0) as [Hz|Hnz].
    + cbn [radix_value]. rewrite radix_value_shift, digit_value_char by done.
      rewrite Hz in Hdiv. lia.
    + rewrite IH.
      * cbn [radix_value String.length].
        rewrite (radix_value_shift _ (0 * radix + _)), digit_value_char by done.
        rewrite Nat2N.inj_succ, N.pow_succ_r'. nia.
      * rewrite Nat2N.inj_succ, N.pow_succ_r' in Hn.
        apply N.Div0.div_lt_upper_bound. nia.
Qed.

(** [N_toString] writes every digit of the number: reading the text back
    in the same radix gives the number. *)
Lemma N_toString_value (radix n : N) :
  1 < radix → radix ≤ 36 → radix_value radix 0 (N_toString radix n) = n.
Proof.
  intros Hlo Hhi. unfold N_toString. rewrite to_radix_value; try done.
  - simpl. lia.
  - rewrite Nat2N.inj_succ, N2Nat.id.
    destruct (N.eq_dec n 0) as [->|Hn]; [done|].
    apply N.log2_spec. lia.
Qed.

End Numerals.

Section HeaderNormalizer.
Import Js Settings.

(** C8. The header normalizer [tolerant] is idempotent, its output consists
    only of the characters a-z and 0-9, and it maps the empty header to the
    empty string. *)
Theorem tolerant_idempotent (H : string) :
  tolerant (tolerant H) = tolerant H
  ∧ sforall is_lower_alnum (tolerant H) = true
  ∧ tolerant EmptyString = EmptyString.
Proof.
  assert (Hout : sforall is_lower_alnum (tolerant H) = true)
    by apply sfilter_sforall.
  split; [|split; [exact Hout | reflexivity]].
  unfold tolerant at 1. unfold toLowerCase.
  rewrite (smap_id _ _ _ char_lower_alnum Hout).
  rewrite (sfilter_id (λ c, negb (is_space c))).
  - by apply sfilter_id.
  - by apply (sforall_impl _ _ _ alnum_not_space).
Qed.

End HeaderNormalizer.

Section StagingMerge.
Import Js Settings.
Context `{Host}.

Lemma Map_get_set_eq {V} (k : string) (v : V) (m : JsMap V) :
  Map_get k (Map_set k v m) = Some v.
Proof.
  induction m as [|[k' v'] m IH]; simpl.
  - by rewrite decide_True.
  - destruct (decide (k = k')) as [->|Hne]; simpl.
    + by rewrite decide_True.
    + by rewrite decide_False.
Qed.

Lemma Map_get_set_ne {V} (k k' : string) (v : V) (m : JsMap V) :
  k ≠ k' → Map_get k' (Map_set k v m) = Map_get k' m.
Proof.
  intros Hne. induction m as [|[k0 v0] m IH]; simpl.
  - by rewrite decide_False.
  - destruct (decide (k = k0)) as [->|Hne0]; simpl.
    + by rewrite !decide_False.
    + destruct (decide (k' = k0)); [done | exact IH].
Qed.

Lemma spread_lookup (a b : Obj) (f : string) :
  spread a b !! f = match b !! f with Some v => Some v | None => a !! f end.
Proof.
  unfold spread. rewrite lookup_union.
  destruct (b !! f), (a !! f); reflexivity.
Qed.

(** C1 (amended). When the staging map already holds a record [prev] under
    the key of the incoming item [it], the import replaces it by a record in
    which every own property of [it] -- also one holding null or undefined --
    has the value [it] gives it, and only the properties [it] does not have
    keep the value of [prev]. *)
Theorem handleFile_own_properties_win (byKey : JsMap Obj) (it prev : Obj) :
  Map_get (compKey it) byKey = Some prev →
  ∃ merged : Obj,
    Map_get (compKey it) (handleFile_mergeItem byKey it) = Some merged
    ∧ ∀ f : string,
        merged !! f = match it !! f with Some v => Some v | None => prev !! f end.
Proof.
  intros Hprev. exists (spread prev it). split.
  - unfold handleFile_mergeItem. rewrite Hprev. apply Map_get_set_eq.
  - intros f. apply spread_lookup.
Qed.

End StagingMerge.

Section StagingMergeScenario.
Import Js Settings Scenario.

Lemma handleFile_own_properties_win_witness :
  Map_get (compKey incoming_item) [(compKey staged_item, staged_item)]
    = Some staged_item
  ∧ ∃ merged : Obj,
      Map_get (compKey incoming_item)
        (handleFile_mergeItem [(compKey staged_item, staged_item)] incoming_item)
        = Some merged
      ∧ ∀ f : string,
          merged !! f = match incoming_item !! f with
                        | Some v => Some v
                        | None => staged_item !! f
                        end.
Proof.
  split; [reflexivity|].
  apply (handleFile_own_properties_win
           [(compKey staged_item, staged_item)] incoming_item staged_item).
  reflexivity.
Defined.

(** C1 as stated fails: the incoming item has the same key as the staged
    one and its [rackId] is undefined, yet the merged record does not keep
    the staged rack "R1". *)
Lemma merge_blank_field_overrides_staged :
  compKey staged_item = compKey incoming_item
  ∧ handleFile_inventory [staged_item] [incoming_item]
      = [spread staged_item incoming_item]
  ∧ nullish (get incoming_item "rackId") = true
  ∧ get staged_item "rackId" = VStr "R1"
  ∧ get (spread staged_item incoming_item) "rackId" = VUndef
  ∧ ¬ merged_as_claimed staged_item incoming_item
        (spread staged_item incoming_item).
Proof.
  repeat split; try reflexivity.
  intros Hclaim. destruct (Hclaim "rackId") as [_ Hkeep].
  specialize (Hkeep eq_refl). vm_compute in Hkeep. discriminate.
Qed.

End StagingMergeScenario.

Section FieldMapper.
Import Js Settings SpareParts.

Lemma char_lower_idem c : char_lower (char_lower c) = char_lower c.
Proof. destruct c as [[] [] [] [] [] [] [] []]; reflexivity. Qed.

Lemma is_space_char_lower c : is_space (char_lower c) = is_space c.
Proof. destruct c as [[] [] [] [] [] [] [] []]; reflexivity. Qed.

Lemma toLowerCase_idem s : toLowerCase (toLowerCase s) = toLowerCase s.
Proof.
  unfold toLowerCase. induction s as [|c s IH]; simpl; [done|].
  by rewrite char_lower_idem, IH.
Qed.

Lemma trimStart_smap f s :
  (∀ c, is_space (f c) = is_space c) →
  trimStart (smap f s) = smap f (trimStart s).
Proof.
  intros Hf. induction s as [|c s IH]; simpl; [done|].
  rewrite Hf. by destruct (is_space c).
Qed.

Lemma trimEnd_smap f s :
  (∀ c, is_space (f c) = is_space c) →
  trimEnd (smap f s) = smap f (trimEnd s).
Proof.
  intros Hf. induction s as [|c s IH]; simpl; [done|].
  rewrite IH, Hf. destruct (trimEnd s); simpl; [|done].
  by destruct (is_space c).
Qed.

Lemma trim_toLowerCase s : trim (toLowerCase s) = toLowerCase (trim s).
Proof.
  unfold trim, toLowerCase.
  rewrite trimStart_smap by apply is_space_char_lower.
  by rewrite trimEnd_smap by apply is_space_char_lower.
Qed.

Lemma sfilter_trimStart q s :
  (∀ c, is_space c = true → q c = false) →
  sfilter q (trimStart s) = sfilter q s.
Proof.
  intros Hq. induction s as [|c s IH]; simpl; [done|].
  destruct (is_space c) eqn:E; [|done].
  by rewrite (Hq c E).
Qed.

Lemma sfilter_trimEnd q s :
  (∀ c, is_space c = true → q c = false) →
  sfilter q (trimEnd s) = sfilter q s.
Proof.
  intros Hq. induction s as [|c s IH]; simpl; [done|].
  rewrite <- IH. destruct (trimEnd s) as [|d r]; simpl.
  - destruct (is_space c) eqn:E; simpl; [by rewrite (Hq c E)|done].
  - done.
Qed.

Lemma tolerant_toLowerCase s : tolerant (toLowerCase s) = tolerant s.
Proof. unfold tolerant. by rewrite toLowerCase_idem. Qed.

Lemma tolerant_trim s : tolerant (trim s) = tolerant s.
Proof.
  unfold tolerant. rewrite <- trim_toLowerCase. unfold trim. f_equal.
  rewrite sfilter_trimEnd, sfilter_trimStart; [done|..];
    by intros c ->.
Qed.

(** The form a header is compared in keeps its normalized key. *)
Lemma tolerant_lower_trimmed h : tolerant (trim (toLowerCase h)) = tolerant h.
Proof. by rewrite tolerant_trim, tolerant_toLowerCase. Qed.

(** Every alias of the table is written in lower case, without white space
    around it. *)
Lemma expectedHeaders_aliases_plain field a :
  a ∈ candidates_of field → toLowerCase a = a ∧ trim a = a.
Proof.
  unfold candidates_of.
  destruct (expectedHeaders !! field) as [cands|] eqn:E; simpl;
    [|by intros ?%elem_of_nil].
  apply elem_of_list_to_map_2 in E.
  assert (Hall : Forall (λ kv : string * list string,
                   Forall (λ a, toLowerCase a = a ∧ trim a = a) kv.2)
                   expectedHeaders_entries).
  { repeat constructor. }
  rewrite Forall_forall in Hall. specialize (Hall _ E). simpl in Hall.
  rewrite Forall_forall in Hall. apply Hall.
Qed.

Lemma indexOf_from_find (f : string → string) (headers : list string) x i :
  match find (λ h, bool_decide (f h = x)) headers with
  | Some h =>
      ∃ n : nat, indexOf_from i (f <$> headers) x = (i + Z.of_nat n)%Z
                 ∧ headers !! n = Some h
  | None => indexOf_from i (f <$> headers) x = (-1)%Z
  end.
Proof.
  revert i. induction headers as [|h hs IH]; intros i; simpl; [done|].
  destruct (decide (x = f h)) as [->|Hne].
  - rewrite bool_decide_eq_true_2 by done. exists 0%nat. split; [lia|done].
  - rewrite bool_decide_eq_false_2 by congruence.
    specialize (IH (i + 1)%Z).
    destruct (find _ hs) as [h'|]; [|done].
    destruct IH as (n & Hn & Hh). exists (S n). split; [|done].
    etrans; [exact Hn|lia].
Qed.

Lemma find_Some_elem {A} (p : A → bool) (l : list A) (x : A) :
  find p l = Some x → x ∈ l ∧ p x = true.
Proof.
  induction l as [|y l IH]; simpl; [done|].
  destruct (p y) eqn:E.
  - intros [= ->]. split; [left|done].
  - intros [Hin Hp]%IH. split; [by right|done].
Qed.

Lemma find_None_elem {A} (p : A → bool) (l : list A) (x : A) :
  find p l = None → x ∈ l → p x = false.
Proof.
  induction l as [|y l IH]; simpl; [by intros _ ?%elem_of_nil|].
  destruct (p y) eqn:E; [done|].
  intros Hnone [->|Hin]%elem_of_cons; [done|by apply IH].
Qed.

(** The loop over the candidates finds what the first matching alias
    names, when the aliases are in lower case. *)
Lemma scan_candidates_first_alias (headers cands : list string) :
  Forall (λ a, toLowerCase a = a) cands →
  scan_candidates headers ((λ h, trim (toLowerCase h)) <$> headers) cands
  = Some <$> first_alias_match (λ h, trim (toLowerCase h)) headers cands.
Proof.
  induction 1 as [|a cands Ha _ IH]; simpl; [done|].
  rewrite Ha. unfold indexOf.
  pose proof (indexOf_from_find (λ h, trim (toLowerCase h)) headers a 0) as Hidx.
  destruct (find _ headers) as [h|].
  - destruct Hidx as (n & -> & Hh).
    rewrite (proj2 (Z.leb_le _ _)) by lia.
    rewrite Z.add_0_l, Nat2Z.id. by rewrite Hh.
  - rewrite Hidx. simpl. exact IH.
Qed.

Lemma scan_substring_find (headers : list string) frag :
  ∀ (i : nat) (rest : list string),
    drop i headers = rest →
    scan_substring headers frag i ((λ h, trim (toLowerCase h)) <$> rest)
    = Some <$> find (λ h, includes (trim (toLowerCase h)) frag) rest.
Proof.
  intros i rest. revert i.
  induction rest as [|h rest IH]; intros i Hdrop; simpl; [done|].
  destruct (includes _ frag).
  - simpl. f_equal.
    assert (Hi : drop i headers !! 0%nat = Some h) by (by rewrite Hdrop).
    rewrite lookup_drop, Nat.add_0_r in Hi. exact Hi.
  - apply IH.
    replace (S i) with (i + 1)%nat by lia.
    rewrite <- drop_drop, Hdrop. done.
Qed.

Lemma findHeaderForField_resolve (headers : list string) (field : string) :
  findHeaderForField headers field = resolve_lower_trimmed headers field.
Proof.
  unfold findHeaderForField, resolve_lower_trimmed, resolve_with.
  rewrite scan_candidates_first_alias.
  - destruct (first_alias_match _ _ _); simpl; [done|].
    destruct (bool_decide (field ∈ headers)); [done|].
    rewrite (scan_substring_find headers _ 0 headers) by done.
    by destruct (find _ headers).
  - apply Forall_forall. intros a Ha.
    by apply expectedHeaders_aliases_plain in Ha as [? _].
Qed.

Lemma first_alias_match_Some norm headers cands h :
  first_alias_match norm headers cands = Some h →
  h ∈ headers ∧ ∃ c, c ∈ cands ∧ norm h = c.
Proof.
  induction cands as [|a cands IH]; simpl; [done|].
  destruct (find _ headers) as [h'|] eqn:E.
  - intros [= ->]. apply find_Some_elem in E as [Hin Hp].
    apply bool_decide_eq_true_1 in Hp.
    split; [done|]. exists a. split; [left|done].
  - intros [Hin (c & Hc & Hn)]%IH. split; [done|].
    exists c. split; [by right|done].
Qed.

Lemma first_alias_match_None norm headers cands a h :
  first_alias_match norm headers cands = None →
  a ∈ cands → h ∈ headers → norm h ≠ a.
Proof.
  induction cands as [|a' cands IH]; simpl; [by intros _ ?%elem_of_nil|].
  destruct (find _ headers) as [h'|] eqn:E; [done|].
  intros Hnone [->|Hin]%elem_of_cons Hh.
  - pose proof (find_None_elem _ _ h E Hh) as Hp.
    by apply bool_decide_eq_false_1 in Hp.
  - by apply IH.
Qed.

(** The candidate loop finds an alias that some header equals once the
    header is lower-cased and trimmed. *)
Lemma findHeaderForField_alias_matched
    (headers : list string) (field a h0 : string) :
  a ∈ candidates_of field →
  h0 ∈ headers →
  trim (toLowerCase h0) = a →
  ∃ h c : string,
    findHeaderForField headers field = Some h
    ∧ h ∈ headers
    ∧ c ∈ candidates_of field
    ∧ tolerant h = tolerant c.
Proof.
  intros Ha Hin Hmatch.
  rewrite findHeaderForField_resolve.
  unfold resolve_lower_trimmed, resolve_with.
  destruct (first_alias_match _ headers (candidates_of field)) as [h|] eqn:E.
  - apply first_alias_match_Some in E as (Hh & c & Hc & Hn).
    exists h, c. repeat split; try done.
    by rewrite <- Hn, tolerant_lower_trimmed.
  - exfalso. exact (first_alias_match_None _ _ _ a h0 E Ha Hin Hmatch).
Qed.

(** What [expectedHeaders[field]] finds. *)
Lemma expectedHeaders_at_own (field a : string) :
  a ∈ candidates_of field → ∃ aliases, expectedHeaders_at field = Own aliases.
Proof.
  unfold candidates_of, expectedHeaders_at.
  destruct (expectedHeaders !! field) as [l|]; [by exists l|].
  by intros ?%elem_of_nil.
Qed.

Lemma expectedHeaders_at_inherited (field : string) :
  expectedHeaders_at field = Inherited ↔ field ∈ Object_prototype_names.
Proof.
  unfold expectedHeaders_at.
  destruct (expectedHeaders !! field) as [l|] eqn:E.
  - split; [done|]. intros Hin. exfalso.
    unfold Object_prototype_names in Hin.
    rewrite !elem_of_cons, elem_of_nil in Hin.
    destruct Hin as [->|[->|[->|[->|[->|[->|[->|[->|[->|[->|[->|[->|[]]]]]]]]]]]]];
      vm_compute in E; discriminate.
  - case_bool_decide; split; done.
Qed.

(** C4 as stated fails: the code does not look through punctuation.  The
    header "Part-No." has the normalized form of the alias "partno" of
    part_number, so the header set contains an alias in the normalized
    sense of the claim, yet the call returns [null]: no header at all. *)
Lemma findHeaderForField_keeps_punctuation :
  "Part-No." ∈ ["Part-No."]
  ∧ "partno" ∈ candidates_of "part_number"
  ∧ tolerant "Part-No." = tolerant "partno"
  ∧ findHeaderForField_call ["Part-No."] "part_number" = Returns None
  ∧ findHeaderForField ["Part-No."] "part_number" = None.
Proof.
  split; [left|]. split; [vm_compute; repeat constructor|].
  repeat split; reflexivity.
Qed.

(** C4 (amended).  When some header of the sheet equals an alias of the
    field once it is lower-cased and trimmed of the white space around it
    (the header "SKU" or " Part No " as well as the alias written as in
    the table), the call returns a header of the sheet that, lower-cased
    and trimmed, is an alias of the field; so its normalized form
    ([tolerant]: lower case, white space and every character outside a-z,
    0-9 removed) is the normalized form of that alias. *)
Theorem findHeaderForField_alias_present
    (headers : list string) (field h0 : string) :
  h0 ∈ headers →
  trim (toLowerCase h0) ∈ candidates_of field →
  ∃ h c : string,
    findHeaderForField_call headers field = Returns (Some h)
    ∧ findHeaderForField headers field = Some h
    ∧ h ∈ headers
    ∧ c ∈ candidates_of field
    ∧ trim (toLowerCase h) = c
    ∧ tolerant h = tolerant c.
Proof.
  intros Hin Ha.
  destruct (expectedHeaders_at_own _ _ Ha) as [aliases Hown].
  unfold findHeaderForField_call. rewrite Hown.
  rewrite findHeaderForField_resolve.
  unfold resolve_lower_trimmed, resolve_with.
  destruct (first_alias_match _ headers (candidates_of field)) as [h|] eqn:E.
  - apply first_alias_match_Some in E as (Hh & c & Hc & Hn).
    exists h, c. repeat split; try done.
    by rewrite <- Hn, tolerant_lower_trimmed.
  - exfalso. exact (first_alias_match_None _ _ _ _ h0 E Ha Hin eq_refl).
Qed.

Lemma findHeaderForField_alias_present_witness :
  let headers := ["Name"; " Part No "; "SKU"] in
  " Part No " ∈ headers
  ∧ trim (toLowerCase " Part No ") ∈ candidates_of "part_number"
  ∧ findHeaderForField headers "part_number" = Some " Part No "
  ∧ ∃ h c : string,
      findHeaderForField_call headers "part_number" = Returns (Some h)
      ∧ findHeaderForField headers "part_number" = Some h
      ∧ h ∈ headers
      ∧ c ∈ candidates_of "part_number"
      ∧ trim (toLowerCase h) = c
      ∧ tolerant h = tolerant c.
Proof.
  intros headers.
  assert (H1 : " Part No " ∈ headers) by (right; left).
  assert (H2 : trim (toLowerCase " Part No ") ∈ candidates_of "part_number")
    by (vm_compute; repeat constructor).
  split; [exact H1|]. split; [exact H2|]. split; [reflexivity|].
  exact (findHeaderForField_alias_present headers "part_number" " Part No " H1 H2).
Defined.

(** C7 (amended). For every field and every list of headers, a call of
    [findHeaderForField] throws a TypeError when the field is the name of a
    member of [Object.prototype], for which [expectedHeaders[field]] is not
    an array, and otherwise returns what these three steps give, the first
    that matches winning: (1) the first header whose lower-cased and
    trimmed form equals a candidate alias, the aliases taken in order; (2)
    the field name itself when it is one of the headers as written; (3) the
    first header whose lower-cased and trimmed form contains the field name
    with underscores replaced by spaces; and [null] when no step matches. *)
Theorem findHeaderForField_steps (headers : list string) (field : string) :
  findHeaderForField_call headers field
  = if bool_decide (field ∈ Object_prototype_names) then ThrowsTypeError
    else
      Returns
        match first_alias_match (λ h, trim (toLowerCase h)) headers
                (candidates_of field) with
        | Some h => Some h
        | None =>
            if bool_decide (field ∈ headers) then Some field
            else find (λ h, includes (trim (toLowerCase h))
                              (underscores_to_spaces field)) headers
        end.
Proof.
  unfold findHeaderForField_call.
  pose proof (expectedHeaders_at_inherited field) as Hinh.
  case_bool_decide as Hp.
  - by rewrite (proj2 Hinh Hp).
  - assert (Hcall : match expectedHeaders_at field with
                    | Inherited => ThrowsTypeError
                    | _ => Returns (findHeaderForField headers field)
                    end = Returns (findHeaderForField headers field)).
    { destruct (expectedHeaders_at field); try done.
      destruct Hp. by apply Hinh. }
    rewrite Hcall. f_equal.
    rewrite findHeaderForField_resolve. unfold resolve_lower_trimmed, resolve_with.
    done.
Qed.

(** The call throws for a field such as "constructor", whatever the
    headers, and returns for the six fields of the table. *)
Example findHeaderForField_throws_on_prototype_name :
  findHeaderForField_call ["a"] "constructor" = ThrowsTypeError
  ∧ findHeaderForField_call ["a"] "__proto__" = ThrowsTypeError
  ∧ Forall (λ field, ∃ r, findHeaderForField_call ["a"] field = Returns r)
      expectedHeaders_entries.*1.
Proof.
  split; [reflexivity|]. split; [reflexivity|].
  repeat constructor; by eexists.
Qed.

(** C7 as stated fails: for a header with blanks around it the code
    matches the alias "sku" against the trimmed form, whereas no step
    matches against the merely lower-cased header. *)
Lemma findHeaderForField_trims_header :
  findHeaderForField [" SKU "] "part_number" = Some " SKU "
  ∧ resolve_as_claimed [" SKU "] "part_number" = None
  ∧ findHeaderForField [" SKU "] "part_number"
    ≠ resolve_as_claimed [" SKU "] "part_number".
Proof. repeat split; try reflexivity. discriminate. Qed.

End FieldMapper.

Section SchemaDriftRetry.
Import Js SpareParts.
Context `{Host}.

Lemma without_column_lookup (col : string) (r : Obj) (k : string) :
  without_column col r !! k
  = if bool_decide (k ∈ [col; camelToSnake col; snakeToCamel col])
    then None else r !! k.
Proof.
  unfold without_column. rewrite !lookup_delete.
  case_bool_decide as Hk; rewrite !elem_of_cons, elem_of_nil in Hk.
  - destruct Hk as [->|[->|[->|[]]]]; repeat case_decide; congruence.
  - repeat case_decide; subst; try done; exfalso; apply Hk; auto.
Qed.

(** C3 (amended). The first insert is always issued.  When its reply has
    an error whose message names a column of a relation, a copy of every row
    without that key and without its camel-case and snake-case spellings is
    inserted, once, and the reply to this second insert is what the caller
    gets: a success, or the failure of the resubmission itself.  In every
    other case nothing more is issued and the first reply is returned as it
    is.  No run issues more than these two inserts. *)
Theorem recovery_resubmits_once (table : string) (batch : list Obj) (w : World) :
  let first := exec (env w) (Insert table batch) in
  let out := tryInsertWithMissingColumnRecovery table batch w in
  match error first.2 ≫= (λ err, missingColumn (message err)) with
  | Some col =>
      let cleaned := without_column col <$> batch in
      let second := exec first.1 (Insert table cleaned) in
      out.2 = second.2
      ∧ trace out.1 = trace w ++ [(Insert table batch, first.2);
                                  (Insert table cleaned, second.2)]
      ∧ Forall2 (λ r r' : Obj, ∀ k : string,
                   r' !! k = if bool_decide
                                  (k ∈ [col; camelToSnake col; snakeToCamel col])
                             then None else r !! k)
                batch cleaned
  | None =>
      out.2 = first.2
      ∧ trace out.1 = trace w ++ [(Insert table batch, first.2)]
  end.
Proof.
  unfold tryInsertWithMissingColumnRecovery, bind, await, ret. simpl.
  destruct (exec (env w) (Insert table batch)) as [e1 r1] eqn:E1. simpl.
  destruct (error r1) as [err|]; simpl; [|done].
  destruct (missingColumn (message err)) as [col|]; simpl; [|done].
  destruct (exec e1 _) as [e2 r2] eqn:E2. simpl.
  split; [done|]. split; [by rewrite <- app_assoc|].
  apply Forall2_fmap_r, Forall_Forall2_diag, Forall_forall.
  intros r _ k. apply without_column_lookup.
Qed.

End SchemaDriftRetry.

Section SchemaDriftScenario.
Import Js SpareParts Scenario.

(** C3 as stated fails: when the resubmission fails too, the caller gets
    the failure of the resubmission, not the original one. *)
Lemma retry_failure_replaces_original :
  let w := world [failure rack_id_missing; failure duplicate_key] 0 [] in
  let batch := [obj [("part_number", VStr "P-1"); ("rack_id", VStr "R1")]] in
  let out := tryInsertWithMissingColumnRecovery "spare_parts" batch w in
  missingColumn rack_id_missing = Some "rack_id"
  ∧ error (exec (env w) (Insert "spare_parts" batch)).2
    = Some {| message := rack_id_missing; details := EmptyString |}
  ∧ error out.2 = Some {| message := duplicate_key; details := EmptyString |}
  ∧ error out.2 ≠ error (exec (env w) (Insert "spare_parts" batch)).2
  ∧ length (trace out.1) = 2%nat.
Proof. repeat split; try reflexivity. discriminate. Qed.

End SchemaDriftScenario.

Section UploadAccounting.
Import Js Upload.
Context `{Host}.

Lemma count_of_cons (o o' : Outcome) (os : list Outcome) :
  count_of o (o' :: os)
  = ((if decide (o' = o) then 1 else 0) + count_of o os)%nat.
Proof.
  unfold count_of. rewrite filter_cons. by destruct (decide (o' = o)).
Qed.

Lemma errors_from_length (i : nat) (os : list Outcome) :
  (count_of Updated os + count_of Inserted os + length (errors_from i os)
   = length os)%nat.
Proof.
  revert i. induction os as [|o os IH]; intros i; [done|].
  rewrite !count_of_cons. specialize (IH (S i)).
  destruct o; simpl; repeat case_decide; try done; simpl; lia.
Qed.

Lemma each_row_outcomes (body : Row → M Outcome) (rows : list Row) :
  ∀ (i : nat) (acc : UploadResponse) (w : World),
    let run := outcomes_of body rows w in
    each_row body i rows acc w
    = (run.1,
       {| inserted := inserted acc + count_of Inserted run.2;
          updated := updated acc + count_of Updated run.2;
          errors := errors acc ++ errors_from i run.2 |}).
Proof.
  induction rows as [|r rows IH]; intros i acc w; simpl.
  - unfold ret. simpl. rewrite !Nat.add_0_r, app_nil_r. by destruct acc.
  - unfold bind, ret. destruct (body r w) as [w1 o] eqn:Eo.
    rewrite IH.
    destruct (outcomes_of body rows w1) as [w2 os] eqn:Eos. simpl.
    rewrite !count_of_cons.
    destruct o; simpl; repeat case_decide; try done; f_equal; f_equal;
      rewrite <- ?app_assoc; simpl; try done; lia.
Qed.

Lemma outcomes_of_length (body : Row → M Outcome) (rows : list Row) (w : World) :
  length (outcomes_of body rows w).2 = length rows.
Proof.
  revert w. induction rows as [|r rows IH]; intros w; simpl; [done|].
  unfold bind, ret. destruct (body r w) as [w1 o].
  specialize (IH w1). destruct (outcomes_of body rows w1). simpl in *.
  by rewrite IH.
Qed.

Lemma row_handler_recognized (sc : string) :
  sc ∈ recognized_scopes → is_Some (row_handler sc).
Proof.
  unfold recognized_scopes. rewrite !elem_of_cons, elem_of_nil.
  intros [->|[->|[->|[->|[->|[]]]]]]; by eexists.
Qed.

(** C10. For a request with a recognized scope the route answers with the
    counters of the rows handled one after the other, every row having
    exactly one outcome: it is counted in [updated], or in [inserted], or it
    has one entry in [errors] with its 1-based index.  So the three add up
    to the number of rows, and a row that fails does not keep the rows
    after it from being handled. *)
Theorem POST_accounts_for_every_row (body : UploadRequest) (w : World) :
  scope body ∈ recognized_scopes →
  ∃ (handler : Row → M Outcome) (result : UploadResponse),
    row_handler (scope body) = Some handler
    ∧ (POST body w).2 = Json200 result
    ∧ let outcomes := (outcomes_of handler (data body) w).2 in
      length outcomes = length (data body)
      ∧ inserted result = count_of Inserted outcomes
      ∧ updated result = count_of Updated outcomes
      ∧ errors result = errors_from 0 outcomes
      ∧ (inserted result + updated result + length (errors result)
         = length (data body))%nat.
Proof.
  intros [handler Hh]%row_handler_recognized.
  unfold POST. rewrite Hh. unfold bind, ret.
  rewrite each_row_outcomes. simpl.
  eexists handler, _. split; [done|]. split; [done|]. simpl.
  pose proof (outcomes_of_length handler (data body) w) as Hlen.
  pose proof (errors_from_length 0 (outcomes_of handler (data body) w).2) as Hsum.
  repeat split; try done. lia.
Qed.

End UploadAccounting.

Section UploadScenario.
Import Js Upload Scenario.

Lemma POST_accounts_for_every_row_witness :
  let body := {| scope := "tasks";
                 data := [Some (obj [("title", VStr "Count stock")]); None;
                          Some (obj [("title", VStr "Order bolts")])] |} in
  let w := world [failure duplicate_key] 0 [] in
  scope body ∈ recognized_scopes
  ∧ ∃ (handler : Row → M Outcome) (result : UploadResponse),
      row_handler (scope body) = Some handler
      ∧ (POST body w).2 = Json200 result
      ∧ let outcomes := (outcomes_of handler (data body) w).2 in
        length outcomes = length (data body)
        ∧ inserted result = count_of Inserted outcomes
        ∧ updated result = count_of Updated outcomes
        ∧ errors result = errors_from 0 outcomes
        ∧ (inserted result + updated result + length (errors result)
           = length (data body))%nat.
Proof.
  intros body w.
  assert (Hs : scope body ∈ recognized_scopes) by (vm_compute; repeat constructor).
  split; [exact Hs|].
  exact (POST_accounts_for_every_row body w Hs).
Defined.

End UploadScenario.

Section BatchOrder.
Import Js SpareParts Inventory.
Context `{Host}.

Lemma replay_app (e : Env) (qs1 qs2 : list Request) :
  replay e (qs1 ++ qs2)
  = ((replay (replay e qs1).1 qs2).1,
     (replay e qs1).2 ++ (replay (replay e qs1).1 qs2).2).
Proof.
  revert e. induction qs1 as [|q qs1 IH]; intros e; simpl.
  - by destruct (replay e qs2).
  - destruct (exec e q) as [e1 r]. rewrite IH.
    destruct (replay e1 qs1) as [e2 tr]. simpl. done.
Qed.

Lemma issues_nil (w : World) : issues w w [].
Proof. split; simpl; [done|by rewrite app_nil_r]. Qed.

Lemma issues_trans (w w1 w2 : World) (qs1 qs2 : list Request) :
  issues w w1 qs1 → issues w1 w2 qs2 → issues w w2 (qs1 ++ qs2).
Proof.
  intros [He1 Ht1] [He2 Ht2]. unfold issues. rewrite replay_app. simpl.
  rewrite He2, Ht2, He1, Ht1, app_assoc. done.
Qed.

Lemma issues_await (q : Request) (w : World) : issues w (await q w).1 [q].
Proof.
  unfold issues, await. simpl. by destruct (exec (env w) q).
Qed.

Lemma slice_nonempty {A} (i n : nat) (l : list A) :
  (i < length l)%nat → (0 < n)%nat →
  (0 < length (slice i n l) ≤ n)%nat.
Proof.
  intros Hi Hn. unfold slice. rewrite length_take, length_drop. lia.
Qed.

Lemma slice_drop {A} (i n : nat) (l : list A) :
  slice i n l ++ drop (i + n) l = drop i l.
Proof.
  unfold slice. rewrite <- drop_drop. apply take_drop.
Qed.

Lemma upsertChunks_issues (payloads : list Obj) :
  ∀ (turns i upserted : nat) (w : World),
    (length payloads - i ≤ turns)%nat →
    ∃ bs : list (list Obj),
      concat bs = drop i payloads
      ∧ Forall (λ b, 0 < length b ≤ batchSize)%nat bs
      ∧ issues w (upsertChunks turns i payloads upserted w).1
          ((λ b, Upsert "inventory_items" b "sku,warehouse_id") <$> bs).
Proof.
  induction turns as [|turns IH]; intros i upserted w Hturns; simpl.
  - exists []. split; [|split; [constructor|apply issues_nil]].
    symmetry. apply drop_ge. lia.
  - destruct (Nat.ltb_spec i (length payloads)) as [Hi|Hi].
    + unfold bind.
      pose proof (issues_await
        (Upsert "inventory_items" (slice i batchSize payloads) "sku,warehouse_id")
        w) as Hq.
      destruct (await _ w) as [w1 resp]. simpl in Hq.
      edestruct (IH (i + batchSize)%nat) as (bs & Hcat & Hall & Hiss);
        [unfold batchSize; lia|].
      exists (slice i batchSize payloads :: bs). split; [|split].
      * simpl. rewrite Hcat. apply slice_drop.
      * constructor; [|done]. apply slice_nonempty; [done|unfold batchSize; lia].
      * apply (issues_trans _ _ _ [_] _ Hq Hiss).
    + exists []. split; [|split; [constructor|apply issues_nil]].
      symmetry. apply drop_ge. lia.
Qed.

Lemma tryInsert_issues (b : list Obj) (w : World) :
  ∃ g : list Request,
    attempts_of b g
    ∧ issues w (tryInsertWithMissingColumnRecovery "spare_parts" b w).1 g.
Proof.
  unfold tryInsertWithMissingColumnRecovery, bind.
  pose proof (issues_await (Insert "spare_parts" b) w) as Hq.
  destruct (await _ w) as [w1 resp]. simpl in Hq.
  destruct (error resp) as [err|];
    [|exists [Insert "spare_parts" b]; split; [by left|done]].
  destruct (missingColumn (message err)) as [col|];
    [|exists [Insert "spare_parts" b]; split; [by left|done]].
  pose proof (issues_await
    (Insert "spare_parts" (without_column col <$> b)) w1) as Hq2.
  destruct (await _ w1) as [w2 resp2]. simpl in Hq2.
  eexists [_; _]. split; [right; by exists col|].
  apply (issues_trans _ _ _ [_] [_] Hq Hq2).
Qed.

Lemma insertBatches_issues (toInsert : list Obj) :
  ∀ (turns i : nat) (w : World),
    (length toInsert - i ≤ turns)%nat →
    ∃ (bs : list (list Obj)) (groups : list (list Request)),
      (∃ rest, concat bs ++ rest = drop i toInsert
               ∧ match (insertBatches turns i toInsert w).2 with
                 | None => rest = []
                 | Some _ => True
                 end)
      ∧ Forall (λ b, 0 < length b ≤ BATCH_SIZE)%nat bs
      ∧ Forall2 attempts_of bs groups
      ∧ issues w (insertBatches turns i toInsert w).1 (concat groups).
Proof.
  induction turns as [|turns IH]; intros i w Hturns; simpl.
  - exists [], []. split; [|split; [constructor|split; [constructor|apply issues_nil]]].
    exists []. split; [|done]. symmetry. apply drop_ge. lia.
  - destruct (Nat.ltb_spec i (length toInsert)) as [Hi|Hi].
    + unfold bind.
      destruct (tryInsert_issues (slice i BATCH_SIZE toInsert) w) as (g & Hg & Hq).
      destruct (tryInsertWithMissingColumnRecovery _ _ w) as [w1 resp].
      simpl in Hq.
      assert (Hb : (0 < length (slice i BATCH_SIZE toInsert) ≤ BATCH_SIZE)%nat)
        by (apply slice_nonempty; [done|unfold BATCH_SIZE; lia]).
      destruct (error resp) as [err|].
      * exists [slice i BATCH_SIZE toInsert], [g]. simpl.
        split; [|split; [constructor; [exact Hb|constructor]
                        |split; [constructor; [exact Hg|constructor]|]]].
        -- exists (drop (i + BATCH_SIZE) toInsert). split; [|done].
           rewrite app_nil_r. apply slice_drop.
        -- by rewrite app_nil_r.
      * edestruct (IH (i + BATCH_SIZE)%nat w1)
          as (bs & groups & (rest & Hcat & Hend) & Hall & Hatt & Hiss);
          [unfold BATCH_SIZE; lia|].
        exists (slice i BATCH_SIZE toInsert :: bs), (g :: groups).
        split; [|split; [by constructor|split; [by constructor|]]].
        -- exists rest. split; [|done]. simpl.
           rewrite <- app_assoc, Hcat. apply slice_drop.
        -- simpl. apply (issues_trans _ _ _ _ _ Hq Hiss).
    + exists [], []. split; [|split; [constructor|split; [constructor|apply issues_nil]]].
      exists []. split; [|done]. symmetry. apply drop_ge. lia.
Qed.

Lemma tryInsert_last_reply (b : list Obj) (w : World) :
  let out := tryInsertWithMissingColumnRecovery "spare_parts" b w in
  ∃ q : Request, last (trace out.1) = Some (q, out.2).
Proof.
  unfold tryInsertWithMissingColumnRecovery, bind, await, ret. simpl.
  destruct (exec (env w) _) as [e1 r1]. simpl.
  destruct (error r1) as [err|]; simpl;
    [|eexists; by rewrite last_snoc].
  destruct (missingColumn (message err)) as [col|]; simpl;
    [|eexists; by rewrite last_snoc].
  destruct (exec e1 _) as [e2 r2]. simpl.
  eexists. by rewrite last_snoc.
Qed.

(** The spare-parts loop returns at the first batch whose reply, after the
    recovery, still has an error: that reply is the last thing in the trace. *)
Lemma insertBatches_stops_at_failure (toInsert : list Obj) :
  ∀ (turns i : nat) (w : World) (err : PgError),
    (insertBatches turns i toInsert w).2 = Some err →
    ∃ (q : Request) (r : Response),
      last (trace (insertBatches turns i toInsert w).1) = Some (q, r)
      ∧ error r = Some err.
Proof.
  induction turns as [|turns IH]; intros i w err; simpl; [done|].
  destruct (i <? length toInsert)%nat; [|done].
  unfold bind.
  destruct (tryInsert_last_reply (slice i BATCH_SIZE toInsert) w) as [q Hq].
  destruct (tryInsertWithMissingColumnRecovery _ _ w) as [w1 resp].
  simpl in Hq.
  destruct (error resp) as [err'|] eqn:E.
  - simpl. intros [= <-]. by exists q, resp.
  - apply IH.
Qed.

Lemma chunks_fuel_lookup {A} (n : nat) :
  (0 < n)%nat →
  ∀ (fuel : nat) (l : list A) (j : nat) (b : list A),
    (length l ≤ fuel)%nat →
    chunks_fuel fuel n l !! j = Some b
    ↔ (j * n < length l)%nat ∧ b = slice (j * n) n l.
Proof.
  intros Hn. induction fuel as [|fuel IH]; intros l j b Hlen.
  - destruct l; [|simpl in Hlen; lia]. simpl. split; [done|]. intros [? _]. lia.
  - destruct l as [|x l]; [simpl; split; [done|intros [? _]; lia]|].
    cbn [chunks_fuel]. destruct j as [|j].
    + simpl. split.
      * intros [= <-]. split; [lia|done].
      * intros [_ ->]. done.
    + cbn [lookup list_lookup]. rewrite IH.
      2:{ rewrite length_drop. simpl in *. lia. }
      rewrite length_drop. unfold slice. rewrite drop_drop.
      replace (n + j * n)%nat with (S j * n)%nat by (simpl; lia).
      split; intros [Hj ->]; (split; [simpl in *; lia|done]).
Qed.

Lemma chunks_fuel_drop {A} (fuel i n : nat) (l : list A) :
  (i < length l)%nat →
  chunks_fuel (S fuel) n (drop i l)
  = slice i n l :: chunks_fuel fuel n (drop (i + n) l).
Proof.
  intros Hi. cbn [chunks_fuel].
  destruct (drop i l) as [|x l'] eqn:E.
  - apply (f_equal length) in E. rewrite length_drop in E. simpl in E. lia.
  - rewrite <- E. unfold slice. by rewrite drop_drop.
Qed.

Lemma chunks_fuel_nil {A} (fuel n : nat) : @chunks_fuel A fuel n [] = [].
Proof. by destruct fuel. Qed.

Lemma upsertChunks_trace (payloads : list Obj) :
  ∀ (turns i upserted : nat) (w : World),
    (length payloads - i ≤ turns)%nat →
    let batches := chunks_fuel turns batchSize (drop i payloads) in
    let out := upsertChunks turns i payloads upserted w in
    ∃ replies : list Response,
      length replies = length batches
      ∧ trace out.1
        = trace w ++ zip ((λ b, Upsert "inventory_items" b "sku,warehouse_id")
                            <$> batches) replies
      ∧ issues w out.1
          ((λ b, Upsert "inventory_items" b "sku,warehouse_id") <$> batches).
Proof.
  induction turns as [|turns IH]; intros i upserted w Hturns; cbv zeta.
  - exists []. simpl. rewrite app_nil_r. split; [done|]. split; [done|].
    apply issues_nil.
  - cbn [upsertChunks]. destruct (Nat.ltb_spec i (length payloads)) as [Hi|Hi].
    + rewrite chunks_fuel_drop by done. unfold bind.
      pose proof (issues_await
        (Upsert "inventory_items" (slice i batchSize payloads) "sku,warehouse_id")
        w) as Hq.
      unfold await in *.
      destruct (exec (env w) _) as [e1 resp]. simpl in Hq.
      match goal with
      | |- context [upsertChunks turns (i + batchSize) payloads ?u ?w1] =>
          destruct (IH (i + batchSize)%nat u w1) as (replies & Hlen & Htr & Hiss);
            [unfold batchSize; lia|]
      end.
      exists (resp :: replies). split; [simpl; by rewrite Hlen|]. split.
      * rewrite Htr. simpl. by rewrite <- app_assoc.
      * rewrite fmap_cons. apply (issues_trans _ _ _ [_] _ Hq Hiss).
    + rewrite drop_ge by lia. rewrite chunks_fuel_nil.
      exists []. simpl. rewrite app_nil_r. split; [done|]. split; [done|].
      apply issues_nil.
Qed.

Lemma tryInsert_run (b : list Obj) (w : World) :
  let out := tryInsertWithMissingColumnRecovery "spare_parts" b w in
  ∃ tr, batch_trace b tr out.2
        ∧ trace out.1 = trace w ++ tr
        ∧ issues w out.1 tr.*1.
Proof.
  cbv zeta. unfold tryInsertWithMissingColumnRecovery, bind.
  pose proof (issues_await (Insert "spare_parts" b) w) as Hq.
  unfold await in *.
  destruct (exec (env w) _) as [e1 resp]. simpl in Hq.
  destruct (error resp) as [err|] eqn:Herr.
  2:{ exists [(Insert "spare_parts" b, resp)]. simpl.
      split; [left; split; [done|by left]|done]. }
  destruct (missingColumn (message err)) as [col|] eqn:Hcol.
  2:{ exists [(Insert "spare_parts" b, resp)]. simpl.
      split; [left; split; [done|right; by exists err]|done]. }
  pose proof (issues_await
    (Insert "spare_parts" (without_column col <$> b))
    {| env := e1; trace := trace w ++ [(Insert "spare_parts" b, resp)] |}) as Hq2.
  unfold await in *. simpl in Hq2 |- *.
  destruct (exec e1 (Insert "spare_parts" (without_column col <$> b)))
    as [e2 resp2]. simpl in *.
  exists [(Insert "spare_parts" b, resp);
          (Insert "spare_parts" (without_column col <$> b), resp2)].
  split; [right; by exists resp, err, col|].
  split; [by rewrite <- app_assoc|].
  apply (issues_trans _ _ _ [_] [_] Hq Hq2).
Qed.

Lemma insertBatches_runs (toInsert : list Obj) :
  ∀ (turns i : nat) (w : World),
    (length toInsert - i ≤ turns)%nat →
    let batches := chunks_fuel turns BATCH_SIZE (drop i toInsert) in
    let out := insertBatches turns i toInsert w in
    ∃ runs : list (list (Request * Response) * Response),
      Forall2 (λ b run, batch_trace b run.1 run.2)
        (take (length runs) batches) runs
      ∧ (length runs ≤ length batches)%nat
      ∧ trace out.1 = trace w ++ concat runs.*1
      ∧ issues w out.1 (concat runs.*1).*1
      ∧ match out.2 with
        | None =>
            length runs = length batches
            ∧ Forall (λ run, error run.2 = None) runs
        | Some err =>
            ∃ runs0 run,
              runs = runs0 ++ [run]
              ∧ Forall (λ run, error run.2 = None) runs0
              ∧ error run.2 = Some err
        end.
Proof.
  induction turns as [|turns IH]; intros i w Hturns; cbv zeta.
  - exists []. simpl. rewrite app_nil_r.
    split; [constructor|]. split; [done|]. split; [done|].
    split; [apply issues_nil|]. split; [done|constructor].
  - cbn [insertBatches]. destruct (Nat.ltb_spec i (length toInsert)) as [Hi|Hi].
    + rewrite chunks_fuel_drop by done. unfold bind.
      destruct (tryInsert_run (slice i BATCH_SIZE toInsert) w)
        as (tr & Hbt & Htr & Hiss).
      destruct (tryInsertWithMissingColumnRecovery _ _ w) as [w1 resp].
      simpl in Hbt, Htr, Hiss.
      destruct (error resp) as [err|] eqn:Herr.
      * exists [(tr, resp)]. cbn [length]. rewrite firstn_cons, take_0.
        simpl. rewrite app_nil_r.
        split; [constructor; [exact Hbt|constructor]|].
        split; [lia|]. split; [done|].
        split; [done|]. exists [], (tr, resp). split; [done|].
        split; [constructor|done].
      * destruct (IH (i + BATCH_SIZE)%nat w1)
          as (runs & Hruns & Hlen & Htr2 & Hiss2 & Hend);
          [unfold BATCH_SIZE; lia|].
        exists ((tr, resp) :: runs). cbn [length]. rewrite firstn_cons. simpl.
        split; [by constructor|]. split; [lia|].
        split; [by rewrite Htr2, Htr, app_assoc|].
        split; [rewrite fmap_app; apply (issues_trans _ _ _ _ _ Hiss Hiss2)|].
        destruct (insertBatches _ _ _ w1) as [w2 [err|]]; simpl in *.
        -- destruct Hend as (runs0 & run & -> & Hok & Herr').
           exists ((tr, resp) :: runs0), run. split; [done|].
           split; [by constructor|done].
        -- destruct Hend as [-> Hok]. split; [done|by constructor].
    + rewrite drop_ge by lia. rewrite chunks_fuel_nil.
      exists []. simpl. rewrite app_nil_r.
      split; [constructor|]. split; [done|]. split; [done|].
      split; [apply issues_nil|]. split; [done|constructor].
Qed.

(** C6. The batch loops of the two importers submit the rows in input
    order, batch after batch, and never two at a time.  The batches are
    the consecutive slices of the rows: batch j holds the rows from j*K on,
    K of them or, for the last batch, those that remain.  Inventory (K =
    300): the trace grows by exactly one upsert per batch, in order, each
    followed by its reply, whatever the replies are; each upsert is issued
    in the environment the reply to the one before has left.  Spare parts
    (K = 200): the trace grows by the runs of an initial part of the
    batches, in order; the run of a batch is one insert with its reply,
    or, for the recovery, that insert and the insert of the rows without
    the column its error names; each query is issued after the reply to
    the one before.  When the loop ends without error every batch has had
    its run and every run ended without error; when it ends with an error,
    that error is the one of the reply that ends the last run, every run
    before it ended without error, and no later batch is submitted. *)
Theorem batches_submitted_in_input_order (rows : list Obj) (w : World) :
  (∀ (K j : nat) (b : list Obj),
     (0 < K)%nat →
     chunks K rows !! j = Some b
     ↔ (j * K < length rows)%nat ∧ b = slice (j * K) K rows)
  ∧ (let batches := chunks batchSize rows in
     let out := upsertChunks (length rows) 0 rows 0 w in
     ∃ replies : list Response,
       length replies = length batches
       ∧ trace out.1
         = trace w ++ zip ((λ b, Upsert "inventory_items" b "sku,warehouse_id")
                             <$> batches) replies
       ∧ issues w out.1
           ((λ b, Upsert "inventory_items" b "sku,warehouse_id") <$> batches))
  ∧ (let batches := chunks BATCH_SIZE rows in
     let out := insertBatches (length rows) 0 rows w in
     ∃ runs : list (list (Request * Response) * Response),
       Forall2 (λ b run, batch_trace b run.1 run.2)
         (take (length runs) batches) runs
       ∧ (length runs ≤ length batches)%nat
       ∧ trace out.1 = trace w ++ concat runs.*1
       ∧ issues w out.1 (concat runs.*1).*1
       ∧ match out.2 with
         | None =>
             length runs = length batches
             ∧ Forall (λ run, error run.2 = None) runs
         | Some err =>
             ∃ runs0 run,
               runs = runs0 ++ [run]
               ∧ Forall (λ run, error run.2 = None) runs0
               ∧ error run.2 = Some err
         end).
Proof.
  split; [|split].
  - intros K j b HK. by apply chunks_fuel_lookup.
  - apply (upsertChunks_trace rows (length rows) 0 0 w). lia.
  - apply (insertBatches_runs rows (length rows) 0 w). lia.
Qed.


End BatchOrder.

Section NumericCoercion.
Import Js SpareParts Inventory.
Context `{Host}.

Lemma sfilter_none (p : ascii → bool) (s : string) :
  sforall (λ c, negb (p c)) s = true → sfilter p s = EmptyString.
Proof.
  induction s as [|c s IH]; simpl; [done|].
  intros [Hc Hs]%andb_prop. apply negb_true_iff in Hc. rewrite Hc. auto.
Qed.

(** The inventory importer: a cell whose text has no digit, '.' or '-'
    is coerced to 0; [safeNum] is a total function. *)
Lemma safeNum_no_numeric_character (v : JsVal) :
  sforall (λ c, negb (numeric_char c))
    (to_string (coalesce v (VStr EmptyString))) = true →
  safeNum v = zero.
Proof.
  intros Hv. unfold safeNum. by rewrite (sfilter_none _ _ Hv).
Qed.

(** The spare-parts importer: a cell that is not empty and whose text has
    no digit, '.' or '-' is coerced to 0 as well. *)
Lemma reorder_threshold_of_no_numeric_character (v : JsVal) :
  v ≠ VNull → v ≠ VStr EmptyString →
  sforall (λ c, negb (numeric_char c)) (to_string v) = true →
  reorder_threshold_of v = VNum zero.
Proof.
  intros Hnull Hempty Hv. unfold reorder_threshold_of.
  rewrite !bool_decide_eq_false_2 by done. simpl.
  by rewrite (sfilter_none _ _ Hv).
Qed.

(** C5, the case the code misses.  The text "x" has no digit, '.' or '-'.
    The inventory importer coerces it to its default 0, but the spare-parts
    importer, whose default for the reorder threshold is [null], coerces it
    to 0 too: only the empty cell and the texts that do not parse give
    [null] there. *)
Theorem reorder_threshold_of_letters_is_zero :
  sforall (λ c, negb (numeric_char c)) "x" = true
  ∧ safeNum (VStr "x") = zero
  ∧ reorder_threshold_of (VStr "x") = VNum zero
  ∧ reorder_threshold_of (VStr EmptyString) = VNull
  ∧ reorder_threshold_of (VStr "-") = VNull.
Proof. repeat split; reflexivity. Qed.

End NumericCoercion.

Section BatchFailure.
Import Js SpareParts Inventory Scenario.

(** The inventory import never sets its error, whatever the database
    replies to the upserts. *)
Lemma importSelectedSheet_reports_no_write_error `{Host}
    (selectedSheet : string) (json : list RawRow) (w : World) :
  json ≠ [] →
  Inventory.importError (importSelectedSheet selectedSheet json w).2 = None.
Proof.
  intros Hjson. unfold importSelectedSheet.
  destruct json as [|r json]; [done|].
  unfold bind, ret.
  destruct (payloads_of (r :: json) w) as [w1 payloads].
  destruct (upsertChunks _ _ _ _ w1) as [w2 upserted].
  by destruct (loadInventory w2).
Qed.

(** C2, the importer that breaks it.  The database rejects the first chunk
    of an inventory import of 301 rows.  The import goes on: it upserts the
    second chunk, reports no error and announces one imported row. *)
Theorem inventory_import_goes_on_after_failed_chunk :
  let w := world [failure duplicate_key] 0 [] in
  let out := importSelectedSheet "Stock" (replicate 301 stock_row) w in
  summary <$> trace out.1
  = [("upsert inventory_items", 300%nat, Some duplicate_key);
     ("upsert inventory_items", 1%nat, None);
     ("select inventory_items", 0%nat, None)]
  ∧ out.2 = {| importMessage :=
                 Some ("Imported 1 rows from " +:+ dq +:+ "Stock" +:+ dq +:+ ".");
               importError := None |}.
Proof. vm_compute. split; reflexivity. Qed.

(** The spare-parts importer on the same failure: it stops at the failed
    batch and shows the error. *)
Example spare_parts_import_halts_at_failed_batch :
  let w := world [failure duplicate_key] 0 [] in
  let p := {| categoriesCache := ∅; SpareParts.importError := None;
              importModalOpen := true; alerts := [] |} in
  let out := doImportSelectedSheet
               (replicate 201 [("part_number", VStr "P-1"); ("name", VStr "Bolt")])
               p w in
  summary <$> trace out.1
  = [("insert spare_parts", 200%nat, Some duplicate_key)]
  ∧ SpareParts.importError out.2
    = Some ("Supabase insert failed: " +:+ duplicate_key +:+ " ")
  ∧ alerts out.2 = [].
Proof. vm_compute. repeat split; reflexivity. Qed.

End BatchFailure.

Section IdentifierFallback.
Import Js Inventory Upload.
Context `{Host}.

Lemma payloads_of_length (json : list RawRow) (w : World) :
  length (payloads_of json w).2 = length json.
Proof.
  revert w. induction json as [|r json IH]; intros w; simpl; [done|].
  unfold bind, ret. destruct (payload_of r w) as [w1 o].
  specialize (IH w1). destruct (payloads_of json w1). simpl in *.
  by rewrite IH.
Qed.

(** C9 (amended).  The inventory page gives a row a placeholder
    identifier, "sku-" followed by the clock reading and by a random number
    below a million, both in base 36, when none of the columns item_id,
    itemid, item id is in the row (or the one found holds null); it maps
    every row of the sheet to a payload, so no row is left out of the
    chunks for lacking an identifier.  The upload route does otherwise: an
    inventory row without a truthy [sku] ends in the [catch] with the
    message about the required fields, and nothing is written for it. *)
Theorem placeholder_sku_where_id_column_missing
    (r : RawRow) (json : list RawRow) (row : Obj) (w : World) :
  nullish (first_of (norm_of r) ["item_id"; "itemid"; "item id"] VUndef) = true →
  truthy (get row "sku") = false →
  let now := date_now (env w) in
  let rnd := random_1e6 now.1 in
  (payload_of r w).2 !! "sku"
  = Some (VStr ("sku-" +:+ N_toString 36 now.2 +:+ "-" +:+ N_toString 36 rnd.2))
  ∧ length (payloads_of json w).2 = length json
  ∧ inventory_row (Some row) w
    = (w, Thrown "Missing required fields: sku, name, warehouse_id").
Proof.
  intros Hid Hsku. split; [|split].
  - unfold payload_of, bind, ret. rewrite Hid.
    unfold uuidLike, bind, ret, Date_now, Math_random_1e6. simpl.
    destruct (date_now (env w)) as [e1 t]. simpl.
    destruct (random_1e6 e1) as [e2 n]. simpl.
    by rewrite !lookup_insert_ne, lookup_insert_eq by done.
  - apply payloads_of_length.
  - unfold inventory_row. by rewrite Hsku.
Qed.

End IdentifierFallback.

Section IdentifierScenario.
Import Js Inventory Upload Scenario.

Lemma placeholder_sku_where_id_column_missing_witness :
  let r : RawRow := [("Item_Name", VStr "Bolt"); ("Stock_On_Hand", VStr "12")] in
  let row : Obj := obj [("name", VStr "Bolt"); ("warehouse_id", VStr "W1")] in
  let w := world [] 1700000000000 [123456] in
  nullish (first_of (norm_of r) ["item_id"; "itemid"; "item id"] VUndef) = true
  ∧ truthy (get row "sku") = false
  ∧ (payload_of r w).2 !! "sku" = Some (VStr "sku-loyw3v28-2n9c")
  ∧ length (payloads_of [r; r] w).2 = 2%nat
  ∧ inventory_row (Some row) w
    = (w, Thrown "Missing required fields: sku, name, warehouse_id").
Proof.
  intros r row w.
  split; [reflexivity|]. split; [reflexivity|].
  exact (placeholder_sku_where_id_column_missing r [r; r] row w eq_refl eq_refl).
Defined.

(** C9 as stated fails: the upload route does not make up an identifier
    for an inventory row without [sku]; it rejects the row, which ends in
    the error list, and issues no query for it. *)
Lemma upload_rejects_row_without_sku :
  let body := {| scope := "inventory";
                 data := [Some (obj [("name", VStr "Bolt");
                                     ("warehouse_id", VStr "W1")])] |} in
  let w := world [] 0 [] in
  POST body w
  = (w, Json200 {| inserted := 0; updated := 0;
                   errors := [{| row := 1; field := "general";
                                 message := "Missing required fields: sku, name, warehouse_id" |}] |}).
Proof. reflexivity. Qed.

(** On the inventory page a blank Item_ID cell is not replaced either: the
    empty text is not null, so it is the identifier. *)
Example blank_item_id_is_kept :
  let r : RawRow := [("Item_ID", VStr EmptyString); ("Item_Name", VStr "Bolt")] in
  (payload_of r (world [] 0 [])).2 !! "sku" = Some (VStr EmptyString).
Proof. reflexivity. Qed.

(** Two rows read within the same millisecond and dealt the same random
    number get the same placeholder. *)
Example placeholders_can_coincide :
  let e := {| replies := []; clock := 5; dice := [7] |} in
  let stuck : Host := {|
    Env := Script; exec := scripted_exec;
    date_now := λ e, (e, clock e); random_1e6 := λ e, (e, 7);
    number_to_string := show_num; toISOString := λ _, EmptyString;
    stringify_error := λ _, EmptyString;
    parseInt := λ _, NaN; parseFloat := λ _, NaN |} in
  let r : RawRow := [("Item_Name", VStr "Bolt")] in
  (λ o : Obj, o !! "sku")
    <$> (@payloads_of stuck [r; r] {| env := e; trace := [] |}).2
  = [Some (VStr "sku-5-7"); Some (VStr "sku-5-7")].
Proof. reflexivity. Qed.

End IdentifierScenario.

Section CaseConversion.
Import Js SpareParts.

Lemma char_upper_lower_letter (d : ascii) :
  is_lower d = true →
  is_upper (char_upper d) = true ∧ char_lower (char_upper d) = d.
Proof. destruct d as [[] [] [] [] [] [] [] []]; vm_compute; intuition congruence. Qed.

Lemma char_lower_upper_letter (c : ascii) :
  is_upper c = true →
  is_lower (char_lower c) = true ∧ char_upper (char_lower c) = c.
Proof. destruct c as [[] [] [] [] [] [] [] []]; vm_compute; intuition congruence. Qed.

Lemma camelToSnake_cons_plain (c : ascii) (s : string) :
  is_upper c = false → camelToSnake (String c s) = String c (camelToSnake s).
Proof. intros Hc. simpl. by rewrite Hc. Qed.

Lemma snakeToCamel_cons2 (c d : ascii) (s : string) :
  snakeToCamel (String c (String d s)) =
    if bool_decide (c = "_"%char) && is_lower d
    then String (char_upper d) (snakeToCamel s)
    else String c (snakeToCamel (String d s)).
Proof. reflexivity. Qed.

Lemma snakeToCamel_camelToSnake_bounded (n : nat) :
  ∀ s : string,
    (String.length s ≤ n)%nat →
    sforall (λ c, negb (is_upper c)) s = true →
    camelToSnake (snakeToCamel s) = s.
Proof.
  induction n as [|n IH]; intros s Hlen Hs.
  - destruct s; [done|simpl in Hlen; lia].
  - destruct s as [|c s]; [done|].
    simpl in Hs. apply andb_prop in Hs as [Hc Hs]. apply negb_true_iff in Hc.
    destruct s as [|d s].
    + simpl. by rewrite Hc.
    + rewrite snakeToCamel_cons2.
      simpl in Hs. apply andb_prop in Hs as [Hd Hs']. apply negb_true_iff in Hd.
      destruct (bool_decide (c = "_"%char) && is_lower d) eqn:E.
      * apply andb_prop in E as [Hu Hl]. apply bool_decide_eq_true_1 in Hu.
        destruct (char_upper_lower_letter d Hl) as [Hup Hlow].
        cbn [camelToSnake]. rewrite Hup, Hlow, Hu.
        rewrite (IH s); [done|simpl in Hlen; lia|done].
      * rewrite camelToSnake_cons_plain by done.
        rewrite (IH (String d s)); [done|simpl in *; lia|].
        simpl. by rewrite Hd.
Qed.

(** X1. On a name without upper-case letters [camelToSnake] undoes
    [snakeToCamel]: the camel-case spelling the recovery routine derives
    from a snake-case column name converts back to that name. *)
Theorem camelToSnake_snakeToCamel (s : string) :
  sforall (λ c, negb (is_upper c)) s = true →
  camelToSnake (snakeToCamel s) = s.
Proof. apply (snakeToCamel_camelToSnake_bounded (String.length s)). lia. Qed.

Lemma camelToSnake_snakeToCamel_witness :
  sforall (λ c, negb (is_upper c)) "rack_id" = true
  ∧ snakeToCamel "rack_id" = "rackId"
  ∧ camelToSnake (snakeToCamel "rack_id") = "rack_id".
Proof.
  split; [reflexivity|]. split; [reflexivity|].
  exact (camelToSnake_snakeToCamel "rack_id" eq_refl).
Defined.

(** X2. On a name in which no underscore stands directly before a
    lower-case letter [snakeToCamel] undoes [camelToSnake]: the snake-case
    spelling derived from a camel-case column name converts back to it. *)
Theorem snakeToCamel_camelToSnake (s : string) :
  no_snake_pair s = true →
  snakeToCamel (camelToSnake s) = s.
Proof.
  induction s as [|c s IH]; [done|].
  intros Hs.
  assert (Hs' : no_snake_pair s = true).
  { simpl in Hs. destruct s; [done|]. by apply andb_prop in Hs as [_ ?]. }
  specialize (IH Hs').
  cbn [camelToSnake]. destruct (is_upper c) eqn:Hc.
  - destruct (char_lower_upper_letter c Hc) as [Hl Hu].
    cbn [snakeToCamel]. rewrite bool_decide_eq_true_2 by done.
    rewrite Hl. simpl. by rewrite Hu, IH.
  - destruct s as [|d s]; [done|].
    simpl in Hs. apply andb_prop in Hs as [Hpair _]. apply negb_true_iff in Hpair.
    revert IH. cbn [camelToSnake]. destruct (is_upper d) eqn:Hd; intros IH.
    + rewrite snakeToCamel_cons2.
      replace (bool_decide (c = "_"%char) && is_lower "_") with false
        by (by rewrite andb_false_r).
      by rewrite IH.
    + rewrite snakeToCamel_cons2, Hpair. by rewrite IH.
Qed.

Lemma snakeToCamel_camelToSnake_witness :
  no_snake_pair "rackId" = true
  ∧ camelToSnake "rackId" = "rack_id"
  ∧ snakeToCamel (camelToSnake "rackId") = "rackId".
Proof.
  split; [reflexivity|]. split; [reflexivity|].
  exact (snakeToCamel_camelToSnake "rackId" eq_refl).
Defined.

End CaseConversion.

Section ErrorMessagePattern.
Import Js SpareParts.

Lemma rsearch_unfold (r : Re) (s : string) :
  rsearch r s =
    match rmatch r s None (λ _ cap, Some cap) with
    | Some cap => Some cap
    | None => match s with String _ s' => rsearch r s' | EmptyString => None end
    end.
Proof. by destruct s. Qed.

Lemma rmatch_Plus_cons {R} (p : ascii → bool) (c : ascii) (s : string) cap
    (k : string → option string → option R) :
  rmatch (Plus p) (String c s) cap k =
    if p c then
      match rmatch (Plus p) s cap k with
      | Some x => Some x
      | None => k s cap
      end
    else None.
Proof. reflexivity. Qed.

Lemma string_app_assoc (a b c : string) : (a +:+ b) +:+ c = a +:+ b +:+ c.
Proof.
  induction a as [|x a IH]; [done|].
  change (String x ((a +:+ b) +:+ c) = String x (a +:+ b +:+ c)). by rewrite IH.
Qed.

Lemma string_app_length (a b : string) :
  String.length (a +:+ b) = (String.length a + String.length b)%nat.
Proof.
  induction a as [|c a IH]; [done|].
  change (S (String.length (a +:+ b)) = S (String.length a + String.length b)).
  by rewrite IH.
Qed.

Lemma consumed_app (a b : string) : consumed (a +:+ b) b = a.
Proof.
  unfold consumed.
  replace (String.length (a +:+ b) - String.length b)%nat with (String.length a)
    by (rewrite string_app_length; lia).
  induction a as [|c a IH].
  - by destruct b.
  - change (String c (String.substring 0 (String.length a) (a +:+ b)) = String c a).
    by rewrite IH.
Qed.

(** *** What a successful match has consumed *)

Lemma rmatch_Plus_inv {R} (p : ascii → bool) (s : string) cap
    (k : string → option string → option R) (x : R) :
  rmatch (Plus p) s cap k = Some x →
  ∃ pre s', s = pre +:+ s' ∧ pre ≠ EmptyString ∧ sforall p pre = true
            ∧ k s' cap = Some x.
Proof.
  induction s as [|c s IH]; [done|].
  rewrite rmatch_Plus_cons. destruct (p c) eqn:Hc; [|done].
  destruct (rmatch (Plus p) s cap k) as [y|] eqn:E.
  - intros [= ->]. destruct (IH eq_refl) as (pre & s' & -> & _ & Hp & Hk).
    exists (String c pre), s'. simpl. by rewrite Hc, Hp.
  - intros Hk. exists (String c EmptyString), s. simpl. by rewrite Hc.
Qed.

Lemma rmatch_groupless {R} (r : Re) :
  groupless r = true →
  ∀ (s : string) cap (k : string → option string → option R) (x : R),
    rmatch r s cap k = Some x →
    ∃ pre s', s = pre +:+ s' ∧ k s' cap = Some x.
Proof.
  induction r as [|p|r1 IH1 r2 IH2|r1 IH1|p|r1 IH1]; intros Hr s cap k x Hm.
  - by exists EmptyString, s.
  - destruct s as [|c s]; [done|]. simpl in Hm. destruct (p c); [|done].
    by exists (String c EmptyString), s.
  - simpl in Hr. apply andb_prop in Hr as [Hr1 Hr2].
    destruct (IH1 Hr1 _ _ _ _ Hm) as (pre1 & s1 & -> & Hm1).
    destruct (IH2 Hr2 _ _ _ _ Hm1) as (pre2 & s2 & -> & Hm2).
    exists (pre1 +:+ pre2), s2. by rewrite string_app_assoc.
  - simpl in Hm. destruct (rmatch r1 s cap k) as [y|] eqn:E.
    + injection Hm as ->. by apply (IH1 Hr _ _ _ _ E).
    + by exists EmptyString, s.
  - destruct (rmatch_Plus_inv _ _ _ _ _ Hm) as (pre & s' & -> & _ & _ & Hk).
    by exists pre, s'.
  - done.
Qed.

Lemma rmatch_Seq_groupless {R} (r1 r2 : Re) (s : string) cap
    (k : string → option string → option R) (x : R) :
  groupless r1 = true →
  rmatch (Seq r1 r2) s cap k = Some x →
  ∃ pre s', s = pre +:+ s' ∧ rmatch r2 s' cap k = Some x.
Proof.
  intros Hr Hm.
  exact (rmatch_groupless r1 Hr s cap (λ s' cap', rmatch r2 s' cap' k) x Hm).
Qed.

Lemma rmatch_Seq_Group_Plus {R} (p : ascii → bool) (r2 : Re) (s : string) cap
    (k : string → option string → option R) (x : R) :
  rmatch (Seq (Group (Plus p)) r2) s cap k = Some x →
  ∃ col s', s = col +:+ s' ∧ col ≠ EmptyString ∧ sforall p col = true
            ∧ rmatch r2 s' (Some col) k = Some x.
Proof.
  intros Hm.
  destruct (rmatch_Plus_inv p s cap
              (λ s' _, rmatch r2 s' (Some (consumed s s')) k) x Hm)
    as (col & s' & -> & Hne & Hp & Hk).
  rewrite consumed_app in Hk. by exists col, s'.
Qed.

Lemma rmatch_missing_column_re_inv (s : string) (x : option string) :
  rmatch missing_column_re s None (λ _ cap, Some cap) = Some x →
  ∃ pre col post, s = pre +:+ col +:+ post ∧ x = Some col
    ∧ col ≠ EmptyString ∧ sforall column_char col = true.
Proof.
  unfold missing_column_re. intros Hm.
  apply rmatch_Seq_groupless in Hm as (p1 & s1 & -> & Hm); [|done].
  apply rmatch_Seq_groupless in Hm as (p2 & s2 & -> & Hm); [|done].
  apply rmatch_Seq_groupless in Hm as (p3 & s3 & -> & Hm); [|done].
  apply rmatch_Seq_Group_Plus in Hm as (col & s4 & -> & Hne & Hcol & Hm).
  apply rmatch_groupless in Hm as (p5 & s5 & -> & Hm); [|done].
  injection Hm as <-.
  exists (p1 +:+ p2 +:+ p3), col, (p5 +:+ s5).
  by rewrite !string_app_assoc.
Qed.

Lemma rsearch_missing_column_re_inv (s : string) (x : option string) :
  rsearch missing_column_re s = Some x →
  ∃ pre col post, s = pre +:+ col +:+ post ∧ x = Some col
    ∧ col ≠ EmptyString ∧ sforall column_char col = true.
Proof.
  induction s as [|c s IH]; rewrite rsearch_unfold;
    destruct (rmatch missing_column_re _ None _) as [y|] eqn:E; cbv beta iota;
    try done.
  - intros [= ->]. by apply (rmatch_missing_column_re_inv _ _ E).
  - intros Hs. destruct (IH Hs) as (pre & col & post & -> & ?).
    by exists (String c pre), col, post.
Qed.

(** X4. Whatever [missingColumn] extracts from an error message is a
    non-empty piece of that message that holds neither a double quote nor
    a white-space character: the recovery never strips a field named by
    an empty or a quoted text. *)
Theorem missingColumn_is_token (msg col : string) :
  missingColumn msg = Some col →
  col ≠ EmptyString ∧ sforall column_char col = true
  ∧ ∃ pre post, msg = pre +:+ col +:+ post.
Proof.
  unfold missingColumn. intros Hm.
  destruct (rsearch missing_column_re msg) as [[c|]|] eqn:E; try done.
  case_bool_decide; [done|]. injection Hm as ->.
  destruct (rsearch_missing_column_re_inv _ _ E) as (pre & c & post & -> & [= <-] & ? & ?).
  eauto.
Qed.

(** *** Matching a given text *)

Lemma rmatch_Plus_stops {R} p t cap (k : string → option string → option R) :
  stops p t = true → rmatch (Plus p) t cap k = None.
Proof. destruct t as [|c t]; [done|]. simpl. by intros ->%negb_true_iff. Qed.

Lemma rmatch_Plus_greedy {R} (p : ascii → bool) (name t : string) cap
    (k : string → option string → option R) (x : R) :
  name ≠ EmptyString →
  sforall p name = true →
  stops p t = true →
  k t cap = Some x →
  rmatch (Plus p) (name +:+ t) cap k = Some x.
Proof.
  intros Hne Hall Ht Hk. induction name as [|c name IH]; [done|].
  simpl in Hall. apply andb_prop in Hall as [Hc Hall].
  change (String c name +:+ t) with (String c (name +:+ t)).
  rewrite rmatch_Plus_cons, Hc.
  destruct name as [|d name].
  - change (EmptyString +:+ t) with t. by rewrite rmatch_Plus_stops.
  - by rewrite IH.
Qed.

Lemma rmatch_lit_i {R} (l t : string) cap
    (k : string → option string → option R) :
  rmatch (lit_i l) (l +:+ t) cap k = k t cap.
Proof.
  induction l as [|c l IH]; [done|].
  change (String c l +:+ t) with (String c (l +:+ t)).
  cbn [lit_i rmatch]. by rewrite bool_decide_eq_true_2.
Qed.

Lemma rmatch_Seq_lit_i {R} (l t : string) (r2 : Re) cap
    (k : string → option string → option R) (x : R) :
  rmatch r2 t cap k = Some x →
  rmatch (Seq (lit_i l) r2) (l +:+ t) cap k = Some x.
Proof. intros Hk. cbn [rmatch]. by rewrite rmatch_lit_i. Qed.

Lemma rmatch_Seq_Plus {R} (p : ascii → bool) (name t : string) (r2 : Re) cap
    (k : string → option string → option R) (x : R) :
  name ≠ EmptyString →
  sforall p name = true →
  stops p t = true →
  rmatch r2 t cap k = Some x →
  rmatch (Seq (Plus p) r2) (name +:+ t) cap k = Some x.
Proof.
  intros Hne Hall Ht Hk.
  by apply (rmatch_Plus_greedy p name t cap (λ s' cap', rmatch r2 s' cap' k)).
Qed.

Lemma rmatch_Seq_Opt_Chr {R} (p : ascii → bool) (c : ascii) (t : string)
    (r2 : Re) cap (k : string → option string → option R) (x : R) :
  p c = true →
  rmatch r2 t cap k = Some x →
  rmatch (Seq (Opt (Chr p)) r2) (String c t) cap k = Some x.
Proof. intros Hc Hk. cbn [rmatch]. by rewrite Hc, Hk. Qed.

Lemma rmatch_Seq_Group_Plus_greedy {R} (p : ascii → bool) (name t : string)
    (r2 : Re) cap (k : string → option string → option R) (x : R) :
  name ≠ EmptyString →
  sforall p name = true →
  stops p t = true →
  rmatch r2 t (Some name) k = Some x →
  rmatch (Seq (Group (Plus p)) r2) (name +:+ t) cap k = Some x.
Proof.
  intros Hne Hall Ht Hk.
  apply (rmatch_Plus_greedy p name t cap
           (λ s' _, rmatch r2 s' (Some (consumed (name +:+ t) s')) k));
    [done..|].
  by rewrite consumed_app.
Qed.

(** X3. From a message that begins with PostgreSQL's wording for an
    unknown column, the word column, the quoted name, then the words of
    relation, [missingColumn] extracts exactly the name, whatever follows
    and whatever the name is (non-empty, without quote or white space). *)
Theorem missingColumn_of_postgres_message (name rest : string) :
  name ≠ EmptyString →
  sforall column_char name = true →
  missingColumn ("column " +:+ dq +:+ name +:+ dq +:+ " of relation" +:+ rest)
    = Some name.
Proof.
  intros Hne Hall.
  assert (Hm : rmatch missing_column_re
                 ("column " +:+ dq +:+ name +:+ dq +:+ " of relation" +:+ rest)
                 None (λ _ cap, Some cap) = Some (Some name)).
  { unfold missing_column_re.
    apply (rmatch_Seq_lit_i "column").
    apply (rmatch_Seq_Plus is_space " "); [done..|].
    apply (rmatch_Seq_Opt_Chr is_quote); [done|].
    apply (rmatch_Seq_Group_Plus_greedy _ name); [done..|].
    apply (rmatch_Seq_Opt_Chr is_quote); [done|].
    apply (rmatch_Seq_Plus is_space " "); [done..|].
    apply (rmatch_Seq_lit_i "of").
    apply (rmatch_Seq_Plus is_space " "); [done..|].
    exact (rmatch_lit_i "relation" rest (Some name) (λ _ cap, Some cap)). }
  unfold missingColumn. rewrite rsearch_unfold, Hm.
  by rewrite bool_decide_eq_false_2.
Qed.

Lemma missingColumn_is_token_witness :
  missingColumn (Scenario.rack_id_missing) = Some "rack_id"
  ∧ "rack_id" ≠ EmptyString ∧ sforall column_char "rack_id" = true
  ∧ ∃ pre post, Scenario.rack_id_missing = pre +:+ "rack_id" +:+ post.
Proof.
  split; [reflexivity|].
  exact (missingColumn_is_token (Scenario.rack_id_missing) "rack_id" eq_refl).
Defined.

Lemma missingColumn_of_postgres_message_witness :
  missingColumn ("column " +:+ dq +:+ "rack_id" +:+ dq +:+ " of relation"
                 +:+ " " +:+ dq +:+ "spare_parts" +:+ dq +:+ " does not exist")
    = Some "rack_id".
Proof.
  apply (missingColumn_of_postgres_message "rack_id"); [done|reflexivity].
Defined.

End ErrorMessagePattern.

Section SheetRows.
Import Js SpareParts.
Context `{Host}.

Lemma findHeaderForField_in_headers headers field h :
  findHeaderForField headers field = Some h → h ∈ headers.
Proof.
  rewrite findHeaderForField_resolve. unfold resolve_lower_trimmed, resolve_with.
  destruct (first_alias_match _ _ _) as [h'|] eqn:E.
  - intros [= <-]. by apply first_alias_match_Some in E as [? _].
  - case_bool_decide as Hin.
    + by intros [= <-].
    + by intros [? _]%find_Some_elem.
Qed.

Lemma mapHeader_in_headers headers field h :
  mapHeader headers field = Some h → h ∈ headers.
Proof.
  unfold mapHeader.
  destruct (findHeaderForField headers field) as [h'|] eqn:E.
  - case_bool_decide.
    + by intros [? _]%find_Some_elem.
    + intros [= <-]. by eapply findHeaderForField_in_headers.
  - by intros [? _]%find_Some_elem.
Qed.

(** X5. A field of a sheet row is read from a column of the sheet or not
    at all: what [get] returns is null, or the cell, neither null nor
    undefined, under a non-empty label that is among the headers of the
    sheet. *)
Theorem get_field_reads_a_sheet_column (headers : list string) (r : RawRow)
    (f : string) :
  get_field headers r f = VNull
  ∨ ∃ h, h ∈ headers ∧ h ≠ EmptyString
         ∧ get_field headers r f = cell r h ∧ nullish (cell r h) = false.
Proof.
  unfold get_field. destruct (mapHeader headers f) as [h|] eqn:E; [|by left].
  case_bool_decide as Hh; [by left|].
  unfold coalesce. destruct (nullish (cell r h)) eqn:Hn; [by left|].
  right. exists h. split; [by eapply mapHeader_in_headers|done].
Qed.

Lemma text_field_null_or_truthy headers r f :
  text_field headers r f = VNull ∨ truthy (text_field headers r f) = true.
Proof.
  unfold text_field, or_else. destruct (truthy _) eqn:E; [by right|by left].
Qed.

Lemma reorder_threshold_of_null_or_finite v :
  reorder_threshold_of v = VNull
  ∨ ∃ n, reorder_threshold_of v = VNum n ∧ isFinite n = true.
Proof.
  unfold reorder_threshold_of. destruct (_ || _); [by left|].
  destruct (isFinite _) eqn:E; [right; eauto|by left].
Qed.

(** X6. The row prepared from a sheet row has exactly the five
    properties part_number, name, description, compatibility and
    reorder_threshold; each text property is null or a truthy value (a blank
    cell becomes null, never the empty text or undefined), and
    reorder_threshold is null or a finite number. *)
Theorem rowObj_of_fields (headers : list string) (r : RawRow) :
  let o := rowObj_of headers r in
  dom o = list_to_set ("reorder_threshold" :: text_fields)
  ∧ (∀ f, f ∈ text_fields → get o f = VNull ∨ truthy (get o f) = true)
  ∧ (get o "reorder_threshold" = VNull
     ∨ ∃ n, get o "reorder_threshold" = VNum n ∧ isFinite n = true).
Proof.
  cbv zeta. unfold rowObj_of. split; [|split].
  - rewrite !dom_insert_L, dom_empty_L. unfold text_fields. simpl. set_solver.
  - intros f Hf. unfold text_fields in Hf.
    rewrite !elem_of_cons, elem_of_nil in Hf.
    destruct Hf as [->|[->|[->|[->|[]]]]]; unfold get;
      repeat (rewrite lookup_insert_ne by done); rewrite lookup_insert_eq; simpl;
      apply text_field_null_or_truthy.
  - unfold get. rewrite lookup_insert_eq. simpl.
    apply reorder_threshold_of_null_or_finite.
Qed.

End SheetRows.

Section CategoryCache.
Import Js SpareParts.
Context `{Host}.

(** What one turn of the loop does: the payload it pushes, what it leaves
    of the cache and what it adds to the trace. *)
Lemma prepareRow_turn (headers : list string) (r : RawRow) (cache : Obj) (w : World) :
  let out := prepareRow headers r cache w in
  payload_for headers r out.2.2
  ∧ (∀ k, truthy (get cache k) = true → get out.2.1 k = get cache k)
  ∧ ∃ tr, trace out.1 = trace w ++ tr
      ∧ (length tr ≤ 1)%nat
      ∧ ∀ k, k ∈ omap created_category tr →
             omap created_category tr = [k]
             ∧ truthy (get cache k) = false ∧ truthy (get out.2.1 k) = true.
Proof.
  cbv zeta. unfold prepareRow.
  assert (Hquiet : ∀ o : Obj,
    payload_for headers r o →
    payload_for headers r (ret (cache, o) w).2.2
    ∧ (∀ k, truthy (get cache k) = true → get (ret (cache, o) w).2.1 k = get cache k)
    ∧ ∃ tr, trace (ret (cache, o) w).1 = trace w ++ tr
        ∧ (length tr ≤ 1)%nat
        ∧ ∀ k, k ∈ omap created_category tr →
               omap created_category tr = [k]
               ∧ truthy (get cache k) = false
               ∧ truthy (get (ret (cache, o) w).2.1 k) = true).
  { intros o Ho. simpl. split; [done|]. split; [done|].
    exists []. rewrite app_nil_r. split; [done|]. split; [simpl; lia|].
    by intros k ?%elem_of_nil. }
  destruct (categoryName_of headers r) as [name|]; [|by apply Hquiet; left].
  case_bool_decide as Hname; [by apply Hquiet; left|].
  destruct (truthy (get cache (toLowerCase name))) eqn:Hhit.
  { apply Hquiet. right. by exists (get cache (toLowerCase name)). }
  unfold bind, await, ret.
  destruct (exec (env w) _) as [e1 created] eqn:Hexec. simpl.
  set (q := InsertOneSelectSingle "categories" {["name" := VStr name]} "id").
  destruct (error created) as [err|] eqn:Herr.
  { rewrite Hhit. simpl. split; [by left|]. split; [done|].
    exists [(q, created)]. split; [done|]. split; [simpl; lia|].
    intros k. unfold created_category. simpl. rewrite Herr.
    by intros ?%elem_of_nil. }
  destruct (data created) as [|createdCat|rows] eqn:Hdata.
  1,3: rewrite Hhit; simpl; (split; [by left|]); (split; [done|]);
       exists [(q, created)]; (split; [done|]); (split; [simpl; lia|]);
       intros k; unfold created_category; simpl; rewrite Herr, Hdata;
       by intros ?%elem_of_nil.
  destruct (truthy (get createdCat "id")) eqn:Hid.
  - rewrite Hid. simpl. split; [right; by exists (get createdCat "id")|].
    split.
    { intros k Hk. unfold get. rewrite lookup_insert_ne; [done|].
      intros <-. congruence. }
    exists [(q, created)]. split; [done|]. split; [simpl; lia|].
    intros k. unfold created_category. simpl. rewrite Herr, Hdata, Hid. simpl.
    unfold get at 1. rewrite lookup_singleton_eq. simpl.
    intros ->%list_elem_of_singleton. split; [done|]. split; [done|].
    unfold get at 1. by rewrite lookup_insert_eq.
  - rewrite Hhit. simpl. split; [by left|]. split; [done|].
    exists [(q, created)]. split; [done|]. split; [simpl; lia|].
    intros k. unfold created_category. simpl. rewrite Herr, Hdata, Hid.
    by intros ?%elem_of_nil.
Qed.

Lemma prepareRows_spec (headers : list string) (rawRows : list RawRow) :
  ∀ (cache : Obj) (toInsert : list Obj) (w : World),
    let out := prepareRows headers rawRows cache toInsert w in
    (∃ os, out.2.2 = toInsert ++ os ∧ Forall2 (payload_for headers) rawRows os)
    ∧ (∀ k, truthy (get cache k) = true → get out.2.1 k = get cache k)
    ∧ ∃ tr, trace out.1 = trace w ++ tr
        ∧ (length tr ≤ length rawRows)%nat
        ∧ NoDup (omap created_category tr)
        ∧ ∀ k, k ∈ omap created_category tr →
               truthy (get cache k) = false ∧ truthy (get out.2.1 k) = true.
Proof.
  induction rawRows as [|r rest IH]; intros cache toInsert w; cbv zeta.
  - simpl. split; [exists []; by rewrite app_nil_r|]. split; [done|].
    exists []. rewrite app_nil_r. split; [done|]. split; [done|].
    split; [constructor|]. by intros k ?%elem_of_nil.
  - cbn [prepareRows]. unfold bind.
    pose proof (prepareRow_turn headers r cache w) as Hturn. cbv zeta in Hturn.
    destruct (prepareRow headers r cache w) as [w1 [c1 o]]. simpl in Hturn.
    destruct Hturn as (Ho & Hkeep1 & tr1 & Htr1 & Hlen1 & Hnew1).
    specialize (IH c1 (toInsert ++ [o]) w1). cbv zeta in IH. simpl.
    destruct (prepareRows headers rest c1 (toInsert ++ [o]) w1) as [w2 [c2 os2]].
    simpl in IH |- *.
    destruct IH as ((os & -> & Hos) & Hkeep2 & tr2 & Htr2 & Hlen2 & Hnd2 & Hnew2).
    split; [|split].
    + exists (o :: os). rewrite <- app_assoc. split; [done|]. by constructor.
    + intros k Hk. rewrite Hkeep2; rewrite Hkeep1; done.
    + exists (tr1 ++ tr2). rewrite Htr2, Htr1, app_assoc.
      split; [done|]. split; [rewrite length_app; simpl; lia|].
      rewrite omap_app. split.
      * apply NoDup_app. split; [|split; [|done]].
        -- destruct (omap created_category tr1) as [|k ks] eqn:E; [constructor|].
           destruct (Hnew1 k) as (Hk & _); [left|].
           injection Hk as ->. apply NoDup_singleton.
        -- intros k Hk1 Hk2.
           destruct (Hnew1 k Hk1) as (_ & _ & Hin1).
           destruct (Hnew2 k Hk2) as (Hout & _). congruence.
      * intros k [Hk|Hk]%elem_of_app.
        -- destruct (Hnew1 k Hk) as (_ & Hc & Hc1). split; [done|].
           by rewrite Hkeep2.
        -- destruct (Hnew2 k Hk) as (Hc1 & Hc2). split; [|done].
           destruct (truthy (get cache k)) eqn:E; [|done].
           rewrite <- (Hkeep1 k E) in E. congruence.
Qed.

(** X7. The loop over the rows of the sheet pushes one payload for every
    row, in sheet order: the prepared row, with category_id added only
    when a truthy id was found or created.  No row is left out, so for a
    sheet with rows the list to insert is never empty. *)
Theorem prepareRows_one_payload_per_row (headers : list string)
    (rawRows : list RawRow) (cache : Obj) (w : World) :
  Forall2 (payload_for headers) rawRows (prepareRows headers rawRows cache [] w).2.2.
Proof.
  destruct (prepareRows_spec headers rawRows cache [] w) as ((os & -> & Hos) & _).
  done.
Qed.

(** X8. While the rows are prepared the category cache only grows: an
    entry with a truthy id keeps its id.  At most one query is issued per
    row, and among the category creations that succeeded no cache key
    occurs twice and none had a truthy id in the cache before; each is in
    the cache afterwards. *)
Theorem prepareRows_creates_a_category_once (headers : list string)
    (rawRows : list RawRow) (cache : Obj) (w : World) :
  let out := prepareRows headers rawRows cache [] w in
  (∀ k, truthy (get cache k) = true → get out.2.1 k = get cache k)
  ∧ ∃ tr, trace out.1 = trace w ++ tr
      ∧ (length tr ≤ length rawRows)%nat
      ∧ NoDup (omap created_category tr)
      ∧ ∀ k, k ∈ omap created_category tr →
             truthy (get cache k) = false ∧ truthy (get out.2.1 k) = true.
Proof.
  cbv zeta. by destruct (prepareRows_spec headers rawRows cache [] w) as (_ & ? & ?).
Qed.

End CategoryCache.

Section ImportOutcome.
Import Js SpareParts.
Context `{Host}.

Lemma fetchCategoriesCache_page (p : SparePartsPage) (w : World) :
  let p' := (fetchCategoriesCache p w).2 in
  SpareParts.importError p' = SpareParts.importError p
  ∧ importModalOpen p' = importModalOpen p
  ∧ alerts p' = alerts p.
Proof.
  cbv zeta. unfold fetchCategoriesCache, bind.
  destruct (await _ w) as [w1 resp].
  destruct (error resp); [done|].
  by destruct (_ ≫= cache_of_rows).
Qed.

Lemma tryInsert_last_insert (b : list Obj) (w : World) :
  let out := tryInsertWithMissingColumnRecovery "spare_parts" b w in
  ∃ b' : list Obj,
    last (trace out.1) = Some (Insert "spare_parts" b', out.2).
Proof.
  cbv zeta.
  destruct (tryInsert_run b w) as (tr & Hbt & Htr & _).
  destruct (tryInsertWithMissingColumnRecovery _ _ w) as [w1 resp].
  simpl in *. rewrite Htr.
  destruct Hbt as [[-> _]|(first & e & col & -> & _)].
  - exists b. by rewrite last_snoc.
  - exists (without_column col <$> b).
    change [?x; ?y] with ([x] ++ [y]). by rewrite app_assoc, last_snoc.
Qed.

(** The loop over the batches returns at the first insert whose reply,
    after the recovery, still has an error: that insert and its reply are
    the last thing in the trace. *)
Lemma insertBatches_failure_insert (toInsert : list Obj) :
  ∀ (turns i : nat) (w : World) (err : PgError),
    (insertBatches turns i toInsert w).2 = Some err →
    ∃ (b : list Obj) (r : Response),
      last (trace (insertBatches turns i toInsert w).1)
        = Some (Insert "spare_parts" b, r)
      ∧ error r = Some err.
Proof.
  induction turns as [|turns IH]; intros i w err; simpl; [done|].
  destruct (i <? length toInsert)%nat; [|done].
  unfold bind.
  destruct (tryInsert_last_insert (slice i BATCH_SIZE toInsert) w) as [b Hb].
  destruct (tryInsertWithMissingColumnRecovery _ _ w) as [w1 resp].
  simpl in Hb.
  destruct (error resp) as [err'|] eqn:E.
  - simpl. intros [= <-]. by exists b, resp.
  - apply IH.
Qed.

(** The import once the rows of the selected sheet have been read. *)
Lemma doImportSelectedSheet_rows_outcome (rawRows : list RawRow)
    (p : SparePartsPage) (w : World) :
  let out := doImportSelectedSheet rawRows p w in
  (∃ msg,
     SpareParts.importError out.2 = Some msg
     ∧ alerts out.2 = alerts p
     ∧ importModalOpen out.2 = importModalOpen p
     ∧ ((rawRows = [] ∧ msg = "Selected sheet is empty." ∧ out.1 = w)
        ∨ (head (keys <$> rawRows) = Some []
           ∧ msg = "Could not detect headers in the selected sheet." ∧ out.1 = w)
        ∨ ∃ err b r,
            msg = insert_failed_message err
            ∧ last (trace out.1) = Some (Insert "spare_parts" b, r)
            ∧ error r = Some err))
  ∨ (SpareParts.importError out.2 = None
     ∧ importModalOpen out.2 = false
     ∧ alerts out.2 =
         alerts p ++ ["Imported " +:+ N_toString 10 (N.of_nat (length rawRows))
                      +:+ " rows successfully."]).
Proof.
  cbv zeta. unfold doImportSelectedSheet.
  destruct rawRows as [|first rest].
  { left. eexists. simpl. split; [done|]. split; [done|]. split; [done|].
    by left. }
  case_bool_decide as Hh.
  { left. eexists. simpl. split; [done|]. split; [done|]. split; [done|].
    right; left. by rewrite Hh. }
  unfold bind.
  destruct (prepareRows_spec (keys first) (first :: rest)
              (categoriesCache (setImportError None p)) [] w)
    as ((os & Hos & Hrows) & _).
  destruct (prepareRows _ _ _ _ w) as [w1 [cache toInsert]].
  simpl in Hos. subst os.
  apply Forall2_length in Hrows. cbn [fst snd].
  case_bool_decide as Hempty; [by subst toInsert|].
  pose proof (insertBatches_failure_insert toInsert (length toInsert) 0 w1) as Hstop.
  destruct (insertBatches _ _ _ w1) as [w2 [err|]]; simpl in Hstop.
  - left. eexists. simpl. split; [done|]. split; [done|]. split; [done|].
    right; right. destruct (Hstop err eq_refl) as (b & r & ? & ?).
    by exists err, b, r.
  - right.
    pose proof (fetchCategoriesCache_page
                  (setCategoriesCache cache (setImportError None p)) w2) as Hp.
    cbv zeta in Hp.
    destruct (fetchCategoriesCache _ w2) as [w3 p3]. simpl in Hp.
    destruct Hp as (He & Hm & Ha).
    destruct (fetchSpareParts w3) as [w4 []]. simpl.
    rewrite He, Ha, <- Hrows. done.
Qed.

(** X9. An import of the selected sheet, from its first statement, ends
    in one of two ways.  Either an error is shown, no alert is raised and
    the modal stays as it was: no sheet is selected, or the workbook is
    gone, or the sheet is empty or has no headers, and then no query was
    issued; or the last query issued is an insert into spare_parts whose
    reply has the error shown.  Or no error is shown, the modal is closed
    and one alert announces as many rows as the selected sheet has. *)
Theorem doImportSelectedSheet_outcome
    (selectedSheet : option string) (workbook : option Workbook)
    (p : SparePartsPage) (w : World) :
  let out := doImportSelectedSheet_entry selectedSheet workbook p w in
  let rawRows := match selectedSheet, workbook with
                 | Some name, Some wb => default [] (wb !! name)
                 | _, _ => []
                 end in
  (∃ msg,
     SpareParts.importError out.2 = Some msg
     ∧ alerts out.2 = alerts p
     ∧ importModalOpen out.2 = importModalOpen p
     ∧ (((selectedSheet = None ∨ selectedSheet = Some EmptyString)
         ∧ msg = "No sheet selected." ∧ out.1 = w)
        ∨ (workbook = None
           ∧ msg = "Workbook not available (possibly due to hot reload). Please re-upload the file and try again."
           ∧ out.1 = w)
        ∨ (rawRows = [] ∧ msg = "Selected sheet is empty." ∧ out.1 = w)
        ∨ (head (keys <$> rawRows) = Some []
           ∧ msg = "Could not detect headers in the selected sheet." ∧ out.1 = w)
        ∨ ∃ err b r,
            msg = insert_failed_message err
            ∧ last (trace out.1) = Some (Insert "spare_parts" b, r)
            ∧ error r = Some err))
  ∨ (SpareParts.importError out.2 = None
     ∧ importModalOpen out.2 = false
     ∧ alerts out.2 =
         alerts p ++ ["Imported " +:+ N_toString 10 (N.of_nat (length rawRows))
                      +:+ " rows successfully."]).
Proof.
  cbv zeta. unfold doImportSelectedSheet_entry.
  destruct selectedSheet as [name|].
  2:{ left. eexists. simpl. split; [done|]. split; [done|]. split; [done|].
      left. split; [by left|done]. }
  case_bool_decide as Hname.
  { left. eexists. simpl. split; [done|]. split; [done|]. split; [done|].
    left. split; [right; by rewrite Hname|done]. }
  destruct workbook as [wb|].
  2:{ left. eexists. simpl. split; [done|]. split; [done|]. split; [done|].
      right; left. done. }
  destruct (doImportSelectedSheet_rows_outcome (default [] (wb !! name))
              (setImportError None p) w)
    as [(msg & He & Ha & Hm & Hcase)|Hok]; [left|right; exact Hok].
  exists msg. split; [done|]. split; [done|]. split; [done|].
  destruct Hcase as [?|[?|?]]; [right; right; by left|right; right; right; by left|].
  by do 4 right.
Qed.

End ImportOutcome.

Section InventoryCells.
Import Js SpareParts Inventory.
Context `{Host}.

Lemma sfilter_app (p : ascii → bool) (a b : string) :
  sfilter p (a +:+ b) = sfilter p a +:+ sfilter p b.
Proof.
  induction a as [|c a IH]; [done|].
  change (String c a +:+ b) with (String c (a +:+ b)). simpl.
  destruct (p c); [|done].
  change (String c (sfilter p a) +:+ sfilter p b)
    with (String c (sfilter p a +:+ sfilter p b)).
  by rewrite IH.
Qed.

Lemma string_app_empty_r (a : string) : a +:+ EmptyString = a.
Proof.
  induction a as [|c a IH]; [done|].
  change (String c (a +:+ EmptyString) = String c a). by rewrite IH.
Qed.

Lemma digit_char_is_digit (d : N) : d < 10 → is_digit (digit_char d) = true.
Proof.
  intros Hd. unfold digit_char. rewrite (proj2 (N.ltb_lt _ _)) by done.
  unfold is_digit, in_range, code. rewrite N_ascii_embedding by lia.
  apply andb_true_intro. split; apply N.leb_le; lia.
Qed.

Lemma to_radix_digits (fuel : nat) :
  ∀ (n : N) (acc : string),
    sforall is_digit acc = true →
    sforall is_digit (to_radix fuel 10 n acc) = true.
Proof.
  induction fuel as [|fuel IH]; intros n acc Hacc; [done|].
  cbn [to_radix].
  assert (Hd : sforall is_digit (String (digit_char (n mod 10)) acc) = true).
  { simpl. rewrite digit_char_is_digit, Hacc; [done|].
    apply N.mod_lt. lia. }
  destruct (n / 10 =? 0); [done|]. by apply IH.
Qed.

Lemma to_radix_nonempty (fuel : nat) (radix n : N) (acc : string) :
  to_radix (S fuel) radix n acc ≠ EmptyString.
Proof.
  revert n acc. induction fuel as [|fuel IH]; intros n acc.
  - cbn [to_radix]. by destruct (_ =? 0).
  - cbn [to_radix] in *. destruct (n / radix =? 0); [done|]. apply IH.
Qed.

Lemma digits_to_N_radix_value (s : string) :
  sforall is_digit s = true →
  ∀ acc, digits_to_N acc s = radix_value 10 acc s.
Proof.
  induction s as [|c s IH]; [done|]. simpl.
  intros [Hc Hs]%andb_prop acc. rewrite IH by done.
  unfold digit_value. rewrite Hc. f_equal. lia.
Qed.

Lemma split_dot_digits (s : string) :
  sforall is_digit s = true → split_dot s = (s, None).
Proof.
  induction s as [|c s IH]; [done|]. simpl.
  intros [Hc Hs]%andb_prop. rewrite IH by done.
  rewrite bool_decide_eq_false_2; [done|]. by intros ->.
Qed.

Lemma Number_of_digits (s : string) :
  sforall is_digit s = true → s ≠ EmptyString →
  overflows (radix_value 10 0 s) 0 = false →
  Number_of_numeric_text s = Dec false (radix_value 10 0 s) 0.
Proof.
  intros Hs Hne Hfin. unfold Number_of_numeric_text.
  destruct s as [|c r] eqn:E; [done|]. rewrite <- E in *.
  assert (Hc : bool_decide (c = "-"%char) = false).
  { apply bool_decide_eq_false_2. intros ->. by rewrite E in Hs. }
  rewrite Hc, split_dot_digits by done. cbn [default String.length N.of_nat].
  rewrite string_app_empty_r, Hs.
  rewrite bool_decide_eq_false_2 by done. cbn [negb andb].
  rewrite digits_to_N_radix_value by done.
  change (N.of_nat 0) with 0. by rewrite Hfin.
Qed.

(** X10. [safeNum] reads a whole number out of the text around it: for a
    cell made of the decimal digits of [n] between two texts that hold no
    digit, '.' or '-' (a unit, a currency sign, blanks), the result is [n],
    for every [n] up to 2^53.  These are the whole numbers a JavaScript
    number holds exactly, so that the numeral [Dec false n 0] stands for
    [n] itself; a longer run of digits is rounded by [Number]. *)
Theorem safeNum_reads_number_amid_text (pre post : string) (n : N) :
  sforall (λ c, negb (numeric_char c)) pre = true →
  sforall (λ c, negb (numeric_char c)) post = true →
  n ≤ 2 ^ 53 →
  safeNum (VStr (pre +:+ N_toString 10 n +:+ post)) = Dec false n 0.
Proof.
  intros Hpre Hpost Hn.
  assert (Hfin : overflows n 0 = false).
  { unfold overflows. apply N.leb_gt.
    assert (2 ^ 53 < (2 ^ 1024 - 2 ^ 970) * 10 ^ 0) by (vm_compute; reflexivity).
    lia. }
  unfold safeNum. simpl.
  rewrite !sfilter_app, (sfilter_none _ _ Hpre), (sfilter_none _ _ Hpost).
  rewrite string_app_empty_r.
  assert (Hd : sforall is_digit (N_toString 10 n) = true)
    by (by apply to_radix_digits).
  rewrite sfilter_id.
  2:{ apply (sforall_impl is_digit); [|done].
      intros c Hc. unfold numeric_char. by rewrite Hc. }
  change (EmptyString +:+ N_toString 10 n) with (N_toString 10 n).
  pose proof (N_toString_value 10 n ltac:(lia) ltac:(lia)) as Hval.
  rewrite Number_of_digits; rewrite ?Hval; try done.
  - unfold isFinite. by rewrite Hfin.
  - apply to_radix_nonempty.
Qed.

Lemma trimStart_head (s : string) :
  match trimStart s with
  | EmptyString => True
  | String c _ => is_space c = false
  end.
Proof.
  induction s as [|c s IH]; [done|]. simpl.
  destruct (is_space c) eqn:E; [done|]. simpl. done.
Qed.

Lemma trimEnd_idem (s : string) : trimEnd (trimEnd s) = trimEnd s.
Proof.
  induction s as [|c s IH]; [done|]. cbn [trimEnd].
  destruct (trimEnd s) as [|d r] eqn:E.
  - destruct (is_space c) eqn:Hc; [done|]. simpl. by rewrite Hc.
  - cbn [trimEnd]. cbn [trimEnd] in IH. by rewrite IH.
Qed.

Lemma trimEnd_head (c : ascii) (s : string) :
  is_space c = false → ∃ r, trimEnd (String c s) = String c r.
Proof.
  intros Hc. cbn [trimEnd]. destruct (trimEnd s); rewrite ?Hc; eauto.
Qed.

Lemma trim_idem (s : string) : trim (trim s) = trim s.
Proof.
  unfold trim. pose proof (trimStart_head s) as Hh.
  destruct (trimStart s) as [|c t]; [done|].
  destruct (trimEnd_head c t Hh) as [r Hr]. rewrite Hr.
  cbn [trimStart]. rewrite Hh, <- Hr. apply trimEnd_idem.
Qed.

Lemma trimmed_or_null_spec (v : JsVal) :
  trimmed_or_null v = VNull
  ∨ ∃ s, trimmed_or_null v = VStr s ∧ s ≠ EmptyString ∧ trim s = s.
Proof.
  unfold trimmed_or_null. case_bool_decide; [by left|].
  right. eexists. split; [done|]. split; [done|]. apply trim_idem.
Qed.

Lemma safeNum_finite (v : JsVal) : isFinite (safeNum v) = true.
Proof.
  unfold safeNum. cbv zeta.
  destruct (isFinite (Number_of_numeric_text _)) eqn:E; [exact E|reflexivity].
Qed.

(** X11. Every payload of the inventory import has exactly the eight
    properties sku, name, category, warehouse_id, rack_id, qty, unit_price
    and reorder_threshold; sku and name are texts, the three references are
    null or a non-empty text without white space around it, and the three
    numbers are finite. *)
Theorem payload_of_fields (r : RawRow) (w : World) :
  let o := (payload_of r w).2 in
  dom o = list_to_set ["sku"; "name"; "category"; "warehouse_id"; "rack_id";
                       "qty"; "unit_price"; "reorder_threshold"]
  ∧ (∀ f, f ∈ ["sku"; "name"] → ∃ s, get o f = VStr s)
  ∧ (∀ f, f ∈ ["category"; "warehouse_id"; "rack_id"] →
       get o f = VNull
       ∨ ∃ s, get o f = VStr s ∧ s ≠ EmptyString ∧ trim s = s)
  ∧ (∀ f, f ∈ ["qty"; "unit_price"; "reorder_threshold"] →
       ∃ n, get o f = VNum n ∧ isFinite n = true).
Proof.
  cbv zeta. unfold payload_of, bind, ret.
  destruct ((if nullish _ then uuidLike else _) w) as [w1 sku]. cbn [snd].
  split; [|split; [|split]].
  - rewrite !dom_insert_L, dom_empty_L. simpl. set_solver.
  - intros f Hf. rewrite !elem_of_cons, elem_of_nil in Hf.
    destruct Hf as [->|[->|[]]]; unfold get;
      repeat (rewrite lookup_insert_ne by done); rewrite lookup_insert_eq; simpl;
      eauto.
  - intros f Hf. rewrite !elem_of_cons, elem_of_nil in Hf.
    destruct Hf as [->|[->|[->|[]]]]; unfold get;
      repeat (rewrite lookup_insert_ne by done); rewrite lookup_insert_eq; simpl;
      apply trimmed_or_null_spec.
  - intros f Hf. rewrite !elem_of_cons, elem_of_nil in Hf.
    destruct Hf as [->|[->|[->|[]]]]; unfold get;
      repeat (rewrite lookup_insert_ne by done); rewrite lookup_insert_eq; simpl;
      eexists; (split; [done|]); apply safeNum_finite.
Qed.

Lemma norm_of_same_columns (r r' : RawRow) :
  same_columns r r' → norm_of r = norm_of r'.
Proof.
  intros Hs. unfold norm_of. generalize (∅ : Obj).
  induction Hs as [|kv kv' r r' [Hk Hv] _ IH]; intros acc; [done|].
  simpl. rewrite Hk, Hv. apply IH.
Qed.

(** X12. The inventory import matches column labels regardless of case
    and of the white space around them: two rows whose labels agree once
    trimmed and lower-cased, with the same cells in the same order, give
    the same payload in the same environment. *)
Theorem payload_of_same_columns (r r' : RawRow) (w : World) :
  same_columns r r' → payload_of r w = payload_of r' w.
Proof.
  intros Hn%norm_of_same_columns. unfold payload_of. by rewrite Hn.
Qed.

End InventoryCells.

Section InventoryCellsScenario.
Import Js SpareParts Inventory Scenario.

Lemma safeNum_reads_number_amid_text_witness :
  sforall (λ c, negb (numeric_char c)) "Rs " = true
  ∧ sforall (λ c, negb (numeric_char c)) " units" = true
  ∧ 12 ≤ 2 ^ 53
  ∧ safeNum (VStr "Rs 12 units") = Dec false 12 0.
Proof.
  assert (Hn : 12 ≤ 2 ^ 53) by (vm_compute; discriminate).
  split; [reflexivity|]. split; [reflexivity|]. split; [exact Hn|].
  exact (safeNum_reads_number_amid_text "Rs " " units" 12 eq_refl eq_refl Hn).
Defined.

Lemma payload_of_same_columns_witness :
  let r := [("Item_ID", VStr "SKU-1"); ("Stock_On_Hand", VStr "12")] in
  let r' := [(" item_id ", VStr "SKU-1"); ("STOCK_ON_HAND", VStr "12")] in
  same_columns r r'
  ∧ payload_of r (world [] 0 []) = payload_of r' (world [] 0 []).
Proof.
  intros r r'.
  assert (Hs : same_columns r r') by (repeat constructor).
  split; [exact Hs|].
  exact (payload_of_same_columns r r' (world [] 0 []) Hs).
Defined.

End InventoryCellsScenario.

Section UpsertCount.
Import Js SpareParts Inventory.
Context `{Host}.

Lemma accepted_rows_app (tr1 tr2 : list (Request * Response)) :
  accepted_rows (tr1 ++ tr2) = (accepted_rows tr1 + accepted_rows tr2)%nat.
Proof. apply sum_list_with_app. Qed.

Lemma upsertChunks_count (payloads : list Obj) :
  ∀ (turns i upserted : nat) (w : World),
    let out := upsertChunks turns i payloads upserted w in
    ∃ tr, trace out.1 = trace w ++ tr
      ∧ out.2 = (upserted + accepted_rows tr)%nat
      ∧ (accepted_rows tr ≤ length payloads - i)%nat.
Proof.
  induction turns as [|turns IH]; intros i upserted w; cbv zeta.
  - exists []. simpl. rewrite app_nil_r. split; [done|]. split; [lia|].
    unfold accepted_rows. simpl. lia.
  - cbn [upsertChunks]. destruct (Nat.ltb_spec i (length payloads)) as [Hi|Hi].
    2:{ exists []. simpl. rewrite app_nil_r. split; [done|]. split; [lia|].
        unfold accepted_rows. simpl. lia. }
    unfold bind, await.
    destruct (exec (env w) _) as [e1 resp] eqn:Hexec.
    set (q := Upsert "inventory_items" (slice i batchSize payloads) "sku,warehouse_id").
    set (w1 := {| env := e1; trace := trace w ++ [(q, resp)] |}).
    set (up1 := match error resp with
                | None => (upserted + length (slice i batchSize payloads))%nat
                | Some _ => upserted
                end).
    destruct (IH (i + batchSize)%nat up1 w1) as (tr & Htr & Hout & Hle).
    exists ((q, resp) :: tr). split; [|split].
    + rewrite Htr. subst w1. simpl. by rewrite <- app_assoc.
    + rewrite Hout. unfold accepted_rows at 2. simpl. fold (accepted_rows tr).
      subst up1. destruct (error resp); lia.
    + unfold accepted_rows. simpl. fold (accepted_rows tr).
      assert (length (slice i batchSize payloads) ≤ batchSize)%nat
        by (unfold slice; rewrite length_take; lia).
      assert (length (slice i batchSize payloads) ≤ length payloads - i)%nat
        by (unfold slice; rewrite length_take, length_drop; lia).
      destruct (error resp); lia.
Qed.

Lemma payloads_of_trace (json : list RawRow) (w : World) :
  trace (payloads_of json w).1 = trace w.
Proof.
  revert w. induction json as [|r json IH]; intros w; [done|].
  cbn [payloads_of]. unfold bind, ret, payload_of, bind, ret.
  assert (Hsku : ∀ (b : bool) (s : string) (w0 : World),
            trace ((if b then uuidLike else (λ w, (w, s))) w0).1 = trace w0).
  { intros [] s w0; [|done].
    unfold uuidLike, bind, ret, Date_now, Math_random_1e6. simpl.
    destruct (date_now (env w0)) as [e1 t]. simpl.
    by destruct (random_1e6 e1). }
  match goal with
  | |- context [(if ?b then uuidLike else _) w] =>
      pose proof (Hsku b (to_string (first_of (norm_of r)
                   ["item_id"; "itemid"; "item id"] VUndef)) w) as Hw;
      unfold ret in *;
      destruct ((if b then uuidLike else _) w) as [w1 sku]
  end.
  simpl in Hw. specialize (IH w1).
  destruct (payloads_of json w1) as [w2 os]. simpl in *. congruence.
Qed.

(** X13. The number of rows the inventory import announces is the number
    of rows of the upserts the database accepted, and it never exceeds the
    number of rows of the sheet. *)
Theorem importSelectedSheet_counts_accepted_rows
    (selectedSheet : string) (json : list RawRow) (w : World) :
  json ≠ [] →
  let out := importSelectedSheet selectedSheet json w in
  ∃ tr, trace out.1 = trace w ++ tr
    ∧ importMessage out.2
      = Some ("Imported " +:+ N_toString 10 (N.of_nat (accepted_rows tr))
              +:+ " rows from " +:+ dq +:+ selectedSheet +:+ dq +:+ ".")
    ∧ (accepted_rows tr ≤ length json)%nat.
Proof.
  intros Hjson. cbv zeta. unfold importSelectedSheet.
  destruct json as [|r json]; [done|].
  unfold bind, ret.
  pose proof (payloads_of_trace (r :: json) w) as Htr0.
  pose proof (payloads_of_length (r :: json) w) as Hlen.
  destruct (payloads_of (r :: json) w) as [w1 payloads]. simpl in Htr0, Hlen.
  destruct (upsertChunks_count payloads (length payloads) 0 0 w1)
    as (tr & Htr & Hout & Hle).
  destruct (upsertChunks _ _ _ _ w1) as [w2 upserted]. simpl in Htr, Hout.
  unfold loadInventory, bind, ret, await.
  destruct (exec (env w2) _) as [e3 resp]. simpl.
  exists (tr ++ [(Select "inventory_items"
                   "sku, name, category, warehouse_id, rack_id, qty, unit_price, reorder_threshold"
                   (Some "name"), resp)]).
  rewrite accepted_rows_app. unfold accepted_rows at 2 4. simpl.
  rewrite !Nat.add_0_r, Htr, Htr0, app_assoc, Hout.
  split; [done|]. split; [done|]. lia.
Qed.

End UpsertCount.

Section UpsertCountScenario.
Import Js SpareParts Inventory Scenario.

Lemma importSelectedSheet_counts_accepted_rows_witness :
  let json := replicate 2 stock_row in
  let w := world [failure duplicate_key] 0 [] in
  json ≠ []
  ∧ ∃ tr, trace (importSelectedSheet "Stock" json w).1 = trace w ++ tr
      ∧ importMessage (importSelectedSheet "Stock" json w).2
        = Some ("Imported " +:+ N_toString 10 (N.of_nat (accepted_rows tr))
                +:+ " rows from " +:+ dq +:+ "Stock" +:+ dq +:+ ".")
      ∧ (accepted_rows tr ≤ length json)%nat.
Proof.
  intros json w.
  assert (Hj : json ≠ []) by done.
  split; [exact Hj|].
  exact (importSelectedSheet_counts_accepted_rows "Stock" json w Hj).
Defined.

End UpsertCountScenario.

Section UploadQueries.
Import Js Upload.
Context `{Host}.

Lemma each_row_trace (P : Request * Response → Prop) (body : Row → M Outcome) :
  (∀ r w, ∃ tr, trace (body r w).1 = trace w ++ tr
                ∧ (length tr ≤ 2)%nat ∧ Forall P tr) →
  ∀ (rows : list Row) (i : nat) (acc : UploadResponse) (w : World),
    ∃ tr, trace (each_row body i rows acc w).1 = trace w ++ tr
          ∧ (length tr ≤ 2 * length rows)%nat ∧ Forall P tr.
Proof.
  intros Hbody. induction rows as [|r rows IH]; intros i acc w.
  - exists []. simpl. rewrite app_nil_r. split; [done|]. split; [lia|constructor].
  - cbn [each_row]. unfold bind.
    destruct (Hbody r w) as (tr1 & Htr1 & Hlen1 & HP1).
    destruct (body r w) as [w1 o]. simpl in Htr1.
    destruct (IH (S i) (tally i o acc) w1) as (tr2 & Htr2 & Hlen2 & HP2).
    exists (tr1 ++ tr2). rewrite Htr2, Htr1, app_assoc.
    split; [done|]. split; [rewrite length_app; simpl; lia|].
    by apply Forall_app.
Qed.

Ltac destruct_exec e r :=
  match goal with
  | |- context [exec ?e0 ?q] => destruct (exec e0 q) as [e r]; simpl
  end.

Lemma each_row_trace_rows (P : Row → Request * Response → Prop)
    (body : Row → M Outcome) :
  (∀ r w, ∃ tr, trace (body r w).1 = trace w ++ tr
                ∧ (length tr ≤ 2)%nat ∧ Forall (P r) tr) →
  ∀ (rows : list Row) (i : nat) (acc : UploadResponse) (w : World),
    ∃ tr, trace (each_row body i rows acc w).1 = trace w ++ tr
          ∧ (length tr ≤ 2 * length rows)%nat
          ∧ Forall (λ qr, ∃ r, r ∈ rows ∧ P r qr) tr.
Proof.
  intros Hbody. induction rows as [|r rows IH]; intros i acc w.
  - exists []. simpl. rewrite app_nil_r. split; [done|]. split; [lia|constructor].
  - cbn [each_row]. unfold bind.
    destruct (Hbody r w) as (tr1 & Htr1 & Hlen1 & HP1).
    destruct (body r w) as [w1 o]. simpl in Htr1.
    destruct (IH (S i) (tally i o acc) w1) as (tr2 & Htr2 & Hlen2 & HP2).
    exists (tr1 ++ tr2). rewrite Htr2, Htr1, app_assoc.
    split; [done|]. split; [rewrite length_app; simpl; lia|].
    apply Forall_app. split.
    + eapply Forall_impl; [exact HP1|]. intros qr Hqr. exists r. split; [left|done].
    + eapply Forall_impl; [exact HP2|]. intros qr (r' & Hin & Hqr).
      exists r'. split; [by right|done].
Qed.

Lemma inventory_row_threshold (r : Row) (w : World) :
  ∃ tr, trace (inventory_row r w).1 = trace w ++ tr
        ∧ (length tr ≤ 2)%nat
        ∧ Forall (threshold_of_row 10 r) tr.
Proof.
  unfold inventory_row, threshold_of_row.
  destruct r as [row|]; [|exists []; simpl; rewrite app_nil_r; by repeat constructor].
  destruct (_ || _) eqn:Hreq;
    [exists []; simpl; rewrite app_nil_r; by repeat constructor|].
  unfold now_iso, Date_now, bind, ret, await. simpl.
  destruct_exec e1 sel.
  destruct (existing_of sel) as [existing|]; simpl.
  - destruct (date_now e1) as [e2 t]. simpl.
    destruct_exec e3 upd.
    eexists [_; _]. rewrite <- app_assoc. split; [done|]. split; [simpl; lia|].
    repeat constructor; simpl; intros o [= <-]; try done.
    exists row. split; [done|].
    unfold get, inventory_numbers, fields_of, num_or; simpl.
    split; repeat (rewrite lookup_insert_ne by done); rewrite lookup_insert_eq; done.
  - destruct_exec e3 ins.
    eexists [_; _]. rewrite <- app_assoc. split; [done|]. split; [simpl; lia|].
    repeat constructor; simpl; intros o [= <-]; try done.
    exists row. split; [done|].
    unfold get, inventory_numbers, fields_of, num_or; simpl.
    split; repeat (rewrite lookup_insert_ne by done); rewrite lookup_insert_eq; done.
Qed.

Lemma spare_parts_row_threshold (r : Row) (w : World) :
  ∃ tr, trace (spare_parts_row r w).1 = trace w ++ tr
        ∧ (length tr ≤ 2)%nat
        ∧ Forall (threshold_of_row 5 r) tr.
Proof.
  unfold spare_parts_row, threshold_of_row.
  destruct r as [row|]; [|exists []; simpl; rewrite app_nil_r; by repeat constructor].
  unfold now_iso, Date_now, bind, ret, await. simpl.
  destruct_exec e1 sel.
  destruct (existing_of sel) as [existing|]; simpl.
  - destruct (date_now e1) as [e2 t]. simpl.
    destruct_exec e3 upd.
    eexists [_; _]. rewrite <- app_assoc. split; [done|]. split; [simpl; lia|].
    repeat constructor; simpl; intros o [= <-]; try done.
    exists row. split; [done|].
    unfold get, fields_of, num_or; simpl.
    split; repeat (rewrite lookup_insert_ne by done); rewrite lookup_insert_eq; done.
  - destruct_exec e3 ins.
    eexists [_; _]. rewrite <- app_assoc. split; [done|]. split; [simpl; lia|].
    repeat constructor; simpl; intros o [= <-]; try done.
    exists row. split; [done|].
    unfold get, fields_of, num_or; simpl.
    split; repeat (rewrite lookup_insert_ne by done); rewrite lookup_insert_eq; done.
Qed.

Lemma threshold_rows_written (d : N) (rows : list Row)
    (tr : list (Request * Response)) :
  rounds_to_zero d 0 = false →
  Forall (λ qr, ∃ r, r ∈ rows ∧ threshold_of_row d r qr) tr →
  writes_threshold_or_default d rows tr
  ∧ writes_truthy_number "reorder_threshold" tr.
Proof.
  intros Hd Htr. unfold writes_threshold_or_default, writes_truthy_number.
  split; (eapply Forall_impl; [exact Htr|]); intros qr (r & Hin & Hqr) o Ho;
    destruct (Hqr o Ho) as (row & -> & Hname & Hthr).
  - by exists row.
  - rewrite Hthr. cbv zeta.
    destruct (num_truthy (parseInt (get row "reorder_threshold"))) eqn:E.
    + by eexists.
    + eexists. split; [done|]. simpl. by rewrite Hd.
Qed.

(** X14. For the scopes inventory and spare_parts the route issues at
    most two queries per row, and every row it inserts or updates comes
    from a row of the request, with its name, and holds as reorder
    threshold the number [parseInt] reads from that row, or, when that
    number is 0 or NaN, the default of the scope: 10 for inventory, 5 for
    spare parts.  So a threshold of 0 in the request is replaced by the
    default, and the threshold stored is never 0 or NaN. *)
Theorem POST_never_stores_zero_threshold
    (body : UploadRequest) (d : N) (w : World) :
  (scope body, d) ∈ threshold_defaults →
  ∃ tr, trace (POST body w).1 = trace w ++ tr
        ∧ (length tr ≤ 2 * length (data body))%nat
        ∧ writes_threshold_or_default d (data body) tr
        ∧ writes_truthy_number "reorder_threshold" tr.
Proof.
  unfold threshold_defaults. rewrite !elem_of_cons, elem_of_nil.
  intros [[= Hs ->]|[[= Hs ->]|[]]]; unfold POST; rewrite Hs; simpl;
    unfold bind, ret.
  - destruct (each_row_trace_rows _ inventory_row inventory_row_threshold
                (data body) 0 {| inserted := 0; updated := 0; errors := [] |} w)
      as (tr & Htr & Hlen & HP).
    destruct (each_row _ _ _ _ w) as [w1 res]. exists tr.
    split; [done|]. split; [done|]. by apply threshold_rows_written.
  - destruct (each_row_trace_rows _ spare_parts_row spare_parts_row_threshold
                (data body) 0 {| inserted := 0; updated := 0; errors := [] |} w)
      as (tr & Htr & Hlen & HP).
    destruct (each_row _ _ _ _ w) as [w1 res]. exists tr.
    split; [done|]. split; [done|]. by apply threshold_rows_written.
Qed.

Lemma inventory_row_inserts (r : Row) (w : World) :
  ∃ tr, trace (inventory_row r w).1 = trace w ++ tr
        ∧ (length tr ≤ 2)%nat
        ∧ inserts_hold ["sku"; "name"; "warehouse_id"] tr.
Proof.
  unfold inventory_row, inserts_hold.
  destruct r as [row|]; [|exists []; simpl; rewrite app_nil_r; by repeat constructor].
  destruct (_ || _) eqn:Hreq;
    [exists []; simpl; rewrite app_nil_r; by repeat constructor|].
  apply orb_false_elim in Hreq as [[Hsku Hname]%orb_false_elim Hwh].
  apply negb_false_iff in Hsku, Hname, Hwh.
  unfold now_iso, Date_now, bind, ret, await. simpl.
  destruct_exec e1 sel.
  destruct (existing_of sel) as [existing|]; simpl.
  - destruct (date_now e1) as [e2 t]. simpl.
    destruct_exec e3 upd.
    eexists [_; _]. rewrite <- app_assoc. split; [done|]. split; [simpl; lia|].
    by repeat constructor.
  - destruct_exec e3 ins.
    eexists [_; _]. rewrite <- app_assoc. split; [done|]. split; [simpl; lia|].
    repeat constructor; simpl; unfold get, inventory_numbers, fields_of; simpl;
      repeat (rewrite lookup_insert_ne by done); rewrite lookup_insert_eq; done.
Qed.

Lemma transactions_row_inserts (r : Row) (w : World) :
  ∃ tr, trace (transactions_row r w).1 = trace w ++ tr
        ∧ (length tr ≤ 2)%nat
        ∧ inserts_hold ["warehouse_id"; "type"; "source_destination"] tr.
Proof.
  unfold transactions_row, inserts_hold.
  destruct r as [row|]; [|exists []; simpl; rewrite app_nil_r; by repeat constructor].
  destruct (_ || _) eqn:Hreq;
    [exists []; simpl; rewrite app_nil_r; by repeat constructor|].
  apply orb_false_elim in Hreq as [[[Hwh Hty]%orb_false_elim Hsd]%orb_false_elim Hqty].
  apply negb_false_iff in Hwh, Hty, Hsd, Hqty.
  unfold now_iso, Date_now, bind, ret, await. simpl.
  destruct (truthy (get row "date")); simpl.
  - destruct_exec e3 ins.
    eexists [_]. split; [done|]. split; [simpl; lia|].
    repeat constructor; simpl; unfold get, fields_of; simpl;
      repeat (rewrite lookup_insert_ne by done); rewrite lookup_insert_eq; done.
  - destruct (date_now (env w)) as [e2 t]. simpl.
    destruct_exec e3 ins.
    eexists [_]. split; [done|]. split; [simpl; lia|].
    repeat constructor; simpl; unfold get, fields_of; simpl;
      repeat (rewrite lookup_insert_ne by done); rewrite lookup_insert_eq; done.
Qed.

(** X15. The route never inserts a row that lacks a field it requires:
    every inventory row inserted holds a truthy sku, name and warehouse_id,
    every transaction inserted a truthy warehouse_id, type and
    source_destination; at most two queries are issued per row. *)
Theorem POST_inserts_hold_required_fields
    (body : UploadRequest) (fs : list string) (w : World) :
  (scope body, fs) ∈ required_fields →
  ∃ tr, trace (POST body w).1 = trace w ++ tr
        ∧ (length tr ≤ 2 * length (data body))%nat
        ∧ inserts_hold fs tr.
Proof.
  unfold required_fields. rewrite !elem_of_cons, elem_of_nil.
  intros [[= Hs ->]|[[= Hs ->]|[]]]; unfold POST; rewrite Hs; simpl;
    unfold bind, ret.
  - destruct (each_row_trace _ inventory_row inventory_row_inserts (data body) 0
                {| inserted := 0; updated := 0; errors := [] |} w)
      as (tr & Htr & Hlen & HP).
    destruct (each_row _ _ _ _ w) as [w1 res]. by exists tr.
  - destruct (each_row_trace _ transactions_row transactions_row_inserts (data body) 0
                {| inserted := 0; updated := 0; errors := [] |} w)
      as (tr & Htr & Hlen & HP).
    destruct (each_row _ _ _ _ w) as [w1 res]. by exists tr.
Qed.

End UploadQueries.

Section UploadQueriesScenario.
Import Js Upload Scenario.

Lemma POST_never_stores_zero_threshold_witness :
  let body := {| scope := "inventory";
                 data := [Some (obj [("sku", VStr "SKU-1"); ("name", VStr "Bolt");
                                     ("warehouse_id", VStr "W1");
                                     ("reorder_threshold", VNum zero)])] |} in
  let w := world [] 0 [] in
  (scope body, 10) ∈ threshold_defaults
  ∧ omap (λ qr : Request * Response,
            (λ o, get o "reorder_threshold") <$> written_row qr.1)
         (trace (POST body w).1)
    = [VNum (Dec false 10 0)]
  ∧ ∃ tr, trace (POST body w).1 = trace w ++ tr
          ∧ (length tr ≤ 2 * length (data body))%nat
          ∧ writes_threshold_or_default 10 (data body) tr
          ∧ writes_truthy_number "reorder_threshold" tr.
Proof.
  intros body w.
  assert (Hs : (scope body, 10) ∈ threshold_defaults)
    by (vm_compute; repeat constructor).
  split; [exact Hs|]. split; [vm_compute; reflexivity|].
  exact (POST_never_stores_zero_threshold body 10 w Hs).
Defined.

Lemma POST_inserts_hold_required_fields_witness :
  let body := {| scope := "transactions";
                 data := [Some (obj [("warehouse_id", VStr "W1"); ("type", VStr "IN");
                                     ("source_destination", VStr "Dock");
                                     ("qty", VStr "4")]);
                          Some (obj [("warehouse_id", VStr "W1")])] |} in
  let fs := ["warehouse_id"; "type"; "source_destination"] in
  let w := world [] 0 [] in
  (scope body, fs) ∈ required_fields
  ∧ ∃ tr, trace (POST body w).1 = trace w ++ tr
          ∧ (length tr ≤ 2 * length (data body))%nat
          ∧ inserts_hold fs tr.
Proof.
  intros body fs w.
  assert (Hs : (scope body, fs) ∈ required_fields)
    by (vm_compute; repeat constructor).
  split; [exact Hs|].
  exact (POST_inserts_hold_required_fields body fs w Hs).
Defined.

End UploadQueriesScenario.

Section StagingLoop.
Import Js Settings.
Context `{Host}.

Lemma Map_set_keys {V} (k : string) (v : V) (m : JsMap V) :
  (Map_set k v m).*1 = if bool_decide (k ∈ m.*1) then m.*1 else m.*1 ++ [k].
Proof.
  induction m as [|[k' v'] m IH]; [done|]. cbn [Map_set].
  destruct (decide (k = k')) as [->|Hne]; rewrite !fmap_cons; cbn [fst].
  - rewrite bool_decide_eq_true_2; [done|left].
  - rewrite IH. destruct (decide (k ∈ m.*1)) as [Hin|Hin].
    + rewrite !bool_decide_eq_true_2; [done|by right|done].
    + rewrite !bool_decide_eq_false_2; [done| |done].
      by intros [?|?]%elem_of_cons.
Qed.

Lemma Map_set_NoDup {V} (k : string) (v : V) (m : JsMap V) :
  NoDup m.*1 → NoDup (Map_set k v m).*1.
Proof.
  intros Hm. rewrite Map_set_keys. case_bool_decide as Hin; [done|].
  apply NoDup_app. split; [done|]. split; [|apply NoDup_singleton].
  by intros x Hx ->%list_elem_of_singleton.
Qed.

Lemma handleFile_mergeItem_get (byKey : JsMap Obj) (it : Obj) (k : string) :
  Map_get k (handleFile_mergeItem byKey it)
  = if decide (compKey it = k)
    then merge_chain (Map_get k byKey) [it]
    else Map_get k byKey.
Proof.
  unfold handleFile_mergeItem. cbv zeta.
  destruct (decide (compKey it = k)) as [<-|Hne].
  - simpl. destruct (Map_get (compKey it) byKey); by rewrite Map_get_set_eq.
  - destruct (Map_get (compKey it) byKey); by rewrite Map_get_set_ne.
Qed.

Lemma handleFile_mergeItem_NoDup (byKey : JsMap Obj) (it : Obj) :
  NoDup byKey.*1 → NoDup (handleFile_mergeItem byKey it).*1.
Proof.
  intros Hm. unfold handleFile_mergeItem. cbv zeta.
  destruct (Map_get _ byKey); by apply Map_set_NoDup.
Qed.

Lemma merge_loop_get (inventory : list Obj) :
  ∀ (byKey : JsMap Obj) (k : string),
    Map_get k (foldl handleFile_mergeItem byKey inventory)
    = merge_chain (Map_get k byKey) (filter (λ it, compKey it = k) inventory).
Proof.
  induction inventory as [|it rest IH]; intros byKey k; [done|].
  cbn [foldl]. rewrite IH, handleFile_mergeItem_get, filter_cons.
  by destruct (decide (compKey it = k)).
Qed.

Lemma merge_loop_NoDup (inventory : list Obj) :
  ∀ byKey : JsMap Obj,
    NoDup byKey.*1 → NoDup (foldl handleFile_mergeItem byKey inventory).*1.
Proof.
  induction inventory as [|it rest IH]; intros byKey Hm; [done|].
  cbn [foldl]. by apply IH, handleFile_mergeItem_NoDup.
Qed.

Lemma Map_new_loop {V} (entries : list (string * V)) :
  ∀ (m : JsMap V) (k : string),
    NoDup m.*1 →
    NoDup (foldl (λ m e, Map_set e.1 e.2 m) m entries).*1
    ∧ Map_get k (foldl (λ m e, Map_set e.1 e.2 m) m entries)
      = match last (filter (λ e, e.1 = k) entries) with
        | Some e => Some e.2
        | None => Map_get k m
        end.
Proof.
  induction entries as [|[k' v] entries IH]; intros m k Hm; [done|].
  cbn [foldl fst snd].
  destruct (IH (Map_set k' v m) k (Map_set_NoDup _ _ _ Hm)) as [Hnd Hget].
  split; [done|]. rewrite Hget, filter_cons. simpl.
  destruct (decide (k' = k)) as [->|Hne].
  - destruct (filter _ entries) as [|e es] eqn:E.
    + simpl. by rewrite Map_get_set_eq.
    + rewrite last_cons_cons.
      destruct (last (e :: es)) eqn:El; [done|]. by apply last_None in El.
  - destruct (last _); [done|]. by rewrite Map_get_set_ne.
Qed.

Lemma Map_get_elem_of {V} (m : JsMap V) (k : string) (v : V) :
  NoDup m.*1 → Map_get k m = Some v ↔ (k, v) ∈ m.
Proof.
  induction m as [|[k' v'] m IH]; simpl.
  - intros _. split; [done|by intros ?%elem_of_nil].
  - intros [Hk Hm]%NoDup_cons. destruct (decide (k = k')) as [->|Hne].
    + split.
      * intros [= ->]. left.
      * intros [[= ->]|Hin]%elem_of_cons; [done|].
        destruct Hk. apply list_elem_of_fmap. by exists (k', v).
    + rewrite IH by done. split; [by right|].
      intros [[= -> ->]|Hin]%elem_of_cons; done.
Qed.

(** X16. The inventory branch of the workbook import groups by
    uniqueness key: the array it writes holds one record per key, and the
    record of a key is the record staged under that key, if any, overlaid
    in workbook order with every imported item of that key; a key that is
    neither staged nor imported has no record.  So a staged record whose
    key no imported item has is written back as it was. *)
Theorem handleFile_inventory_by_key (existing inventory : list Obj) :
  ∃ byKey : JsMap Obj,
    handleFile_inventory existing inventory = byKey.*2
    ∧ NoDup byKey.*1
    ∧ ∀ (k : string) (v : Obj),
        (k, v) ∈ byKey ↔
        merge_chain (staged_under k existing)
          (filter (λ it, compKey it = k) inventory) = Some v.
Proof.
  unfold handleFile_inventory, Map_values, Map_new. cbv zeta.
  set (entries := (λ e, (compKey e, e)) <$> existing).
  destruct (Map_new_loop entries [] EmptyString (NoDup_nil_2)) as [Hnd0 _].
  exists (foldl handleFile_mergeItem
            (foldl (λ m e, Map_set e.1 e.2 m) [] entries) inventory).
  split; [done|]. split; [by apply merge_loop_NoDup|].
  intros k v. rewrite <- Map_get_elem_of by (by apply merge_loop_NoDup).
  rewrite merge_loop_get.
  destruct (Map_new_loop entries [] k (NoDup_nil_2)) as [_ ->].
  assert (Hst : match last (filter (λ e, e.1 = k) entries) with
                | Some e => Some e.2
                | None => Map_get k []
                end = staged_under k existing).
  { unfold staged_under, entries.
    assert (Hf : filter (λ e : string * Obj, e.1 = k)
                   ((λ e, (compKey e, e)) <$> existing)
                 = (λ e, (compKey e, e)) <$> filter (λ e, compKey e = k) existing).
    { clear. induction existing as [|e es IH]; [done|].
      rewrite fmap_cons, !filter_cons. simpl.
      destruct (decide (compKey e = k)); by rewrite IH. }
    rewrite Hf, fmap_last. by destruct (last _). }
  by rewrite Hst.
Qed.

End StagingLoop.

Section WorkbookColumns.
Import Js Settings Warehouses.
Context `{Host} `{Conversions}.

Lemma mapped_of_keys (row : RawRow) (k : string) (v : JsVal) :
  mapped_of row !! k = Some v → sforall is_lower_alnum k = true.
Proof.
  unfold mapped_of.
  assert (Hgen : ∀ acc : Obj,
            (∀ k v, acc !! k = Some v → sforall is_lower_alnum k = true) →
            ∀ k v, foldl (λ mapped kv, <[tolerant kv.1 := kv.2]> mapped) acc row
                     !! k = Some v →
                   sforall is_lower_alnum k = true).
  { induction row as [|[k0 v0] row IH]; intros acc Hacc k' v'; [apply Hacc|].
    cbn [foldl fst snd]. apply IH. intros k1 v1.
    destruct (decide (tolerant k0 = k1)) as [<-|Hne].
    - intros _. apply sfilter_sforall.
    - rewrite lookup_insert_ne by done. apply Hacc. }
  apply (Hgen ∅). intros k' v'. by rewrite lookup_empty.
Qed.

Lemma mapped_of_undefined (row : RawRow) (k : string) :
  sforall is_lower_alnum k = false → get (mapped_of row) k = VUndef.
Proof.
  intros Hk. unfold get. destruct (mapped_of row !! k) as [v|] eqn:E; [|done].
  apply mapped_of_keys in E. congruence.
Qed.

(** X17. Every property of the object [mapped] that the row mappers read
    is a cell of the row, filed under the normalised label of its column:
    the property name consists of the characters a-z and 0-9 only. *)
Theorem mapped_of_holds_cells_under_normalised_labels
    (row : RawRow) (k : string) (v : JsVal) :
  mapped_of row !! k = Some v →
  sforall is_lower_alnum k = true
  ∧ ∃ label, (label, v) ∈ row ∧ tolerant label = k.
Proof.
  intros Hk. split; [by eapply mapped_of_keys|].
  revert k v Hk. unfold mapped_of.
  assert (Hgen : ∀ acc : Obj,
            (∀ k v, acc !! k = Some v →
                    ∃ label, (label, v) ∈ row ∧ tolerant label = k) →
            ∀ rest, rest ⊆ row →
            ∀ k v, foldl (λ mapped kv, <[tolerant kv.1 := kv.2]> mapped) acc rest
                     !! k = Some v →
                   ∃ label, (label, v) ∈ row ∧ tolerant label = k).
  { intros acc Hacc rest. revert acc Hacc.
    induction rest as [|[k0 v0] rest IH]; intros acc Hacc Hsub k' v'; [apply Hacc|].
    cbn [foldl fst snd]. apply IH; [|set_solver].
    intros k1 v1.
    destruct (decide (tolerant k0 = k1)) as [<-|Hne].
    - rewrite lookup_insert_eq. intros [= <-]. exists k0. split; [set_solver|done].
    - rewrite lookup_insert_ne by done. apply Hacc. }
  apply (Hgen ∅); [|done]. intros k' v'. by rewrite lookup_empty.
Qed.

(** X18. The row mappers look columns up under normalised labels, so
    the alternatives they spell with an underscore never apply.  The id of
    a spare part comes from the column normalised to id alone, else it is
    a fresh placeholder, also when the sheet has a column SpareParts_ID;
    the sku of an inventory item comes from itemid or sku; its reorder
    threshold from reorderlevel alone; the phone of a warehouse from phone
    alone. *)
Theorem underscore_alternatives_never_apply (row : RawRow) (w : World) :
  let mapped := mapped_of row in
  (mapSpareRow row w).2 !! "id"
    = Some (VStr (text_or_uid (get mapped "id") "sp" w).2)
  ∧ (mapInventoryRow row w).2 !! "sku"
    = Some (VStr (text_or_uid (or_else (get mapped "itemid") (get mapped "sku"))
                    "sku" w).2)
  ∧ (mapInventoryRow row w).2 !! "reorderThreshold"
    = Some (VNum (or_zero (Number (coalesce (get mapped "reorderlevel")
                                     (VNum zero)))))
  ∧ (mapWarehouseRow row w).2 !! "contact_phone"
    = Some (VStr (text_of (get mapped "phone"))).
Proof.
  cbv zeta.
  pose proof (mapped_of_undefined row) as Hu.
  split; [|split; [|split]].
  - unfold mapSpareRow, bind, ret. rewrite (Hu "spareparts_id") by done.
    change (or_else VUndef ?v) with v.
    destruct (text_or_uid _ "sp" w) as [w1 id]. simpl.
    by repeat (rewrite lookup_insert_ne by done); rewrite lookup_insert_eq.
  - unfold mapInventoryRow, bind, ret. rewrite (Hu "item_id") by done.
    change (or_else VUndef ?v) with v.
    destruct (text_or_uid _ "sku" w) as [w1 id]. simpl.
    by repeat (rewrite lookup_insert_ne by done); rewrite lookup_insert_eq.
  - unfold mapInventoryRow, bind, ret. rewrite (Hu "reorder_threshold") by done.
    destruct (text_or_uid _ "sku" w) as [w1 id]. simpl.
    by repeat (rewrite lookup_insert_ne by done); rewrite lookup_insert_eq.
  - unfold mapWarehouseRow, bind, ret. rewrite (Hu "contact_phone") by done.
    change (or_else VUndef ?v) with v.
    destruct (text_or_uid _ "W" w) as [w1 id]. simpl.
    destruct (now_iso w1) as [w2 t]. simpl.
    by repeat (rewrite lookup_insert_ne by done); rewrite lookup_insert_eq.
Qed.

End WorkbookColumns.

Section WorkbookColumnsScenario.
Import Js Settings Warehouses Scenario.

Lemma mapped_of_holds_cells_under_normalised_labels_witness :
  let row := [("SpareParts_ID", VStr "SP-1"); ("Item Name", VStr "Belt")] in
  mapped_of row !! "sparepartsid" = Some (VStr "SP-1")
  ∧ sforall is_lower_alnum "sparepartsid" = true
  ∧ ∃ label, (label, VStr "SP-1") ∈ row ∧ tolerant label = "sparepartsid".
Proof.
  intros row.
  assert (Hk : mapped_of row !! "sparepartsid" = Some (VStr "SP-1"))
    by (vm_compute; reflexivity).
  split; [exact Hk|].
  exact (mapped_of_holds_cells_under_normalised_labels row "sparepartsid"
           (VStr "SP-1") Hk).
Defined.

End WorkbookColumnsScenario.

Section BrowserStorage.
Import Js Settings Warehouses.

Lemma json_val_kept (v v' : JsVal) (s : string) :
  json_val v = Some v' → v' = VStr s ↔ v = VStr s.
Proof.
  destruct v as [| |b|n|t]; simpl; try (by intros [= <-]); try done.
  destruct (isFinite n); [|by intros [= <-]].
  destruct n as [|neg|[] m k]; try (by intros [= <-]).
  destruct (rounds_to_zero m k); by intros [= <-].
Qed.

Lemma json_val_None (v : JsVal) : json_val v = None → v = VUndef.
Proof.
  destruct v as [| |b|n|t]; simpl; try done.
  destruct (isFinite n); [|done].
  destruct n as [|neg|[] m k]; try done.
  by destruct (rounds_to_zero m k).
Qed.

Lemma json_row_get (o : Obj) (f s : string) :
  get (json_row o) f = VStr s ↔ get o f = VStr s.
Proof.
  unfold get, json_row. rewrite lookup_omap.
  destruct (o !! f) as [v|]; simpl; [|done].
  destruct (json_val v) as [v'|] eqn:E; simpl.
  - by apply json_val_kept.
  - by rewrite (json_val_None v E).
Qed.

Lemma read_write (key key' : string) (rows : list Obj) (b : Browser) :
  read key' (write key rows b)
  = if decide (key = key') then json_row <$> rows else read key' b.
Proof.
  unfold read, write, post. simpl.
  destruct (decide (key = key')) as [->|Hne].
  - by rewrite lookup_insert_eq.
  - by rewrite lookup_insert_ne.
Qed.

Lemma posted_write (key : string) (rows : list Obj) (b : Browser) :
  posted (write key rows b) = posted b ++ [Reload].
Proof. done. Qed.

Lemma read_remove_where (key column id key' : string) (b : Browser) :
  read key' (remove_where key column id b)
  = if decide (key = key')
    then json_row <$> filter (λ r, get r column ≠ VStr id) (read key b)
    else read key' b.
Proof. unfold remove_where. apply read_write. Qed.

Lemma removed_everywhere (column id : string) (rows : list Obj) :
  Forall (λ r, get r column ≠ VStr id)
    (json_row <$> filter (λ r, get r column ≠ VStr id) rows).
Proof.
  apply Forall_fmap, Forall_forall. intros r [Hr _]%list_elem_of_filter. simpl.
  by rewrite json_row_get.
Qed.

(** X19. A confirmed deletion of a warehouse cascades: in each of the
    four arrays of the storage exactly the records that name the warehouse
    are removed (the warehouse by its id, the others by their warehouseId),
    the records left are written back in order, as JSON keeps them, and
    none of them names the warehouse.  The page then shows what the storage
    holds, and four reload messages and one deleted message are posted. *)
Theorem deleteWarehouse_cascades (id : string) (b : Browser) (p : Page) :
  let out := deleteWarehouse true id (b, p) in
  (∀ key column, (key, column) ∈ warehouse_references →
     read key out.1
     = json_row <$> filter (λ r, get r column ≠ VStr id) (read key b)
     ∧ Forall (λ r, get r column ≠ VStr id) (read key out.1))
  ∧ out.2 = loadAll out.1 p
  ∧ posted out.1
    = posted b ++ [Reload; Reload; Reload; Reload; Deleted EWarehouse id].
Proof.
  cbv zeta. unfold deleteWarehouse. cbn [fst snd].
  split; [|split; [done|]].
  - intros key column Hin. unfold warehouse_references in Hin.
    assert (Hread : read key
              (post (Deleted EWarehouse id)
                 (remove_where KEY_SPAREPARTS "warehouseId" id
                    (remove_where KEY_RACKS "warehouseId" id
                       (remove_where KEY_INVENTORY "warehouseId" id
                          (remove_where KEY_WAREHOUSES "id" id b)))))
              = json_row <$> filter (λ r, get r column ≠ VStr id) (read key b)).
    { change (read key (post ?m ?b0)) with (read key b0).
      rewrite !elem_of_cons, elem_of_nil in Hin.
      destruct Hin as [[= -> ->]|[[= -> ->]|[[= -> ->]|[[= -> ->]|[]]]]];
        rewrite !read_remove_where; repeat case_decide; done. }
    split; [exact Hread|]. rewrite Hread. apply removed_everywhere.
  - unfold remove_where, write, post. simpl. by rewrite <- !app_assoc.
Qed.

(** X20. A confirmed deletion of an inventory item removes every item
    with that sku, in whatever warehouse it is, although items are staged
    per sku and warehouse; items with another sku are written back in
    order, the three other arrays are not touched, and no item shown
    afterwards has the sku. *)
Theorem deleteInventoryItem_in_every_warehouse (sku : string) (b : Browser) (p : Page) :
  let out := deleteInventoryItem true sku (b, p) in
  read KEY_INVENTORY out.1
    = json_row <$> filter (λ it, get it "sku" ≠ VStr sku) (read KEY_INVENTORY b)
  ∧ Forall (λ it, get it "sku" ≠ VStr sku) (inventory out.2)
  ∧ (∀ key, key ≠ KEY_INVENTORY → read key out.1 = read key b)
  ∧ out.2 = loadAll out.1 p.
Proof.
  cbv zeta. unfold deleteInventoryItem. cbn [fst snd].
  change (read ?k (post ?m ?b0)) with (read k b0).
  assert (Hread : read KEY_INVENTORY (remove_where KEY_INVENTORY "sku" sku b)
            = json_row <$> filter (λ it, get it "sku" ≠ VStr sku)
                             (read KEY_INVENTORY b)).
  { rewrite read_remove_where. by rewrite decide_True. }
  split; [exact Hread|]. split; [|split; [|done]].
  - unfold loadAll. cbn [inventory].
    change (read ?k (post ?m ?b0)) with (read k b0).
    rewrite Hread. apply removed_everywhere.
  - intros key Hkey. rewrite read_remove_where. by rewrite decide_False.
Qed.

End BrowserStorage.

Section AddWarehouse.
Import Js Settings Warehouses.
Context `{Host}.

Lemma json_row_insert_text (k s : string) (o : Obj) :
  json_row (<[k := VStr s]> o) = <[k := VStr s]> (json_row o).
Proof. unfold json_row. by rewrite omap_insert_Some with (y := VStr s). Qed.

Lemma json_row_insert_text_if_any (k s : string) (o : Obj) :
  o !! k = None →
  json_row (<[k := text_if_any s]> o)
  = if bool_decide (s = EmptyString) then json_row o
    else <[k := VStr s]> (json_row o).
Proof.
  intros Hk. unfold json_row, text_if_any. case_bool_decide.
  - rewrite omap_insert_None by done. apply delete_id.
    by rewrite lookup_omap, Hk.
  - by rewrite omap_insert_Some with (y := VStr s).
Qed.

(** X21. Adding a warehouse.  With a blank name or district nothing is
    stored and nothing is read from the clock: only the error is set and
    the form stays.  Otherwise the new record goes first in the array of
    warehouses, before the records staged so far; it holds the generated
    id, the name and the district, and address, manager and contact_phone
    only where the form has a text for them; a reload and an added message
    are posted, and the modal closes with a blank form. *)
Theorem submit_stores_new_warehouse_first
    (m : AddWarehouseModal) (b : Browser) (w : World) :
  let form := modal_form m in
  let out := submit m b w in
  (form_name form = EmptyString ∨ form_district form = EmptyString →
     out.1 = w ∧ out.2.1 = b
     ∧ out.2.2 = {| modal_open := modal_open m; modal_form := form;
                    modal_error := Some "Name and district are required" |})
  ∧ (form_name form ≠ EmptyString → form_district form ≠ EmptyString →
     ∃ (wh : Obj) (id : string),
       read KEY_WAREHOUSES out.2.1 = wh :: (json_row <$> read KEY_WAREHOUSES b)
       ∧ id = (uid "W" w).2
       ∧ wh !! "id" = Some (VStr id)
       ∧ wh !! "name" = Some (VStr (form_name form))
       ∧ wh !! "district" = Some (VStr (form_district form))
       ∧ (∀ f s, (f, s) ∈ [("address", form_address form);
                           ("manager", form_manager form);
                           ("contact_phone", form_contact_phone form)] →
            wh !! f = if bool_decide (s = EmptyString) then None else Some (VStr s))
       ∧ posted out.2.1 = posted b ++ [Reload; Added EWarehouse id]
       ∧ out.2.2 = {| modal_open := false; modal_form := blank_form;
                      modal_error := None |}).
Proof.
  cbv zeta. unfold submit. split.
  - intros Hblank.
    assert (bool_decide (form_name (modal_form m) = EmptyString)
            || bool_decide (form_district (modal_form m) = EmptyString) = true) as ->.
    { destruct Hblank as [-> | ->]; [done|]. apply orb_true_r. }
    done.
  - intros Hname Hdistrict.
    rewrite !bool_decide_eq_false_2 by done. cbn [orb].
    unfold bind, ret, now_iso, bind, ret.
    destruct (uid "W" w) as [w1 id]. cbn [fst snd].
    destruct (Date_now w1) as [w2 t]. cbn [fst snd].
    eexists _, id.
    change (read ?k (post ?msg ?b0)) with (read k b0).
    rewrite read_write, decide_True by done.
    rewrite fmap_cons. split; [reflexivity|]. split; [done|].
    rewrite json_row_insert_text.
    rewrite !json_row_insert_text_if_any
      by (by repeat (rewrite lookup_insert_ne by done); rewrite ?lookup_empty).
    rewrite !json_row_insert_text.
    split; [|split; [|split; [|split; [|split]]]].
    + repeat case_bool_decide;
        by repeat (rewrite lookup_insert_ne by done); rewrite lookup_insert_eq.
    + repeat case_bool_decide;
        by repeat (rewrite lookup_insert_ne by done); rewrite lookup_insert_eq.
    + repeat case_bool_decide;
        by repeat (rewrite lookup_insert_ne by done); rewrite lookup_insert_eq.
    + intros f s. rewrite !elem_of_cons, elem_of_nil.
      intros [[= -> ->]|[[= -> ->]|[[= -> ->]|[]]]];
        repeat case_bool_decide; try done;
        repeat (rewrite lookup_insert_ne by done);
        rewrite ?lookup_insert_eq; try done;
        unfold json_row; by rewrite lookup_omap, lookup_empty.
    + unfold write, post. simpl. by rewrite <- app_assoc.
    + done.
Qed.

End AddWarehouse.

Section WarehouseSearch.
Import Js Settings Warehouses.
Context `{Host}.

Lemma smap_app (f : ascii → ascii) (a b : string) :
  smap f (a +:+ b) = smap f a +:+ smap f b.
Proof.
  induction a as [|x a IH]; [done|].
  change (String (f x) (smap f (a +:+ b)) = String (f x) (smap f a +:+ smap f b)).
  by rewrite IH.
Qed.

Lemma startsWith_app (frag rest : string) : startsWith (frag +:+ rest) frag = true.
Proof.
  induction frag as [|c frag IH]; [by destruct rest|].
  change (String c frag +:+ rest) with (String c (frag +:+ rest)). simpl.
  by rewrite bool_decide_eq_true_2, IH.
Qed.

Lemma includes_unfold (s frag : string) :
  includes s frag
  = startsWith s frag
    || match s with
       | EmptyString => false
       | String _ s' => includes s' frag
       end.
Proof. by destruct s. Qed.

Lemma includes_app (pre frag post : string) :
  includes (pre +:+ frag +:+ post) frag = true.
Proof.
  induction pre as [|c pre IH].
  - change (EmptyString +:+ frag +:+ post) with (frag +:+ post).
    by rewrite includes_unfold, startsWith_app.
  - change (String c pre +:+ frag +:+ post) with (String c (pre +:+ frag +:+ post)).
    simpl. rewrite IH. apply orb_true_r.
Qed.

(** X22. On ASCII texts the search box matches regardless of case: when
    the text of a warehouse the search is matched against (its name,
    district and address) and the search text are ASCII, on which the case
    mapping of JavaScript is the letter-by-letter mapping of [toLowerCase],
    a warehouse whose name holds the search text, in any mix of upper and
    lower case, is among the warehouses shown.  (Outside ASCII the case
    mapping depends on the context of a letter, and the property fails.) *)
Theorem filtered_finds_name_in_any_case
    (p : Page) (w : Obj) (name pre hit post : string) :
  w ∈ warehouses p →
  get w "name" = VStr name →
  name = pre +:+ hit +:+ post →
  toLowerCase hit = toLowerCase (search p) →
  sforall is_ascii (search_text w) = true →
  sforall is_ascii (search p) = true →
  w ∈ filtered p.
Proof.
  intros Hw Hname -> Hhit _ _. unfold filtered.
  apply list_elem_of_In, filter_In. split; [by apply list_elem_of_In|].
  unfold search_text. rewrite Hname. simpl. rewrite <- Hhit.
  unfold toLowerCase. rewrite !string_app_assoc, !smap_app.
  apply includes_app.
Qed.

End WarehouseSearch.

Section WarehouseSearchScenario.
Import Js Settings Warehouses Scenario.

Lemma filtered_finds_name_in_any_case_witness :
  let w := obj [("id", VStr "W-1"); ("name", VStr "Pune Central")] in
  let p := {| warehouses := [obj [("id", VStr "W-0"); ("name", VStr "Nagpur")]; w];
              inventory := []; racks := []; spareparts := [];
              search := "pune" |} in
  w ∈ warehouses p
  ∧ get w "name" = VStr "Pune Central"
  ∧ toLowerCase "Pune" = toLowerCase (search p)
  ∧ sforall is_ascii (search_text w) = true
  ∧ sforall is_ascii (search p) = true
  ∧ w ∈ filtered p.
Proof.
  intros w p.
  assert (Hw : w ∈ warehouses p) by (right; left).
  assert (Hn : get w "name" = VStr "Pune Central") by (vm_compute; reflexivity).
  assert (Ha : sforall is_ascii (search_text w) = true) by (vm_compute; reflexivity).
  split; [exact Hw|]. split; [exact Hn|]. split; [reflexivity|].
  split; [exact Ha|]. split; [reflexivity|].
  exact (filtered_finds_name_in_any_case p w "Pune Central" EmptyString "Pune"
           " Central" Hw Hn eq_refl eq_refl Ha eq_refl).
Defined.

End WarehouseSearchScenario.

Section AddItemOutcome.
Import Js SpareParts Inventory.
Context `{Host}.

(** X24. Adding a single inventory item.  With a blank sku or name no
    query is issued: only the error is set and the form stays.  Otherwise
    exactly one row is upserted, built from the form; when the database
    rejects it nothing else is issued, its message is shown and the form
    stays as it was; when it accepts, the inventory is reloaded next, the
    form is blanked and the modal closes. *)
Theorem submitAdd_outcome (st : AddItem) (w : World) :
  let f := form st in
  let out := submitAdd st w in
  let upsert := Upsert "inventory_items" [add_payload f] "sku,warehouse_id" in
  (add_sku f = EmptyString ∨ add_name f = EmptyString →
     out = (w, {| adding := adding st; form := f;
                  addError := Some "SKU and name required" |}))
  ∧ (add_sku f ≠ EmptyString → add_name f ≠ EmptyString →
     ∃ resp,
       match error resp with
       | Some err =>
           trace out.1 = trace w ++ [(upsert, resp)]
           ∧ out.2 = {| adding := adding st; form := f;
                        addError := Some (Js.message err) |}
       | None =>
           (∃ q r, trace out.1 = trace w ++ [(upsert, resp); (q, r)]
                   ∧ issues w out.1 [upsert; q])
           ∧ out.2 = {| adding := false; form := blank_add_form; addError := None |}
       end).
Proof.
  cbv zeta. unfold submitAdd. split.
  - intros Hblank.
    assert (bool_decide (add_sku (form st) = EmptyString)
            || bool_decide (add_name (form st) = EmptyString) = true) as ->.
    { destruct Hblank as [-> | ->]; [done|]. apply orb_true_r. }
    done.
  - intros Hsku Hname. rewrite !bool_decide_eq_false_2 by done. cbn [orb].
    unfold bind.
    pose proof (issues_await
      (Upsert "inventory_items" [add_payload (form st)] "sku,warehouse_id") w) as Hq.
    unfold await in *.
    destruct (exec (env w) _) as [e1 resp] eqn:E1. simpl in Hq.
    exists resp. destruct (error resp) as [err|]; [done|].
    unfold loadInventory, bind, ret.
    match goal with
    | |- context [await ?q ?w1] =>
        pose proof (issues_await q w1) as Hq2; unfold await in *;
        destruct (exec (env w1) q) as [e2 r2] eqn:E2
    end.
    simpl in *. split; [|done].
    match type of E2 with exec _ ?q = _ => exists q, r2 end.
    rewrite <- app_assoc. split; [done|].
    rewrite <- app_assoc in Hq2.
    apply (issues_trans _ _ _ [_] [_] Hq Hq2).
Qed.

End AddItemOutcome.

Section KnownCategory.
Import Js SpareParts.
Context `{Host}.





End KnownCategory.

Section KnownCategoryScenario.
Import Js SpareParts Scenario.


End KnownCategoryScenario.

Section SheetKinds.
Import Js Settings Warehouses.

Lemma tolerant_images_plain (k : string) (labels : list string) :
  k ∈ tolerant <$> labels → sforall is_lower_alnum k = true.
Proof.
  intros (l & -> & _)%list_elem_of_fmap. unfold tolerant. apply sfilter_sforall.
Qed.

(** X23. A sheet is taken for spare parts only by its name or by a rate
    column: when the rows of a sheet go to the spare parts, the name of the
    sheet holds the word spare, in any case, or the first row has a column
    whose normalised label is rate.  A column SpareParts_ID alone does not
    make a sheet a spare-parts sheet. *)
Theorem classify_spare_parts_sheet (sheetName : string) (json : list RawRow) :
  classify sheetName json = Some KSpareParts →
  includes (toLowerCase (trim sheetName)) "spare" = true
  ∨ "rate" ∈ tolerant <$> (default [] (head json)).*1.
Proof.
  unfold classify. cbv zeta.
  repeat (match goal with
          | |- context [if ?b then _ else _] => destruct b eqn:?
          end; try done); try (by left).
  intros _. right.
  match goal with
  | Hor : _ || _ = true |- _ => apply orb_prop in Hor as [Hs|Hr]
  end.
  - apply bool_decide_eq_true_1, tolerant_images_plain in Hs. done.
  - by apply bool_decide_eq_true_1 in Hr.
Qed.

Lemma classify_spare_parts_sheet_witness :
  let json := [[("SpareParts_ID", VStr "SP-1"); ("Rate", VStr "120")]] in
  classify "Sheet1" json = Some KSpareParts
  ∧ (includes (toLowerCase (trim "Sheet1")) "spare" = true
     ∨ "rate" ∈ tolerant <$> (default [] (head json)).*1).
Proof.
  intros json.
  assert (Hk : classify "Sheet1" json = Some KSpareParts)
    by (vm_compute; reflexivity).
  split; [exact Hk|].
  exact (classify_spare_parts_sheet "Sheet1" json Hk).
Defined.

End SheetKinds.
